(** * Gaps Solitaire: the rule engine of [src/utils/gameRules.ts]

    A shallow embedding of the engine (deck, deal, legality, lock scan,
    score, win test, reshuffle) and the properties its specification
    states about it.

    Conventions of the embedding:
    - a JS array is a [list]; [a[i]] is [a !! i], where [None] stands for
      [undefined];
    - a [GridCell] is [option CardData], [None] being the hole [null];
    - reading a property of [undefined] throws a [TypeError]: such
      functions return an [option], [None] being the throw;
    - [Math.random()] is a sequence of rationals, the [k]-th call
      returning [random k]; the functions that draw thread the number of
      calls made so far. *)

From Stdlib Require Import ZArith QArith Qround.
From stdpp Require Import base option list gmap strings.

Set Warnings "-clear-no-such-hyp".

(** ** Types ([types.ts]) *)

Inductive Suit := HEARTS | DIAMONDS | CLUBS | SPADES.
Inductive Rank :=
  TWO | THREE | FOUR | FIVE | SIX | SEVEN | EIGHT | NINE | TEN
| JACK | QUEEN | KING | ACE.

#[global] Instance Suit_eq_dec : EqDecision Suit.
Proof. solve_decision. Defined.
#[global] Instance Rank_eq_dec : EqDecision Rank.
Proof. solve_decision. Defined.

(** The string values of the two enums. *)
Definition suitCode (s : Suit) : string :=
  match s with HEARTS => "H" | DIAMONDS => "D" | CLUBS => "C" | SPADES => "S" end.

Definition rankCode (r : Rank) : string :=
  match r with
  | TWO => "2" | THREE => "3" | FOUR => "4" | FIVE => "5" | SIX => "6"
  | SEVEN => "7" | EIGHT => "8" | NINE => "9" | TEN => "0"
  | JACK => "J" | QUEEN => "Q" | KING => "K" | ACE => "A"
  end.

Record CardData := mkCard {
  suit : Suit;
  rank : Rank;
  code : string;
  image : string;
  id : string
}.

#[global] Instance CardData_eq_dec : EqDecision CardData.
Proof. solve_decision. Defined.

Abbreviation GridCell := (option CardData).
Abbreviation Grid := (list (list GridCell)).

(** ** Rank values *)

Definition RANKS : list Rank :=
  [TWO; THREE; FOUR; FIVE; SIX; SEVEN; EIGHT; NINE; TEN; JACK; QUEEN; KING; ACE].

Definition SUITS : list Suit := [HEARTS; DIAMONDS; CLUBS; SPADES].

(** [Array.prototype.indexOf]: the first index holding [x], [-1] if none. *)
Fixpoint indexOf {A} `{EqDecision A} (l : list A) (x : A) : Z :=
  match l with
  | [] => -1
  | y :: l' =>
      if decide (y = x) then 0
      else let i := indexOf l' x in if (i <? 0)%Z then -1 else (i + 1)%Z
  end%Z.

Definition getRankValue (rank : Rank) : Z :=
  let index := indexOf RANKS rank in
  (index + 2)%Z.

(** ** Move legality *)

Definition canPlaceCard (card : CardData) (targetRow targetCol : nat)
    (grid : Grid) : option bool :=
  if decide (targetCol = 0) then Some (bool_decide (rank card = TWO))
  else
    row ← grid !! targetRow;
    match row !! (targetCol - 1) with
    | Some (Some leftNeighbor) =>
        if decide (rank leftNeighbor = KING) then Some false
        else if decide (suit card ≠ suit leftNeighbor) then Some false
        else
          let leftVal := getRankValue (rank leftNeighbor) in
          let currentVal := getRankValue (rank card) in
          Some (bool_decide (currentVal = leftVal + 1)%Z)
    | _ => Some false
    end.

(** ** Win detection *)

(** The loop [for (let i = 0; i < 12; i++)] of [isRowComplete], from
    index [i] on, for [n] more rounds. *)
Fixpoint rowCompleteFrom (row : list GridCell) (suit0 : Suit) (i n : nat) : bool :=
  match n with
  | 0 => true
  | S n' =>
      match row !! i with
      | Some (Some cell) =>
          if decide (suit cell ≠ suit0) then false
          else if decide (getRankValue (rank cell) ≠ Z.of_nat i + 2)%Z then false
          else rowCompleteFrom row suit0 (S i) n'
      | _ => false
      end
  end.

Definition isRowComplete (row : list GridCell) : bool :=
  match row !! 12 with
  | Some None =>
      match row !! 0 with
      | Some (Some first) =>
          if decide (rank first ≠ TWO) then false
          else rowCompleteFrom row (suit first) 0 12
      | _ => false
      end
  | _ => false
  end.

Fixpoint checkWinCondition (grid : Grid) : bool :=
  match grid with
  | [] => true
  | row :: rest => if negb (isRowComplete row) then false else checkWinCondition rest
  end.

(** ** Scoring and lock detection *)

(** The cards of a grid, row by row. *)
Definition cards (grid : Grid) : list CardData :=
  omap (λ cell : GridCell, cell) (concat grid).

(** The inner loop of [calculateScore]: [cells] are the cells [row[i]],
    [row[i+1]], ... still to visit; a [break] returns the score. *)
Fixpoint scoreRun (currentSuit : Suit) (currentRankVal : Z)
    (cells : list GridCell) (score : Z) : Z :=
  match cells with
  | [] => score
  | None :: _ => score
  | Some cell :: rest =>
      if decide (suit cell ≠ currentSuit) then score
      else
        let val := getRankValue (rank cell) in
        if decide (val = currentRankVal + 1)%Z
        then scoreRun currentSuit val rest (score + val)%Z
        else score
  end.

(** One round of the outer loop of [calculateScore]. *)
Definition scoreRow (row : list GridCell) (score : Z) : Z :=
  match row !! 0 with
  | Some (Some first) =>
      if decide (rank first ≠ TWO) then score
      else scoreRun (suit first) 2 (drop 1 row) (score + 2)%Z
  | _ => score
  end.

Definition calculateScore (grid : Grid) : Z :=
  foldl (λ score row, scoreRow row score) 0%Z grid.

(** The inner loop of [getLockedCards]. *)
Fixpoint lockedRun (currentSuit : Suit) (currentRankVal : Z)
    (cells : list GridCell) (locked : gset string) : gset string :=
  match cells with
  | [] => locked
  | None :: _ => locked
  | Some cell :: rest =>
      if decide (suit cell ≠ currentSuit) then locked
      else
        let val := getRankValue (rank cell) in
        if decide (val = currentRankVal + 1)%Z
        then lockedRun currentSuit val rest (locked ∪ {[ id cell ]})
        else locked
  end.

(** One round of the outer loop of [getLockedCards]. *)
Definition lockedRow (row : list GridCell) (locked : gset string) : gset string :=
  match row !! 0 with
  | Some (Some first) =>
      if decide (rank first ≠ TWO) then locked
      else lockedRun (suit first) 2 (drop 1 row) (locked ∪ {[ id first ]})
  | _ => locked
  end.

Definition getLockedCards (grid : Grid) : gset string :=
  foldl (λ locked row, lockedRow row locked) ∅ grid.

(** ** Arrays *)

(** [a[i] = v]: an index below the length overwrites, the index equal to
    the length pushes. The engine never writes further out: it writes
    [row[c]] only after it has read or written every [row[c']], [c' < c]. *)
Definition arraySet {A} (a : list A) (i : nat) (v : A) : list A :=
  if decide (i < length a) then <[i := v]> a else a ++ [v].

(** [[a[i], a[j]] = [a[j], a[i]]], both indices in range (the shuffles
    only swap below the length, see [randomIndex_lt]). *)
Definition swap {A} (a : list A) (i j : nat) : list A :=
  match a !! i, a !! j with
  | Some x, Some y => <[j := x]> (<[i := y]> a)
  | _, _ => a
  end.

(** [a.pop()]. *)
Definition pop {A} (a : list A) : option (A * list A) :=
  match last a with
  | Some x => Some (x, take (length a - 1) a)
  | None => None
  end.

(** ** The random source, the deck and the deal *)

Section Engine.

(** [random k] is what the [k]-th call of [Math.random()] returns. *)
Variable random : nat → Q.

(** [u.toString(36).substr(2, 9)], the random suffix of a card id. *)
Variable toString36 : Q → string.

(** [Math.floor(u * n)] as an array index. *)
Definition randomIndex (u : Q) (n : nat) : nat :=
  Z.to_nat (Qfloor (u * inject_Z (Z.of_nat n))).

Definition newCard (suit : Suit) (rank : Rank) (u : Q) : CardData :=
  {| suit := suit;
     rank := rank;
     code := rankCode rank +:+ suitCode suit;
     image := "https://deckofcardsapi.com/static/img/"
                +:+ rankCode rank +:+ suitCode suit +:+ ".png";
     id := rankCode rank +:+ suitCode suit +:+ "-" +:+ toString36 u |}.

(** [k] counts the calls of [Math.random()] made so far. *)
Definition generateDeck (k : nat) : list CardData * nat :=
  foldl (λ '(deck, k) suit,
           foldl (λ '(deck, k) rank,
                    (deck ++ [newCard suit rank (random k)], S k))
                 (deck, k) RANKS)
        ([], k) SUITS.

(** The loop [for (let i = ...; i > 0; i--)] of the three Fisher-Yates
    shuffles, from index [i] down. *)
Fixpoint fisherYates {A} (a : list A) (i : nat) (k : nat) : list A * nat :=
  match i with
  | 0 => (a, k)
  | S i' =>
      let j := randomIndex (random k) (i + 1) in
      fisherYates (swap a i j) i' (S k)
  end.

Definition shuffleDeck (deck : list CardData) (k : nat) : list CardData * nat :=
  let newDeck := deck in
  fisherYates newDeck (length newDeck - 1) k.

(** The loop over [j] of [initializeBoard], [n] cards still to deal into
    [row]; [None] is the throw of "Deck ran out!". *)
Fixpoint dealRow (deck : list CardData) (row : list GridCell) (n : nat)
  : option (list GridCell * list CardData) :=
  match n with
  | 0 => Some (row, deck)
  | S n' =>
      '(card, deck') ← pop deck;
      if decide (rank card = ACE)
      then dealRow deck' (row ++ [None]) n'
      else dealRow deck' (row ++ [Some card]) n'
  end.

(** The loop over [i] of [initializeBoard]. *)
Fixpoint dealRows (deck : list CardData) (rows : Grid) (n : nat) : option Grid :=
  match n with
  | 0 => Some rows
  | S n' =>
      '(row, deck') ← dealRow deck [] 13;
      dealRows deck' (rows ++ [row]) n'
  end.

Definition initializeBoard (k : nat) : option Grid * nat :=
  let '(deck, k) := generateDeck k in
  let '(deck, k) := shuffleDeck deck k in
  (dealRows deck [] 4, k).

(** ** Reshuffle *)

Definition rows : nat := 4.
Definition cols : nat := 13.

(** The three locals that step 1 of [reshuffleBoard] updates. *)
Record ScanState := mkScan {
  newGrid : Grid;
  cardsToShuffle : list CardData;
  positionsToFill : list (nat * nat)
}.

(** [g[r][c]]: [None] is the [TypeError] of a missing row [r],
    [Some None] is [undefined]. *)
Definition readCell (g : Grid) (r c : nat) : option (option GridCell) :=
  row ← g !! r; Some (row !! c).

(** [g[r][c] = v]. *)
Definition writeCell (g : Grid) (r c : nat) (v : GridCell) : option Grid :=
  row ← g !! r; Some (<[r := arraySet row c v]> g).

(** [if (cell) cardsToShuffle.push(cell); positionsToFill.push({r, c});
    newGrid[r][c] = null]. *)
Definition collect (r c : nat) (cell : option GridCell) (st : ScanState)
  : option ScanState :=
  let cardsToShuffle :=
    match cell with
    | Some (Some card) => cardsToShuffle st ++ [card]
    | _ => cardsToShuffle st
    end in
  let positionsToFill := positionsToFill st ++ [(r, c)] in
  g ← writeCell (newGrid st) r c None;
  Some (mkScan g cardsToShuffle positionsToFill).

(** [curr && prev && curr.suit === prev.suit &&
    getRankValue(curr.rank) === getRankValue(prev.rank) + 1]. *)
Definition continuesRun (prev curr : option GridCell) : bool :=
  match curr, prev with
  | Some (Some curr), Some (Some prev) =>
      bool_decide (suit curr = suit prev)
      && bool_decide (getRankValue (rank curr) = getRankValue (rank prev) + 1)%Z
  | _, _ => false
  end.

(** The body of the loop over [c]. *)
Definition scanCell (r c : nat) (s : bool * ScanState) : option (bool * ScanState) :=
  let '(isSequence, st) := s in
  if isSequence then
    if decide (c = 0) then
      if negb isSequence then
        cell ← readCell (newGrid st) r c;
        st' ← collect r c cell st;
        Some (isSequence, st')
      else Some (isSequence, st)
    else
      prev ← readCell (newGrid st) r (c - 1);
      curr ← readCell (newGrid st) r c;
      if continuesRun prev curr then Some (isSequence, st)
      else
        st' ← collect r c curr st;
        Some (false, st')
  else
    cell ← readCell (newGrid st) r c;
    st' ← collect r c cell st;
    Some (isSequence, st').

(** The loop over [c], from column [c] on, for [n] more columns. *)
Fixpoint scanCols (r c n : nat) (s : bool * ScanState) : option (bool * ScanState) :=
  match n with
  | 0 => Some s
  | S n' => s' ← scanCell r c s; scanCols r (S c) n' s'
  end.

(** The body of the loop over [r]. *)
Definition scanRow (r : nat) (st : ScanState) : option ScanState :=
  first ← readCell (newGrid st) r 0;
  let isSequence :=
    match first with
    | Some (Some card) => if decide (rank card ≠ TWO) then false else true
    | _ => false
    end in
  s ← scanCols r 0 cols (isSequence, st);
  Some s.2.

(** The loop over [r], from row [r] on, for [n] more rows. *)
Fixpoint scanRows (r n : nat) (st : ScanState) : option ScanState :=
  match n with
  | 0 => Some st
  | S n' => st' ← scanRow r st; scanRows (S r) n' st'
  end.

(** Step 1 of [reshuffleBoard], on the copy of the grid. *)
Definition collectFree (currentGrid : Grid) : option ScanState :=
  let newGrid := (λ row, row) <$> currentGrid in
  scanRows 0 rows (mkScan newGrid [] []).

(** Step 4: [positionsToFill.forEach((pos, idx) => ...)], from index
    [idx] on. [fillItems] was padded to the length of [positionsToFill],
    so [fillItems[idx]] is never [undefined]. *)
Fixpoint assignBack (positions : list (nat * nat)) (fillItems : list GridCell)
    (idx : nat) (g : Grid) : option Grid :=
  match positions with
  | [] => Some g
  | pos :: rest =>
      g' ← writeCell g pos.1 pos.2 (default None (fillItems !! idx));
      assignBack rest fillItems (S idx) g'
  end.

Definition reshuffleBoard (currentGrid : Grid) (k : nat) : option (Grid * nat) :=
  st ← collectFree currentGrid;
  let '(cardsToShuffle, k) :=
    fisherYates (cardsToShuffle st) (length (cardsToShuffle st) - 1) k in
  let fillItems : list GridCell :=
    (Some <$> cardsToShuffle)
      ++ replicate (length (positionsToFill st) - length cardsToShuffle) None in
  let '(fillItems, k) := fisherYates fillItems (length fillItems - 1) k in
  g ← assignBack (positionsToFill st) fillItems 0 (newGrid st);
  Some (g, k).

End Engine.

(** ** Vocabulary of the specification *)

(** A structurally valid grid: 4 rows of 13 cells. *)
Definition validGrid (grid : Grid) : Prop :=
  length grid = 4 ∧ Forall (λ row, length row = 13) grid.

(** The cards of the grid carry pairwise distinct ids. *)
Definition distinctIds (grid : Grid) : Prop := NoDup (id <$> cards grid).

(** [Math.random()] returns a number in [0, 1). *)
Definition unitDraws (random : nat → Q) : Prop :=
  ∀ k, (0 <= random k)%Q ∧ (random k < 1)%Q.

(** [grid[r][c]], for indices in range. *)
Definition cellAt (grid : Grid) (r c : nat) : option GridCell :=
  grid !! r ≫= (.!! c).

(** A sample card, as [generateDeck] builds them. *)
Definition sampleCard (s : Suit) (r : Rank) : CardData :=
  newCard (λ _, "k3x9q0z1a"%string) s r 0%Q.

(** What the win detector asks of a row. *)
Definition completeRow (row : list GridCell) : Prop :=
  row !! 12 = Some None ∧
  ∃ first, row !! 0 = Some (Some first) ∧ rank first = TWO ∧
    ∀ i, i < 12 →
      ∃ cell, row !! i = Some (Some cell) ∧ suit cell = suit first ∧
              getRankValue (rank cell) = (Z.of_nat i + 2)%Z.

(** The run TWO..KING of a suit followed by a hole. *)
Definition fullRow (s : Suit) : list GridCell :=
  (Some ∘ sampleCard s <$> take 12 RANKS) ++ [None].

(** A won board, and a board fresh from some deal. *)
Definition wonGrid : Grid := fullRow <$> SUITS.

Definition dealtGrid : Grid :=
  let c := sampleCard in
  [ [Some (c HEARTS TWO); Some (c HEARTS THREE); Some (c SPADES NINE); None;
     Some (c CLUBS TWO); Some (c HEARTS KING); Some (c DIAMONDS FIVE);
     Some (c CLUBS SEVEN); Some (c SPADES TWO); Some (c HEARTS FOUR);
     Some (c CLUBS KING); Some (c DIAMONDS SIX); Some (c SPADES TEN)];
    [Some (c DIAMONDS NINE); Some (c DIAMONDS TEN); Some (c DIAMONDS JACK);
     Some (c HEARTS FIVE); None; Some (c CLUBS THREE); Some (c SPADES KING);
     Some (c HEARTS SIX); Some (c CLUBS FOUR); Some (c DIAMONDS KING);
     Some (c SPADES THREE); Some (c HEARTS SEVEN); Some (c CLUBS FIVE)];
    [Some (c SPADES FOUR); Some (c HEARTS EIGHT); Some (c CLUBS SIX);
     Some (c SPADES QUEEN); Some (c SPADES FIVE); Some (c HEARTS NINE);
     None; Some (c CLUBS EIGHT); Some (c DIAMONDS FOUR); Some (c SPADES SIX);
     Some (c HEARTS TEN); Some (c CLUBS NINE); Some (c DIAMONDS SEVEN)];
    [Some (c DIAMONDS TWO); Some (c DIAMONDS THREE); None;
     Some (c SPADES SEVEN); Some (c HEARTS JACK); Some (c CLUBS TEN);
     Some (c DIAMONDS EIGHT); Some (c SPADES EIGHT); Some (c HEARTS QUEEN);
     Some (c CLUBS JACK); Some (c DIAMONDS QUEEN); Some (c SPADES JACK);
     Some (c CLUBS QUEEN)] ].

(** A board whose first row is the finished run of hearts; the second
    row starts with the run 2, 3, 4 of diamonds. *)
Definition heartsGrid : Grid :=
  let c := sampleCard in
  [ fullRow HEARTS;
    [Some (c DIAMONDS TWO); Some (c DIAMONDS THREE); Some (c DIAMONDS FOUR);
     Some (c DIAMONDS SIX); Some (c DIAMONDS FIVE); Some (c DIAMONDS SEVEN);
     Some (c DIAMONDS EIGHT); Some (c DIAMONDS NINE); Some (c DIAMONDS TEN);
     Some (c DIAMONDS JACK); Some (c DIAMONDS QUEEN); Some (c DIAMONDS KING);
     None];
    None :: (Some ∘ c CLUBS <$> take 12 RANKS);
    [Some (c SPADES THREE); Some (c SPADES TWO); Some (c SPADES FOUR);
     Some (c SPADES FIVE); Some (c SPADES SIX); Some (c SPADES SEVEN);
     Some (c SPADES EIGHT); Some (c SPADES NINE); Some (c SPADES TEN);
     Some (c SPADES JACK); Some (c SPADES QUEEN); Some (c SPADES KING);
     None] ].

(** The cards of the same-suit ascending run that continues a card of
    suit [currentSuit] and value [currentRankVal] into [cells]. *)
Fixpoint runFrom (currentSuit : Suit) (currentRankVal : Z)
    (cells : list GridCell) : list CardData :=
  match cells with
  | Some cell :: rest =>
      if decide (suit cell = currentSuit
                 ∧ getRankValue (rank cell) = (currentRankVal + 1)%Z)
      then cell :: runFrom currentSuit (getRankValue (rank cell)) rest
      else []
  | _ => []
  end.

(** The locked prefix of a row: the unbroken same-suit ascending run that
    starts with a TWO at column 0. *)
Definition lockedPrefix (row : list GridCell) : list CardData :=
  match row with
  | Some first :: rest =>
      if decide (rank first = TWO) then first :: runFrom (suit first) 2 rest
      else []
  | _ => []
  end.

(** The number of locked cells of a row, the break point of its scan. *)
Definition breakPoint (row : list GridCell) : nat := length (lockedPrefix row).

(** The sum of the rank values of some cards. *)
Definition sumValues (cs : list CardData) : Z :=
  foldr (λ c acc, getRankValue (rank c) + acc)%Z 0%Z cs.

(** The (suit, rank) pair of a card. *)
Definition face (c : CardData) : Suit * Rank := (suit c, rank c).

(** The 48 faces that are not Aces, suit by suit. *)
Definition nonAceFaces : list (Suit * Rank) :=
  s ← SUITS; r ← filter (λ r, r ≠ ACE) RANKS; [(s, r)].

(** The number of holes of a grid. *)
Definition gapCount (grid : Grid) : nat :=
  length (filter (λ cell : GridCell, cell = None) (concat grid)).

(** The cell [initializeBoard] pushes for a dealt card. *)
Definition dealtCell (card : CardData) : GridCell :=
  if decide (rank card = ACE) then None else Some card.

(** The cells of a row from its break point on. *)
Definition freeCells (row : list GridCell) : list GridCell :=
  drop (breakPoint row) row.

(** A row once step 1 of the reshuffle has emptied its free cells. *)
Definition scannedRow (row : list GridCell) : list GridCell :=
  take (breakPoint row) row ++ replicate (length row - breakPoint row) None.

(** The positions of the free cells of row [r], left to right. *)
Definition freePositions (r : nat) (row : list GridCell) : list (nat * nat) :=
  (λ c, (r, c)) <$> seq (breakPoint row) (length row - breakPoint row).

(** The free positions of the rows [r], [r+1], ... of a grid, row by row. *)
Fixpoint allFreePositions (r : nat) (grid : Grid) : list (nat * nat) :=
  match grid with
  | [] => []
  | row :: rest => freePositions r row ++ allFreePositions (S r) rest
  end.

(** The cards of the free cells of a grid, row by row. *)
Definition allFreeCards (grid : Grid) : list CardData :=
  grid ≫= (λ row, omap (λ cell : GridCell, cell) (freeCells row)).

(** The grid whose rows keep their locked prefix and take their free
    cells, in order, from [items]. *)
Fixpoint refill (grid : Grid) (items : list GridCell) : Grid :=
  match grid with
  | [] => []
  | row :: rest =>
      let n := length row - breakPoint row in
      (take (breakPoint row) row ++ take n items) :: refill rest (drop n items)
  end.

(** A sequence of draws in [0, 1). *)
Definition sampleDraws (k : nat) : Q := Z.of_nat (k * 5 mod 7) # 7.

(** ** The engine on a heap of arrays

    The grid the caller holds is an array of references to row arrays.
    To state what the engine mutates, the arrays live in a heap: [Outer]
    is an array of row references, [Row] an array of cells. Cards are
    never written to and stay values. *)

Abbreviation loc := nat.

Inductive object := Outer (rowRefs : list loc) | Row (cells : list GridCell).

Abbreviation heap := (gmap loc object).

(** A computation on the heap; [None] is a thrown [TypeError]. *)
Definition Heap (A : Type) : Type := heap → option (A * heap).

Definition hret {A} (a : A) : Heap A := λ h, Some (a, h).

Definition hbind {A B} (m : Heap A) (f : A → Heap B) : Heap B :=
  λ h, match m h with Some (a, h') => f a h' | None => None end.

Definition throw {A} : Heap A := λ _, None.

Notation "'let*' x := m 'in' k" := (hbind m (λ x, k))
  (at level 10, x pattern, m at level 100, k at level 200).

(** Reading an array, writing an array, and a fresh array. *)
Definition derefOuter (l : loc) : Heap (list loc) :=
  λ h, match h !! l with Some (Outer rowRefs) => Some (rowRefs, h) | _ => None end.

Definition derefRow (l : loc) : Heap (list GridCell) :=
  λ h, match h !! l with Some (Row cells) => Some (cells, h) | _ => None end.

Definition store (l : loc) (o : object) : Heap unit :=
  λ h, Some (tt, <[l := o]> h).

Definition alloc (o : object) : Heap loc :=
  λ h, let l := fresh (dom h) in Some (l, <[l := o]> h).

(** [grid[r][c]]. *)
Definition getCell (grid : loc) (r c : nat) : Heap (option GridCell) :=
  let* rowRefs := derefOuter grid in
  match rowRefs !! r with
  | None => throw
  | Some row => let* cells := derefRow row in hret (cells !! c)
  end.

(** [grid[r][c] = v]. *)
Definition setCell (grid : loc) (r c : nat) (v : GridCell) : Heap unit :=
  let* rowRefs := derefOuter grid in
  match rowRefs !! r with
  | None => throw
  | Some row => let* cells := derefRow row in store row (Row (arraySet cells c v))
  end.

Definition canPlaceCardH (card : CardData) (targetRow targetCol : nat)
    (grid : loc) : Heap bool :=
  if decide (targetCol = 0) then hret (bool_decide (rank card = TWO))
  else
    let* leftNeighbor := getCell grid targetRow (targetCol - 1) in
    match leftNeighbor with
    | Some (Some leftNeighbor) =>
        if decide (rank leftNeighbor = KING) then hret false
        else if decide (suit card ≠ suit leftNeighbor) then hret false
        else
          let leftVal := getRankValue (rank leftNeighbor) in
          let currentVal := getRankValue (rank card) in
          hret (bool_decide (currentVal = leftVal + 1)%Z)
    | _ => hret false
    end.

(** The loops [for (const row of grid)] of the three scans; a row is
    read where the loop body reads it. *)
Fixpoint checkWinRowsH (rowRefs : list loc) : Heap bool :=
  match rowRefs with
  | [] => hret true
  | row :: rest =>
      let* cells := derefRow row in
      if negb (isRowComplete cells) then hret false else checkWinRowsH rest
  end.

Definition checkWinConditionH (grid : loc) : Heap bool :=
  let* rowRefs := derefOuter grid in checkWinRowsH rowRefs.

Fixpoint scoreRowsH (rowRefs : list loc) (score : Z) : Heap Z :=
  match rowRefs with
  | [] => hret score
  | row :: rest =>
      let* cells := derefRow row in scoreRowsH rest (scoreRow cells score)
  end.

Definition calculateScoreH (grid : loc) : Heap Z :=
  let* rowRefs := derefOuter grid in scoreRowsH rowRefs 0%Z.

Fixpoint lockedRowsH (rowRefs : list loc) (locked : gset string) : Heap (gset string) :=
  match rowRefs with
  | [] => hret locked
  | row :: rest =>
      let* cells := derefRow row in lockedRowsH rest (lockedRow cells locked)
  end.

Definition getLockedCardsH (grid : loc) : Heap (gset string) :=
  let* rowRefs := derefOuter grid in lockedRowsH rowRefs ∅.

(** [currentGrid.map(row => [...row])]: a fresh array per row. *)
Fixpoint copyRows (rowRefs : list loc) : Heap (list loc) :=
  match rowRefs with
  | [] => hret []
  | row :: rest =>
      let* cells := derefRow row in
      let* row' := alloc (Row cells) in
      let* rest' := copyRows rest in
      hret (row' :: rest')
  end.

(** Step 1 of [reshuffleBoard] on the heap: [newGrid] is the reference
    of the copy, the two lists are the locals. *)
Definition collectH (newGrid : loc) (r c : nat) (cell : option GridCell)
    (st : list CardData * list (nat * nat)) : Heap (list CardData * list (nat * nat)) :=
  let cardsToShuffle :=
    match cell with
    | Some (Some card) => st.1 ++ [card]
    | _ => st.1
    end in
  let positionsToFill := st.2 ++ [(r, c)] in
  let* _ := setCell newGrid r c None in
  hret (cardsToShuffle, positionsToFill).

Definition scanCellH (newGrid : loc) (r c : nat)
    (s : bool * (list CardData * list (nat * nat)))
  : Heap (bool * (list CardData * list (nat * nat))) :=
  let '(isSequence, st) := s in
  if isSequence then
    if decide (c = 0) then
      if negb isSequence then
        let* cell := getCell newGrid r c in
        let* st' := collectH newGrid r c cell st in
        hret (isSequence, st')
      else hret (isSequence, st)
    else
      let* prev := getCell newGrid r (c - 1) in
      let* curr := getCell newGrid r c in
      if continuesRun prev curr then hret (isSequence, st)
      else
        let* st' := collectH newGrid r c curr st in
        hret (false, st')
  else
    let* cell := getCell newGrid r c in
    let* st' := collectH newGrid r c cell st in
    hret (isSequence, st').

Fixpoint scanColsH (newGrid : loc) (r c n : nat)
    (s : bool * (list CardData * list (nat * nat)))
  : Heap (bool * (list CardData * list (nat * nat))) :=
  match n with
  | 0 => hret s
  | S n' => let* s' := scanCellH newGrid r c s in scanColsH newGrid r (S c) n' s'
  end.

Definition scanRowH (newGrid : loc) (r : nat) (st : list CardData * list (nat * nat))
  : Heap (list CardData * list (nat * nat)) :=
  let* first := getCell newGrid r 0 in
  let isSequence :=
    match first with
    | Some (Some card) => if decide (rank card ≠ TWO) then false else true
    | _ => false
    end in
  let* s := scanColsH newGrid r 0 cols (isSequence, st) in
  hret s.2.

Fixpoint scanRowsH (newGrid : loc) (r n : nat) (st : list CardData * list (nat * nat))
  : Heap (list CardData * list (nat * nat)) :=
  match n with
  | 0 => hret st
  | S n' => let* st' := scanRowH newGrid r st in scanRowsH newGrid (S r) n' st'
  end.

Fixpoint assignBackH (positions : list (nat * nat)) (fillItems : list GridCell)
    (idx : nat) (newGrid : loc) : Heap unit :=
  match positions with
  | [] => hret tt
  | pos :: rest =>
      let* _ := setCell newGrid pos.1 pos.2 (default None (fillItems !! idx)) in
      assignBackH rest fillItems (S idx) newGrid
  end.

Definition reshuffleBoardH (random : nat → Q) (currentGrid : loc) (k : nat)
  : Heap (loc * nat) :=
  let* rowRefs := derefOuter currentGrid in
  let* newRows := copyRows rowRefs in
  let* newGrid := alloc (Outer newRows) in
  let* st := scanRowsH newGrid 0 rows ([], []) in
  let '(cardsToShuffle, k) := fisherYates random st.1 (length st.1 - 1) k in
  let fillItems : list GridCell :=
    (Some <$> cardsToShuffle)
      ++ replicate (length st.2 - length cardsToShuffle) None in
  let '(fillItems, k) := fisherYates random fillItems (length fillItems - 1) k in
  let* _ := assignBackH st.2 fillItems 0 newGrid in
  hret (newGrid, k).

(** The heap [h] holds the grid [G] at [grid], its rows at [rowRefs]. *)
Definition holds (h : heap) (grid : loc) (rowRefs : list loc) (G : Grid) : Prop :=
  h !! grid = Some (Outer rowRefs)
  ∧ Forall2 (λ l cells, h !! l = Some (Row cells)) rowRefs G.

(** A grid laid out in an empty heap. *)
Definition layout (G : Grid) : heap * loc * list loc :=
  let rowRefs := seq 1 (length G) in
  (<[0 := Outer rowRefs]> (list_to_map (zip rowRefs (Row <$> G))), 0, rowRefs).

(** The heap [h] extends [h0] with a grid [G] at [grid] whose outer array
    and rows [rowRefs] are distinct arrays that [h0] does not have. *)
Definition freshGrid (h0 h : heap) (grid : loc) (rowRefs : list loc) (G : Grid) : Prop :=
  h0 ⊆ h ∧ holds h grid rowRefs G ∧ NoDup rowRefs ∧ (grid ∉ rowRefs)
  ∧ h0 !! grid = None ∧ Forall (λ l, h0 !! l = None) rowRefs.

(** The locals of the scan. *)
Definition locals (st : ScanState) : list CardData * list (nat * nat) :=
  (cardsToShuffle st, positionsToFill st).

(** The first two characters of a string: the code of a card in its id. *)
Definition idCode (s : string) : string := String.substring 0 2 s.

(** The rows of [out] agree with the rows of [grid] on their locked
    prefixes. *)
Definition keepsLocked (grid out : Grid) : Prop :=
  Forall2 (λ row row', take (breakPoint row) row' = take (breakPoint row) row)
          grid out.

(** ** The board logic of [App.tsx]

    The component keeps the grid in its state; the functions below are
    the computations it runs on that grid, with the grid as an argument.
    Sounds, timers and state setters are left out. *)

(** The strings ['active'], ['dead'] and ['inactive']. *)
Inductive HoleStatus := active | dead | inactive.

#[global] Instance HoleStatus_eq_dec : EqDecision HoleStatus.
Proof. solve_decision. Defined.

(** The loop [while (i >= 0)] of [getHoleStatus], entered with
    [i = n - 1]: the first cell to the left that is not [null]. The result
    is only tested for truthiness, [None] stands for [null] and for an
    [undefined] cell alike. *)
Fixpoint leftNonHoleCard (row : list GridCell) (n : nat) : option CardData :=
  match n with
  | 0 => None
  | S i =>
      match row !! i with
      | Some None => leftNonHoleCard row i
      | Some (Some card) => Some card
      | None => None
      end
  end.

Definition getHoleStatus (grid : Grid) (rowIdx colIdx : nat) : option HoleStatus :=
  if decide (colIdx = 0) then Some active
  else
    row ← grid !! rowIdx;
    match leftNonHoleCard row colIdx with
    | Some card =>
        if decide (rank card = KING) then Some dead
        else
          match row !! (colIdx - 1) with
          | Some None => Some inactive
          | _ => Some active
          end
    | None =>
        match row !! (colIdx - 1) with
        | Some None => Some inactive
        | _ => Some active
        end
    end.

(** The loop over [c] of [areAllHolesDead], from column [c] on, for [n]
    more columns. *)
Fixpoint activeHolesCols (grid : Grid) (r c n : nat) (activeHoles : nat) : option nat :=
  match n with
  | 0 => Some activeHoles
  | S n' =>
      cell ← readCell grid r c;
      match cell with
      | Some None =>
          status ← getHoleStatus grid r c;
          if decide (status = active)
          then activeHolesCols grid r (S c) n' (activeHoles + 1)
          else activeHolesCols grid r (S c) n' activeHoles
      | _ => activeHolesCols grid r (S c) n' activeHoles
      end
  end.

(** The loop over [r] of [areAllHolesDead]. *)
Fixpoint activeHolesRows (grid : Grid) (r n : nat) (activeHoles : nat) : option nat :=
  match n with
  | 0 => Some activeHoles
  | S n' =>
      activeHoles' ← activeHolesCols grid r 0 13 activeHoles;
      activeHolesRows grid (S r) n' activeHoles'
  end.

Definition areAllHolesDead (grid : Grid) : option bool :=
  if decide (length grid = 0) then Some false
  else
    activeHoles ← activeHolesRows grid 0 4 0;
    Some (bool_decide (activeHoles = 0)).

(** The loop over [c] of [isCardPlayable]. *)
Fixpoint playableCols (card : CardData) (grid : Grid) (r c n : nat) : option bool :=
  match n with
  | 0 => Some false
  | S n' =>
      cell ← readCell grid r c;
      match cell with
      | Some None =>
          ok ← canPlaceCard card r c grid;
          if ok : bool then Some true else playableCols card grid r (S c) n'
      | _ => playableCols card grid r (S c) n'
      end
  end.

(** The loop over [r] of [isCardPlayable]. *)
Fixpoint playableRows (card : CardData) (grid : Grid) (r n : nat) : option bool :=
  match n with
  | 0 => Some false
  | S n' =>
      row ← grid !! r;
      found ← playableCols card grid r 0 (length row);
      if found : bool then Some true else playableRows card grid (S r) n'
  end.

Definition isCardPlayable (card : CardData) (grid : Grid) : option bool :=
  playableRows card grid 0 (length grid).

(** What [executeMove] computes from the grid, the move timer and the
    move: the grid after the move, the speed bonus, whether the moved
    card is locked, the card points gained and whether the game is won. *)
Record MoveOutcome := mkOutcome {
  movedGrid : Grid;
  speedBonus : Z;
  isCardLocked : bool;
  cardPointsGained : Z;
  won : bool
}.

Definition executeMove (grid : Grid) (moveTimer : Z) (card : CardData)
    (sourceRow sourceCol targetRow targetCol : nat) : option MoveOutcome :=
  let speedBonus :=
    if (moveTimer <=? 0)%Z then 0%Z
    else if (moveTimer <=? 12)%Z then 5%Z
    else if (moveTimer <=? 25)%Z then 10%Z
    else if (moveTimer <=? 37)%Z then 15%Z
    else 20%Z in
  let scoreBefore := (calculateScore grid * 100)%Z in
  let newGrid := (λ row, row) <$> grid in
  newGrid ← writeCell newGrid targetRow targetCol (Some card);
  newGrid ← writeCell newGrid sourceRow sourceCol None;
  let newLockedCards := getLockedCards newGrid in
  let isCardLocked := bool_decide (id card ∈ newLockedCards) in
  let scoreAfter := (calculateScore newGrid * 100)%Z in
  let cardPointsGained := (scoreAfter - scoreBefore)%Z in
  Some (mkOutcome newGrid speedBonus isCardLocked cardPointsGained
                  (checkWinCondition newGrid)).

(** What the scan keeps true: the grid keeps its rows and every collected
    position lies in one of them. *)
Definition scanInv (n : nat) (st : ScanState) : Prop :=
  length (newGrid st) = n ∧ Forall (λ pos, pos.1 < n) (positionsToFill st).

(** ** The click, drop and hint handlers of [App.tsx]

    A handler answers [None] where it throws a [TypeError], [Some None]
    where it returns without moving a card, and [Some (Some out)] where it
    calls [executeMove], with [out] what [executeMove] computes. [busy]
    stands for [isDealing || endGamePhase !== 'idle'], and [lockedCards]
    is the memo [getLockedCards(grid)]. *)

(** A loop [for (c = ...; c < ...; c++)] over the cells of row [r] whose
    body either goes on ([Some None]) or finds something and leaves the
    loop with [break] ([Some (Some a)]), from column [c] on, for [n] more
    columns. *)
Fixpoint searchCols {A} (visit : nat → nat → option (option A)) (r c n : nat)
  : option (option A) :=
  match n with
  | 0 => Some None
  | S n' =>
      found ← visit r c;
      match found with
      | Some a => Some (Some a)
      | None => searchCols visit r (S c) n'
      end
  end.

(** The loop over the rows around it, which is left as soon as the inner
    loop has found something; [width r] is the bound of the inner loop in
    row [r]. *)
Fixpoint searchRows {A} (width : nat → option nat)
    (visit : nat → nat → option (option A)) (r n : nat) : option (option A) :=
  match n with
  | 0 => Some None
  | S n' =>
      w ← width r;
      found ← searchCols visit r 0 w;
      match found with
      | Some a => Some (Some a)
      | None => searchRows width visit (S r) n'
      end
  end.

(** [row.forEach((cell, c) => { if (cell && cell.id === card.id)
    { sourceRow = r; sourceCol = c; } })], from column [c] on; [None] is
    the initial [-1]. *)
Fixpoint sourceCols (card : CardData) (r c : nat) (row : list GridCell)
    (source : option (nat * nat)) : option (nat * nat) :=
  match row with
  | [] => source
  | cell :: rest =>
      sourceCols card r (S c) rest
        match cell with
        | Some cell' => if decide (id cell' = id card) then Some (r, c) else source
        | None => source
        end
  end.

(** [grid.forEach((row, r) => ...)], from row [r] on. *)
Fixpoint sourceRows (card : CardData) (r : nat) (grid : Grid)
    (source : option (nat * nat)) : option (nat * nat) :=
  match grid with
  | [] => source
  | row :: rest => sourceRows card (S r) rest (sourceCols card r 0 row source)
  end.

(** The body of the target search of [handleCardClick]. *)
Definition targetVisit (card : CardData) (grid : Grid) (r c : nat)
  : option (option (nat * nat)) :=
  cell ← readCell grid r c;
  match cell with
  | Some None =>
      ok ← canPlaceCard card r c grid;
      if ok : bool then Some (Some (r, c)) else Some None
  | _ => Some None
  end.

Definition handleCardClick (busy : bool) (grid : Grid) (moveTimer : Z)
    (card : CardData) : option (option MoveOutcome) :=
  if busy then Some None
  else if decide (id card ∈ getLockedCards grid) then Some None
  else
    match sourceRows card 0 grid None with
    | None => Some None
    | Some (sourceRow, sourceCol) =>
        target ← searchRows (λ r, length <$> grid !! r) (targetVisit card grid)
                            0 (length grid);
        match target with
        | Some (r, c) =>
            Some <$> executeMove grid moveTimer card sourceRow sourceCol r c
        | None => Some None
        end
    end.

(** [draggedItem] is [None] where it is [null]. *)
Definition handleDrop (busy : bool) (grid : Grid) (moveTimer : Z)
    (draggedItem : option (CardData * nat * nat)) (targetRow targetCol : nat)
  : option (option MoveOutcome) :=
  match draggedItem with
  | None => Some None
  | Some (card, sourceRow, sourceCol) =>
      if busy then Some None
      else if decide (id card ∈ getLockedCards grid) then Some None
      else
        cell ← readCell grid targetRow targetCol;
        if decide (cell ≠ Some None) then Some None
        else
          ok ← canPlaceCard card targetRow targetCol grid;
          if ok : bool
          then Some <$> executeMove grid moveTimer card sourceRow sourceCol
                                    targetRow targetCol
          else Some None
  end.

(** The body of the searches of [handleHoleClick]: the first card that
    passes [test], with its position. *)
Definition cardVisit (test : CardData → nat → bool) (grid : Grid) (r c : nat)
  : option (option (CardData * nat * nat)) :=
  cell ← readCell grid r c;
  match cell with
  | Some (Some card) => if test card c then Some (Some (card, r, c)) else Some None
  | _ => Some None
  end.

(** [cell.rank === Rank.TWO && searchC !== 0]. *)
Definition isMovableTwo (cell : CardData) (searchC : nat) : bool :=
  bool_decide (rank cell = TWO) && bool_decide (searchC ≠ 0).

(** [cell.suit === neededSuit && getRankValue(cell.rank) === neededRankVal]. *)
Definition isNeeded (neededSuit : Suit) (neededRankVal : Z) (cell : CardData)
    (searchC : nat) : bool :=
  bool_decide (suit cell = neededSuit)
  && bool_decide (getRankValue (rank cell) = neededRankVal).

(** The card [handleHoleClick] moves into the hole at [(r, c)], with its
    position. *)
Definition holeCandidate (grid : Grid) (r c : nat)
  : option (option (CardData * nat * nat)) :=
  if decide (c = 0)
  then searchRows (λ _, Some 13) (cardVisit isMovableTwo grid) 0 4
  else
    leftNeighbor ← readCell grid r (c - 1);
    match leftNeighbor with
    | Some (Some leftNeighbor) =>
        if decide (rank leftNeighbor ≠ KING)
        then
          let neededRankVal := (getRankValue (rank leftNeighbor) + 1)%Z in
          let neededSuit := suit leftNeighbor in
          searchRows (λ _, Some 13)
                     (cardVisit (isNeeded neededSuit neededRankVal) grid) 0 4
        else Some None
    | _ => Some None
    end.

Definition handleHoleClick (busy : bool) (grid : Grid) (moveTimer : Z)
    (r c : nat) : option (option MoveOutcome) :=
  if busy then Some None
  else
    cell ← readCell grid r c;
    if decide (cell ≠ Some None) then Some None
    else
      candidate ← holeCandidate grid r c;
      match candidate with
      | Some (card, searchR, searchC) =>
          Some <$> executeMove grid moveTimer card searchR searchC r c
      | None => Some None
      end.

(** The ids [grid.forEach(row => row.forEach((cell, cellC) => ...))] adds
    to the hints: those of the cards that pass [test]. *)
Definition idsOf (test : CardData → nat → bool) (grid : Grid) : gset string :=
  list_to_set
    (row ← grid;
     omap (λ '(cellC, cell),
             match cell with
             | Some card => if test card cellC then Some (id card) else None
             | None => None
             end)
          (imap pair row)).

(** The loop over [c] of [startHint], from column [c] on, for [n] more
    columns. *)
Fixpoint hintCols (grid : Grid) (r c n : nat) (playableCardIds : gset string)
  : option (gset string) :=
  match n with
  | 0 => Some playableCardIds
  | S n' =>
      cell ← readCell grid r c;
      match cell with
      | Some None =>
          if decide (c = 0)
          then hintCols grid r (S c) n' (playableCardIds ∪ idsOf isMovableTwo grid)
          else
            left_ ← readCell grid r (c - 1);
            match left_ with
            | Some (Some left_) =>
                if decide (rank left_ ≠ KING)
                then
                  let neededVal := (getRankValue (rank left_) + 1)%Z in
                  hintCols grid r (S c) n'
                    (playableCardIds ∪ idsOf (isNeeded (suit left_) neededVal) grid)
                else hintCols grid r (S c) n' playableCardIds
            | _ => hintCols grid r (S c) n' playableCardIds
            end
      | _ => hintCols grid r (S c) n' playableCardIds
      end
  end.

(** The loop over [r] of [startHint]. *)
Fixpoint hintRows (grid : Grid) (r n : nat) (playableCardIds : gset string)
  : option (gset string) :=
  match n with
  | 0 => Some playableCardIds
  | S n' =>
      playableCardIds' ← hintCols grid r 0 13 playableCardIds;
      hintRows grid (S r) n' playableCardIds'
  end.

(** The set [playableCardIds] at the end of the loops of [startHint]. *)
Definition startHint (grid : Grid) : option (gset string) :=
  hintRows grid 0 4 ∅.

(** The id [x] belongs to a card of the grid that [canPlaceCard] accepts
    for the cell [(r, c)], a card in column 0 left aside when [c] is 0. *)
Definition hintedFor (grid : Grid) (r c : nat) (x : string) : Prop :=
  ∃ card sr sc, cellAt grid sr sc = Some (Some card) ∧ id card = x
    ∧ canPlaceCard card r c grid = Some true ∧ (c = 0 → sc ≠ 0).

(** [executeMove] on the heap: [grid] is the reference the component
    holds in its state, and keeps in the history for undo; the result is
    the reference of the new grid with the rest of what [executeMove]
    computes. *)
Definition executeMoveH (grid : loc) (moveTimer : Z) (card : CardData)
    (sourceRow sourceCol targetRow targetCol : nat)
  : Heap (loc * Z * bool * Z * bool) :=
  let speedBonus :=
    if (moveTimer <=? 0)%Z then 0%Z
    else if (moveTimer <=? 12)%Z then 5%Z
    else if (moveTimer <=? 25)%Z then 10%Z
    else if (moveTimer <=? 37)%Z then 15%Z
    else 20%Z in
  let* score := calculateScoreH grid in
  let scoreBefore := (score * 100)%Z in
  let* rowRefs := derefOuter grid in
  let* newRows := copyRows rowRefs in
  let* newGrid := alloc (Outer newRows) in
  let* _ := setCell newGrid targetRow targetCol (Some card) in
  let* _ := setCell newGrid sourceRow sourceCol None in
  let* newLockedCards := getLockedCardsH newGrid in
  let isCardLocked := bool_decide (id card ∈ newLockedCards) in
  let* score := calculateScoreH newGrid in
  let scoreAfter := (score * 100)%Z in
  let cardPointsGained := (scoreAfter - scoreBefore)%Z in
  let* won := checkWinConditionH newGrid in
  hret (newGrid, speedBonus, isCardLocked, cardPointsGained, won).

(** * Properties *)

(** ** Rank values *)

Lemma getRankValue_range (r : Rank) : (2 ≤ getRankValue r ≤ 14)%Z.
Proof. destruct r; vm_compute; split; discriminate. Qed.

Lemma getRankValue_inj (r1 r2 : Rank) : getRankValue r1 = getRankValue r2 → r1 = r2.
Proof. destruct r1, r2; vm_compute; congruence. Qed.

Lemma getRankValue_TWO (r : Rank) : getRankValue r = 2%Z ↔ r = TWO.
Proof. split; [apply (getRankValue_inj r TWO) | by intros ->]. Qed.

(** ** Move legality *)

(** C3. At column 0 [canPlaceCard] answers [card.rank == TWO] whatever the
    grid; at a column 1..12 of a row of a structurally valid grid it
    answers true exactly when the left neighbour is a card, not a King, of
    the suit of [card] and of rank value one less. *)
Theorem canPlaceCard_law (card : CardData) (row col : nat) (grid : Grid) :
  validGrid grid → row < 4 →
  (∀ anyGrid, canPlaceCard card row 0 anyGrid = Some (bool_decide (rank card = TWO)))
  ∧ (1 ≤ col ≤ 12 →
     ∃ b, canPlaceCard card row col grid = Some b ∧
       (b = true ↔
        ∃ left, cellAt grid row (col - 1) = Some (Some left) ∧
                rank left ≠ KING ∧ suit left = suit card ∧
                getRankValue (rank left) = (getRankValue (rank card) - 1)%Z)).
Proof.
  intros [Hlen Hrows] Hrow. split; [done|]. intros Hcol.
  destruct (lookup_lt_is_Some_2 grid row) as [cells Hcells]; [lia|].
  unfold canPlaceCard, cellAt. rewrite Hcells. simpl.
  destruct (decide (col = 0)) as [|_]; [lia|].
  destruct (cells !! (col - 1)) as [[left|]|] eqn:Hleft.
  - destruct (decide (rank left = KING)) as [HK|HK].
    { exists false. split; [done|]. split; [done|]. intros (l & [= <-] & ? & _). done. }
    destruct (decide (suit card ≠ suit left)) as [Hs|Hs].
    { exists false. split; [done|]. split; [done|].
      intros (l & [= <-] & _ & ? & _). congruence. }
    eexists. split; [done|]. rewrite bool_decide_eq_true. split.
    + intros Hv. exists left. repeat split; [done| |lia].
      by destruct (decide (suit left = suit card)); [|exfalso; apply Hs; congruence].
    + intros (l & [= <-] & _ & _ & Hv). lia.
  - exists false. split; [done|]. split; [done|]. by intros (l & [=] & _).
  - exists false. split; [done|]. split; [done|]. by intros (l & [=] & _).
Qed.

Lemma validGrid_dealtGrid : validGrid dealtGrid.
Proof. split; [reflexivity | repeat constructor]. Qed.

Lemma canPlaceCard_law_witness :
  ∃ b, canPlaceCard (sampleCard HEARTS FOUR) 0 2 dealtGrid = Some b ∧
    (b = true ↔
     ∃ left, cellAt dealtGrid 0 (2 - 1) = Some (Some left) ∧
             rank left ≠ KING ∧ suit left = suit (sampleCard HEARTS FOUR) ∧
             getRankValue (rank left)
             = (getRankValue (rank (sampleCard HEARTS FOUR)) - 1)%Z).
Proof.
  apply (canPlaceCard_law (sampleCard HEARTS FOUR) 0 2 dealtGrid);
    [split; [reflexivity | repeat constructor] | lia | lia].
Defined.

(** ** Win detection *)

Lemma rowCompleteFrom_spec (row : list GridCell) (s : Suit) (i n : nat) :
  rowCompleteFrom row s i n = true ↔
  ∀ j, i ≤ j < i + n →
    ∃ cell, row !! j = Some (Some cell) ∧ suit cell = s ∧
            getRankValue (rank cell) = (Z.of_nat j + 2)%Z.
Proof.
  revert i. induction n as [|n IH]; intros i; simpl.
  { split; [intros _ j ?; lia | done]. }
  split.
  - destruct (row !! i) as [[cell|]|] eqn:Hi; try done.
    destruct (decide (suit cell ≠ s)) as [|Hs]; [done|].
    destruct (decide (getRankValue (rank cell) ≠ (Z.of_nat i + 2)%Z)) as [|Hv]; [done|].
    intros Hrest j Hj. destruct (decide (j = i)) as [->|].
    + exists cell. repeat split; [done| |].
      * by destruct (decide (suit cell = s)).
      * by destruct (decide (getRankValue (rank cell) = (Z.of_nat i + 2)%Z)).
    + apply IH with (i := S i); [done | lia].
  - intros H. destruct (H i ltac:(lia)) as (cell & -> & Hs & Hv).
    destruct (decide (suit cell ≠ s)); [done|].
    destruct (decide (getRankValue (rank cell) ≠ (Z.of_nat i + 2)%Z)); [done|].
    apply IH. intros j Hj. apply H. lia.
Qed.

Lemma isRowComplete_spec (row : list GridCell) :
  isRowComplete row = true ↔ completeRow row.
Proof.
  unfold isRowComplete, completeRow. split.
  - destruct (row !! 12) as [[?|]|]; try done.
    destruct (row !! 0) as [[first|]|]; try done.
    destruct (decide (rank first ≠ TWO)) as [|Ht]; [done|].
    rewrite rowCompleteFrom_spec. intros H. split; [done|].
    exists first. repeat split; [by destruct (decide (rank first = TWO))|].
    intros i Hi. apply H. lia.
  - intros (-> & first & -> & Ht & H).
    destruct (decide (rank first ≠ TWO)); [done|].
    apply rowCompleteFrom_spec. intros j Hj. apply H. lia.
Qed.

Lemma checkWinCondition_complete (grid : Grid) :
  checkWinCondition grid = true ↔ Forall completeRow grid.
Proof.
  induction grid as [|row rest IH]; simpl; [by split|].
  rewrite Forall_cons, <- IH, <- isRowComplete_spec.
  destruct (isRowComplete row); simpl; [tauto|].
  split; [done | by intros [? _]].
Qed.

(** C5. [checkWinCondition] is true exactly when every row of the grid
    (the four rows of a board) has a hole at column 12, a TWO at column 0
    and, at each column i in 0..11, a card of the suit of column 0 with
    rank value i+2. In particular a row with a hole before column 12, or
    with a card at column 12, makes it false. *)
Theorem checkWinCondition_iff (grid : Grid) :
  (checkWinCondition grid = true ↔ ∀ r row, grid !! r = Some row → completeRow row)
  ∧ (∀ r row, grid !! r = Some row →
       (∃ i, i < 12 ∧ row !! i = Some None) ∨ (∃ card, row !! 12 = Some (Some card)) →
       checkWinCondition grid = false).
Proof.
  pose proof (checkWinCondition_complete grid) as Hiff.
  split.
  - rewrite Hiff, Forall_lookup. done.
  - intros r row Hr Hbad. apply not_true_is_false. rewrite Hiff, Forall_lookup.
    intros Hall. destruct (Hall r row Hr) as (H12 & first & _ & _ & Hcells).
    destruct Hbad as [(i & Hi & Hgap) | (card & Hcard)]; [|congruence].
    destruct (Hcells i Hi) as (cell & ? & _). congruence.
Qed.

(** ** Locked prefixes, score and locked set *)

Lemma runFrom_prefix (s : Suit) (v : Z) (cells : list GridCell) :
  cells = (Some <$> runFrom s v cells) ++ drop (length (runFrom s v cells)) cells.
Proof.
  revert v. induction cells as [|[cell|] rest IH]; intros v; simpl; try done.
  case_decide; simpl; [|done]. f_equal. apply IH.
Qed.

Lemma lockedPrefix_prefix (row : list GridCell) :
  row = (Some <$> lockedPrefix row) ++ drop (breakPoint row) row.
Proof.
  unfold breakPoint, lockedPrefix. destruct row as [|[first|] rest]; try done.
  case_decide; simpl; [|done]. f_equal. apply runFrom_prefix.
Qed.

Lemma breakPoint_le (row : list GridCell) : breakPoint row ≤ length row.
Proof.
  pose proof (f_equal length (lockedPrefix_prefix row)) as H.
  rewrite length_app, length_fmap in H. unfold breakPoint in *. lia.
Qed.

Lemma lockedPrefix_take (row : list GridCell) :
  take (breakPoint row) row = Some <$> lockedPrefix row.
Proof.
  rewrite (lockedPrefix_prefix row) at 2.
  rewrite take_app_length'; [done|]. by rewrite length_fmap.
Qed.

Lemma sumValues_app (l1 l2 : list CardData) :
  sumValues (l1 ++ l2) = (sumValues l1 + sumValues l2)%Z.
Proof. induction l1 as [|c l1 IH]; simpl; [done|]. rewrite IH. lia. Qed.

Lemma scoreRun_spec (s : Suit) (v : Z) (cells : list GridCell) (score : Z) :
  scoreRun s v cells score = (score + sumValues (runFrom s v cells))%Z.
Proof.
  revert v score. induction cells as [|[cell|] rest IH]; intros v score; simpl;
    try lia.
  destruct (decide (suit cell ≠ s)) as [Hs|Hs].
  { rewrite decide_False by tauto. simpl. lia. }
  destruct (decide (getRankValue (rank cell) = (v + 1)%Z)) as [Hv|Hv].
  - rewrite decide_True by (split; [by destruct (decide (suit cell = s)) | done]).
    simpl. rewrite IH. lia.
  - rewrite decide_False by tauto. simpl. lia.
Qed.

Lemma scoreRow_spec (row : list GridCell) (score : Z) :
  scoreRow row score = (score + sumValues (lockedPrefix row))%Z.
Proof.
  unfold scoreRow, lockedPrefix. destruct row as [|[first|] rest]; simpl; try lia.
  destruct (decide (rank first ≠ TWO)) as [Ht|Ht].
  { rewrite decide_False by done. simpl. lia. }
  destruct (decide (rank first = TWO)) as [Ht'|]; [|done].
  rewrite drop_0, scoreRun_spec. simpl. rewrite Ht'. change (getRankValue TWO) with 2%Z. lia.
Qed.

Lemma calculateScore_spec (grid : Grid) :
  calculateScore grid = sumValues (grid ≫= lockedPrefix).
Proof.
  unfold calculateScore.
  enough (∀ acc, foldl (λ score row, scoreRow row score) acc grid
                 = (acc + sumValues (grid ≫= lockedPrefix))%Z) as -> by lia.
  induction grid as [|row rest IH]; intros acc; [simpl; lia|].
  rewrite bind_cons. cbn [foldl]. rewrite IH, scoreRow_spec, sumValues_app. lia.
Qed.

Lemma lockedRun_spec (s : Suit) (v : Z) (cells : list GridCell) (locked : gset string) :
  lockedRun s v cells locked = locked ∪ list_to_set (id <$> runFrom s v cells).
Proof.
  revert v locked. induction cells as [|[cell|] rest IH]; intros v locked; simpl;
    try set_solver.
  destruct (decide (suit cell ≠ s)) as [Hs|Hs].
  { rewrite decide_False by tauto. set_solver. }
  destruct (decide (getRankValue (rank cell) = (v + 1)%Z)) as [Hv|Hv].
  - rewrite decide_True by (split; [by destruct (decide (suit cell = s)) | done]).
    simpl. rewrite IH. set_solver.
  - rewrite decide_False by tauto. set_solver.
Qed.

Lemma lockedRow_spec (row : list GridCell) (locked : gset string) :
  lockedRow row locked = locked ∪ list_to_set (id <$> lockedPrefix row).
Proof.
  unfold lockedRow, lockedPrefix. destruct row as [|[first|] rest]; simpl;
    try set_solver.
  destruct (decide (rank first ≠ TWO)) as [Ht|Ht].
  { rewrite decide_False by done. set_solver. }
  destruct (decide (rank first = TWO)) as [Ht'|]; [|done].
  rewrite drop_0, lockedRun_spec. set_solver.
Qed.

Lemma getLockedCards_spec (grid : Grid) :
  getLockedCards grid = list_to_set (id <$> (grid ≫= lockedPrefix)).
Proof.
  unfold getLockedCards.
  enough (∀ acc, foldl (λ locked row, lockedRow row locked) acc grid
                 = acc ∪ list_to_set (id <$> (grid ≫= lockedPrefix))) as ->
    by set_solver.
  induction grid as [|row rest IH]; intros acc; [simpl; set_solver|].
  rewrite bind_cons. cbn [foldl].
  rewrite IH, lockedRow_spec, fmap_app, list_to_set_app_L. set_solver.
Qed.

Lemma cards_cons (row : list GridCell) (rest : Grid) :
  cards (row :: rest) = omap (λ cell : GridCell, cell) row ++ cards rest.
Proof. unfold cards. simpl. by rewrite omap_app. Qed.

Lemma cards_app (g1 g2 : Grid) : cards (g1 ++ g2) = cards g1 ++ cards g2.
Proof. unfold cards. by rewrite concat_app, omap_app. Qed.

Lemma omap_Some (cs : list CardData) :
  omap (λ cell : GridCell, cell) (Some <$> cs) = cs.
Proof. induction cs as [|c cs IH]; simpl; [done|]. by f_equal. Qed.

(** The locked cards of a grid are among its cards, in the same order. *)
Lemma lockedPrefix_sublist (grid : Grid) :
  sublist (grid ≫= lockedPrefix) (cards grid).
Proof.
  induction grid as [|row rest IH]; [constructor|].
  rewrite bind_cons, cards_cons. apply sublist_app; [|done].
  rewrite (lockedPrefix_prefix row) at 2. rewrite omap_app, omap_Some.
  apply sublist_inserts_r. done.
Qed.

(** In a list without duplicate keys, selecting the keys of a sublist
    gives back the sublist. *)
Lemma filter_ext_elem {A} (P Q : A → Prop) `{!∀ x, Decision (P x)}
    `{!∀ x, Decision (Q x)} (l : list A) :
  (∀ x, x ∈ l → P x ↔ Q x) → filter P l = filter Q l.
Proof.
  induction l as [|x l IH]; intros Hext; [done|].
  rewrite !filter_cons. rewrite IH by (intros y Hy; apply Hext; by right).
  pose proof (Hext x (list_elem_of_here _ _)) as Hx.
  destruct (decide (P x)), (decide (Q x)); tauto || done.
Qed.

Lemma filter_keys_sublist {A} (key : A → string) (l all : list A) :
  sublist l all → NoDup (key <$> all) →
  filter (λ x, key x ∈ (list_to_set (key <$> l) : gset string)) all = l.
Proof.
  induction 1 as [|x l all Hsub IH|x l all Hsub IH]; intros Hnd; [done| |];
    rewrite fmap_cons in Hnd; apply NoDup_cons in Hnd as [Hx Hnd].
  - rewrite filter_cons_True by set_solver. f_equal.
    etrans; [|by apply IH]. apply filter_ext_elem. intros y Hy.
    rewrite fmap_cons, list_to_set_cons, elem_of_union, elem_of_singleton.
    split; [|tauto]. intros [Heq|]; [|done]. exfalso. apply Hx.
    rewrite <- Heq. by apply list_elem_of_fmap_2.
  - rewrite filter_cons_False; [by apply IH|].
    rewrite elem_of_list_to_set. intros Hin. apply Hx.
    apply list_elem_of_fmap in Hin as (y & -> & Hy).
    apply list_elem_of_fmap_2. by eapply elem_of_sublist.
Qed.

(** With pairwise distinct ids, the cards whose id [getLockedCards]
    returns are the cards of the locked prefixes. *)
Lemma locked_cards_by_id (grid : Grid) :
  distinctIds grid →
  filter (λ c, id c ∈ getLockedCards grid) (cards grid) = grid ≫= lockedPrefix.
Proof.
  intros Hnd. rewrite getLockedCards_spec.
  apply filter_keys_sublist; [apply lockedPrefix_sublist | done].
Qed.

(** C4. On a grid whose cards carry pairwise distinct ids, the score is
    the sum of the rank values of the cards whose id is in the locked
    set: the two scans cut every row at the same point. *)
Theorem calculateScore_locked_sum (grid : Grid) :
  distinctIds grid →
  calculateScore grid
  = sumValues (filter (λ c, id c ∈ getLockedCards grid) (cards grid))
  ∧ (∀ c, c ∈ cards grid → id c ∈ getLockedCards grid →
          (2 ≤ getRankValue (rank c) ≤ 14)%Z).
Proof.
  intros Hnd. split.
  - by rewrite locked_cards_by_id, calculateScore_spec.
  - intros c _ _. apply getRankValue_range.
Qed.

Lemma distinctIds_dealtGrid : distinctIds dealtGrid.
Proof. unfold distinctIds. apply (bool_decide_unpack _). by vm_compute. Qed.

Lemma calculateScore_locked_sum_witness :
  calculateScore dealtGrid
  = sumValues (filter (λ c, id c ∈ getLockedCards dealtGrid) (cards dealtGrid))
  ∧ (∀ c, c ∈ cards dealtGrid → id c ∈ getLockedCards dealtGrid →
          (2 ≤ getRankValue (rank c) ≤ 14)%Z).
Proof.
  apply (calculateScore_locked_sum dealtGrid).
  unfold distinctIds. apply (bool_decide_unpack _). by vm_compute.
Defined.

(** A run of [n] cards followed by a hole is found whole by the scan. *)
Lemma runFrom_run (n : nat) (s : Suit) (v : Z) (cells : list GridCell) :
  (∀ i, i < n →
     ∃ cell, cells !! i = Some (Some cell) ∧ suit cell = s ∧
             getRankValue (rank cell) = (v + 1 + Z.of_nat i)%Z) →
  cells !! n = Some None →
  Some <$> runFrom s v cells = take n cells
  ∧ (2 * sumValues (runFrom s v cells) = Z.of_nat n * (2 * v + 1 + Z.of_nat n))%Z.
Proof.
  revert v cells. induction n as [|n IH]; intros v cells Hrun Hend.
  { destruct cells as [|[?|] ?]; simplify_eq/=. split; [done | lia]. }
  destruct (Hrun 0 ltac:(lia)) as (cell & H0 & Hs & Hv).
  destruct cells as [|? rest]; simplify_eq/=.
  rewrite decide_True by (split; [done | lia]). simpl.
  destruct (IH (getRankValue (rank cell)) rest) as [Htake Hsum]; [|done|].
  - intros i Hi. destruct (Hrun (S i) ltac:(lia)) as (c & ? & ? & ?).
    exists c. repeat split; [done..|lia].
  - split; [by f_equal | lia].
Qed.

Lemma lockedPrefix_complete (row : list GridCell) :
  completeRow row → length row = 13 →
  lockedPrefix row = omap (λ cell : GridCell, cell) row
  ∧ sumValues (lockedPrefix row) = 90%Z ∧ length (lockedPrefix row) = 12.
Proof.
  intros (H12 & first & H0 & Ht & Hcells) Hlen.
  destruct row as [|? rest]; simplify_eq/=.
  destruct (runFrom_run 11 (suit first) 2 rest) as [Htake Hsum]; [|done|].
  { intros i Hi. destruct (Hcells (S i) ltac:(lia)) as (c & ? & ? & ?).
    exists c. repeat split; [done..|lia]. }
  unfold lockedPrefix. rewrite decide_True by done.
  assert (Hrest : rest = (Some <$> runFrom (suit first) 2 rest) ++ [None]).
  { rewrite Htake. rewrite <- (take_drop 11 rest) at 1. f_equal.
    apply list_eq. intros [|i].
    - by rewrite lookup_drop, Nat.add_0_r.
    - rewrite lookup_drop. simpl. apply lookup_ge_None_2. lia. }
  split; [|split].
  - simpl. f_equal. rewrite Hrest at 2. by rewrite omap_app, omap_Some, app_nil_r.
  - simpl. rewrite Ht. change (getRankValue TWO) with 2%Z. lia.
  - simpl. f_equal. apply (f_equal length) in Htake.
    rewrite length_fmap, length_take in Htake. lia.
Qed.

(** C8 (as amended). When a row of the grid is a finished run 2..K
    followed by a hole, the score is 90 plus the score of the other rows,
    and the locked set is the 12 ids of that row together with the ids
    locked in the other rows; it is exactly those 12 ids when the other
    rows lock nothing. *)
Theorem complete_row_scenario (pre post : Grid) (row : list GridCell) :
  completeRow row → length row = 13 →
  calculateScore (pre ++ row :: post) = (90 + calculateScore (pre ++ post))%Z
  ∧ getLockedCards (pre ++ row :: post)
    = list_to_set (id <$> omap (λ cell : GridCell, cell) row)
        ∪ getLockedCards (pre ++ post)
  ∧ length (omap (λ cell : GridCell, cell) row) = 12
  ∧ (getLockedCards (pre ++ post) = ∅ →
     getLockedCards (pre ++ row :: post)
     = list_to_set (id <$> omap (λ cell : GridCell, cell) row)).
Proof.
  intros Hrow Hlen. destruct (lockedPrefix_complete row Hrow Hlen) as (Hcards & Hsum & Hn).
  assert (Hlocked : getLockedCards (pre ++ row :: post)
    = list_to_set (id <$> omap (λ cell : GridCell, cell) row)
        ∪ getLockedCards (pre ++ post)).
  { rewrite !getLockedCards_spec, !bind_app, bind_cons, <- Hcards.
    rewrite !fmap_app, !list_to_set_app_L. set_solver. }
  repeat split.
  - rewrite !calculateScore_spec, !bind_app, bind_cons, !sumValues_app. lia.
  - done.
  - by rewrite <- Hcards.
  - intros Hnone. rewrite Hlocked, Hnone. set_solver.
Qed.

Lemma completeRow_fullRow (s : Suit) : completeRow (fullRow s).
Proof. apply isRowComplete_spec. by destruct s. Qed.

Lemma complete_row_scenario_witness :
  calculateScore heartsGrid = (90 + calculateScore (drop 1 heartsGrid))%Z
  ∧ getLockedCards heartsGrid
    = list_to_set (id <$> omap (λ cell : GridCell, cell) (fullRow HEARTS))
        ∪ getLockedCards (drop 1 heartsGrid).
Proof.
  destruct (complete_row_scenario [] (drop 1 heartsGrid) (fullRow HEARTS))
    as (Hscore & Hlocked & _).
  - apply isRowComplete_spec. reflexivity.
  - reflexivity.
  - split; [exact Hscore | exact Hlocked].
Defined.

(** C8 as stated fails: on [heartsGrid] the first row is the finished run
    of hearts and no other row is complete, yet the locked set holds more
    than the 12 ids of that row, the second row locking 2, 3, 4 of
    diamonds. *)
Lemma complete_row_scenario_counterexample :
  heartsGrid !! 0 = Some (fullRow HEARTS)
  ∧ validGrid heartsGrid ∧ distinctIds heartsGrid
  ∧ Forall (λ row, isRowComplete row = false) (drop 1 heartsGrid)
  ∧ calculateScore heartsGrid = (90 + 9)%Z
  ∧ getLockedCards heartsGrid
    ≠ list_to_set (id <$> omap (λ cell : GridCell, cell) (fullRow HEARTS))
  ∧ size (getLockedCards heartsGrid) = 15.
Proof.
  split; [reflexivity|]. split; [split; [reflexivity | repeat constructor]|].
  split; [unfold distinctIds; apply (bool_decide_unpack _); by vm_compute|].
  split; [repeat constructor|]. split; [reflexivity|].
  split; [apply (bool_decide_unpack _); by vm_compute | by vm_compute].
Qed.

(** ** The random source, the shuffle and the deal *)

Lemma randomIndex_lt (u : Q) (n : nat) :
  (0 <= u)%Q → (u < 1)%Q → 0 < n → randomIndex u n < n.
Proof.
  intros H0 H1 Hn. unfold randomIndex.
  set (m := inject_Z (Z.of_nat n)).
  assert (Hm : (0 < m)%Q)
    by (unfold m; change 0%Q with (inject_Z 0); rewrite <- Zlt_Qlt; lia).
  assert (Hlo : (0 <= Qfloor (u * m))%Z).
  { change 0%Z with (Qfloor 0). apply Qfloor_resp_le.
    apply Qmult_le_0_compat; [done | by apply Qlt_le_weak]. }
  assert (Hhi : (Qfloor (u * m) < Z.of_nat n)%Z).
  { rewrite Zlt_Qlt. eapply Qle_lt_trans; [apply Qfloor_le|].
    fold m. rewrite <- (Qmult_1_l m) at 2. by apply Qmult_lt_compat_r. }
  lia.
Qed.

Lemma swap_Permutation {A} (a : list A) (i j : nat) : swap a i j ≡ₚ a.
Proof.
  unfold swap. destruct (a !! i) eqn:Hi, (a !! j) eqn:Hj; try done.
  by apply Permutation_insert_swap.
Qed.

Lemma fisherYates_Permutation {A} (random : nat → Q) (a : list A) (i k : nat) :
  (fisherYates random a i k).1 ≡ₚ a.
Proof.
  revert a k. induction i as [|i IH]; intros a k; simpl; [done|].
  rewrite IH. apply swap_Permutation.
Qed.

(** The indices the shuffle swaps are those of the array. *)
Lemma fisherYates_in_range (random : nat → Q) (i k : nat) :
  unitDraws random → randomIndex (random k) (i + 1) ≤ i.
Proof.
  intros Hu. destruct (Hu k) as [H0 H1].
  pose proof (randomIndex_lt (random k) (i + 1) H0 H1). lia.
Qed.

Section Deal.
Variable random : nat → Q.
Variable toString36 : Q → string.

Lemma generateDeck_faces (k : nat) :
  face <$> (generateDeck random toString36 k).1 = (s ← SUITS; r ← RANKS; [(s, r)]).
Proof. reflexivity. Qed.

Lemma pop_snoc {A} (l : list A) (x : A) : pop (l ++ [x]) = Some (x, l).
Proof.
  unfold pop. rewrite last_snoc, length_app. simpl.
  replace (length l + 1 - 1) with (length l) by lia.
  by rewrite take_app_length.
Qed.

Lemma dealRow_spec (n : nat) (rdeck : list CardData) (row : list GridCell) :
  n ≤ length rdeck →
  dealRow (reverse rdeck) row n
  = Some (row ++ (dealtCell <$> take n rdeck), reverse (drop n rdeck)).
Proof.
  revert rdeck row. induction n as [|n IH]; intros rdeck row Hn; cbn [dealRow].
  { by rewrite take_0, drop_0, app_nil_r. }
  destruct rdeck as [|card rdeck]; simpl in Hn; [lia|].
  rewrite reverse_cons, pop_snoc. cbn [mbind option_bind].
  rewrite firstn_cons, skipn_cons, fmap_cons. unfold dealtCell at 1.
  destruct (decide (rank card = ACE)); rewrite IH by lia;
    by rewrite <- app_assoc.
Qed.

Lemma dealRows_spec (n : nat) (rdeck : list CardData) (rows : Grid) :
  n * 13 ≤ length rdeck →
  ∃ dealt, dealRows (reverse rdeck) rows n = Some (rows ++ dealt)
           ∧ length dealt = n ∧ Forall (λ row, length row = 13) dealt
           ∧ concat dealt = dealtCell <$> take (n * 13) rdeck.
Proof.
  revert rdeck rows. induction n as [|n IH]; intros rdeck rows Hn;
    cbn [dealRows].
  { exists []. by rewrite app_nil_r. }
  rewrite dealRow_spec by lia. cbn [mbind option_bind app].
  destruct (IH (drop 13 rdeck) (rows ++ [dealtCell <$> take 13 rdeck]))
    as (dealt & -> & Hlen & Hrows & Hcat).
  { rewrite length_drop. lia. }
  exists ((dealtCell <$> take 13 rdeck) :: dealt). repeat split.
  - by rewrite <- app_assoc.
  - simpl. lia.
  - constructor; [|done]. rewrite length_fmap, length_take. lia.
  - simpl. rewrite Hcat, <- fmap_app. f_equal.
    rewrite <- (take_drop 13 rdeck) at 3.
    rewrite take_app_ge; rewrite length_take; [|lia].
    f_equal. f_equal. lia.
Qed.
End Deal.

Lemma dealtCell_cards (deck : list CardData) :
  omap (λ cell : GridCell, cell) (dealtCell <$> deck)
  = filter (λ c, rank c ≠ ACE) deck.
Proof.
  induction deck as [|c deck IH]; [done|].
  rewrite fmap_cons, filter_cons. cbn [omap list_omap]. unfold dealtCell at 1.
  destruct (decide (rank c = ACE)), (decide (rank c ≠ ACE)); try done;
    cbn; by f_equal.
Qed.

(** C6. Whatever the random draws, [initializeBoard] returns a grid of 4
    rows of 13 cells with 4 holes and 48 cards; the faces of the cards
    are the 48 non-Ace (suit, rank) pairs, each once, and no card is an
    Ace. *)
Theorem initializeBoard_deck (random : nat → Q) (toString36 : Q → string) (k : nat) :
  unitDraws random →
  ∃ grid, (initializeBoard random toString36 k).1 = Some grid
    ∧ validGrid grid
    ∧ gapCount grid = 4
    ∧ length (cards grid) = 48
    ∧ face <$> cards grid ≡ₚ nonAceFaces
    ∧ NoDup (face <$> cards grid)
    ∧ (∀ c, c ∈ cards grid → rank c ≠ ACE).
Proof.
  intros _. unfold initializeBoard, shuffleDeck.
  destruct (generateDeck random toString36 k) as [deck k1] eqn:Hgen.
  destruct (fisherYates random deck (length deck - 1) k1) as [shuffled k2] eqn:Hsh.
  assert (Hdeck : deck = (generateDeck random toString36 k).1) by by rewrite Hgen.
  assert (Hperm : shuffled ≡ₚ deck).
  { replace shuffled with (fisherYates random deck (length deck - 1) k1).1
      by by rewrite Hsh. apply fisherYates_Permutation. }
  assert (Hlen : length shuffled = 52).
  { rewrite Hperm, Hdeck. reflexivity. }
  destruct (dealRows_spec 4 (reverse shuffled) []) as (grid & Hdeal & Hrows & Hcols & Hcat).
  { rewrite length_reverse. lia. }
  rewrite reverse_involutive in Hdeal. rewrite take_ge in Hcat
    by (rewrite length_reverse; lia).
  assert (Hcells : concat grid ≡ₚ dealtCell <$> deck).
  { by rewrite Hcat, reverse_Permutation, Hperm. }
  assert (Hcards : cards grid ≡ₚ filter (λ c, rank c ≠ ACE) deck).
  { unfold cards. by rewrite Hcells, dealtCell_cards. }
  assert (Hfaces : face <$> cards grid ≡ₚ nonAceFaces).
  { rewrite Hcards, Hdeck. reflexivity. }
  exists grid. cbn [fst]. split; [done|]. split; [done|]. repeat split.
  - unfold gapCount. rewrite Hcells, Hdeck. reflexivity.
  - rewrite Hcards, Hdeck. reflexivity.
  - done.
  - rewrite Hfaces. apply (bool_decide_unpack _). by vm_compute.
  - intros c Hc. rewrite Hcards in Hc. by apply list_elem_of_filter in Hc as [? _].
Qed.

Lemma initializeBoard_deck_witness :
  ∃ grid, (initializeBoard (λ k, Z.of_nat (k mod 7) # 7) (λ _, "k3x9q0z1a"%string) 0).1
          = Some grid
    ∧ validGrid grid
    ∧ gapCount grid = 4
    ∧ length (cards grid) = 48
    ∧ face <$> cards grid ≡ₚ nonAceFaces
    ∧ NoDup (face <$> cards grid)
    ∧ (∀ c, c ∈ cards grid → rank c ≠ ACE).
Proof.
  apply (initializeBoard_deck (λ k, Z.of_nat (k mod 7) # 7)).
  intros k. pose proof (Nat.mod_upper_bound k 7 ltac:(lia)) as Hk.
  unfold Qle, Qlt. simpl. lia.
Defined.

(** ** Step 1 of the reshuffle *)

Lemma take_insert_here {A} (l : list A) (c : nat) (x : A) :
  c < length l → take (S c) (<[c := x]> l) = take c l ++ [x].
Proof.
  intros Hc. rewrite (take_S_r _ _ x) by by apply list_lookup_insert_eq.
  by rewrite take_insert_ge.
Qed.

(** Once the sequence is broken, every remaining cell of the row is
    collected. *)
Lemma scanCols_free (n r c : nat) (st : ScanState) (row : list GridCell) :
  newGrid st !! r = Some row → c + n = length row →
  scanCols r c n (false, st)
  = Some (false,
          mkScan (<[r := take c row ++ replicate n None]> (newGrid st))
                 (cardsToShuffle st ++ omap (λ cell : GridCell, cell) (drop c row))
                 (positionsToFill st ++ ((λ c, (r, c)) <$> seq c n))).
Proof.
  revert c st row. induction n as [|n IH]; intros c st row Hrow Hlen.
  { cbn [scanCols]. rewrite drop_ge by lia. cbn. rewrite !app_nil_r.
    rewrite take_ge by lia. rewrite list_insert_id by done. by destruct st. }
  cbn [scanCols scanCell].
  destruct (lookup_lt_is_Some_2 row c) as [cell Hcell]; [lia|].
  unfold readCell, collect, writeCell. rewrite Hrow. cbn [mbind option_bind].
  rewrite Hcell. unfold arraySet. rewrite decide_True by lia.
  erewrite IH; cbn [newGrid cardsToShuffle positionsToFill].
  2:{ apply list_lookup_insert_eq. by eapply lookup_lt_Some. }
  2:{ rewrite length_insert. lia. }
  f_equal. f_equal. f_equal.
  - rewrite list_insert_insert_eq. f_equal.
    rewrite take_insert_here by lia. by rewrite <- app_assoc.
  - rewrite (drop_S row cell c) by done. rewrite drop_insert_lt by lia.
    destruct cell; cbn; by rewrite <- ?app_assoc.
  - by rewrite <- app_assoc.
Qed.

(** While the sequence holds, the scan follows the run that continues
    [prev], then collects the rest of the row. *)
Lemma scanCols_run (n r c : nat) (st : ScanState) (row : list GridCell)
    (prev : CardData) :
  newGrid st !! r = Some row → c + n = length row →
  0 < c → row !! (c - 1) = Some (Some prev) →
  let m := length (runFrom (suit prev) (getRankValue (rank prev)) (drop c row)) in
  ∃ b, scanCols r c n (true, st)
  = Some (b,
          mkScan (<[r := take (c + m) row ++ replicate (n - m) None]> (newGrid st))
                 (cardsToShuffle st
                    ++ omap (λ cell : GridCell, cell) (drop (c + m) row))
                 (positionsToFill st ++ ((λ c, (r, c)) <$> seq (c + m) (n - m)))).
Proof.
  revert c st prev. induction n as [|n IH]; intros c st prev Hrow Hlen Hc Hprev m.
  { exists true. subst m. rewrite (drop_ge row c) by lia. cbn.
    rewrite Nat.add_0_r, drop_ge by lia. cbn. rewrite !app_nil_r.
    rewrite take_ge by lia. rewrite list_insert_id by done. by destruct st. }
  destruct (lookup_lt_is_Some_2 row c) as [cell Hcell]; [lia|].
  assert (Hdrop : drop c row = cell :: drop (S c) row) by by apply drop_S.
  destruct (continuesRun (Some (Some prev)) (Some cell)) eqn:Hcont.
  - (* the run goes on *)
    destruct cell as [curr|]; [|done]. pose proof Hcont as Hcont'. cbn in Hcont.
    apply andb_prop in Hcont as [Hs%bool_decide_eq_true Hv%bool_decide_eq_true].
    destruct (IH (S c) st curr) as [b Hb]; [done|lia|lia| |].
    { by replace (S c - 1) with c by lia. }
    exists b. cbn [scanCols scanCell]. rewrite decide_False by lia.
    unfold readCell at 1 2. rewrite Hrow. cbn [mbind option_bind].
    rewrite Hprev, Hcell, Hcont'. cbn [mbind option_bind]. rewrite Hb. subst m. rewrite Hdrop.
    cbn [runFrom]. rewrite decide_True by done. cbn [length]. rewrite Hs.
    set (k := length _). replace (c + S k) with (S c + k) by lia.
    by replace (S n - S k) with (n - k) by lia.
  - (* the run breaks: the rest of the row is free *)
    assert (Hm : m = 0).
    { subst m. rewrite Hdrop. destruct cell as [curr|]; [|done]. cbn in *.
      rewrite decide_False; [done|]. intros [Hs Hv].
      by rewrite !bool_decide_eq_true_2 in Hcont. }
    exists false. rewrite Hm, Nat.add_0_r, Nat.sub_0_r.
    rewrite <- (scanCols_free (S n) r c st row) by done.
    cbn [scanCols scanCell]. rewrite decide_False by lia.
    unfold readCell. rewrite Hrow. cbn [mbind option_bind].
    rewrite Hprev, Hcell, Hcont. done.
Qed.

Lemma lockedPrefix_two (first : CardData) (rest : list GridCell) :
  rank first = TWO →
  lockedPrefix (Some first :: rest)
  = first :: runFrom (suit first) (getRankValue (rank first)) rest.
Proof. intros Ht. unfold lockedPrefix. rewrite decide_True by done. by rewrite Ht. Qed.

Lemma lockedPrefix_not_two (row : list GridCell) :
  (∀ first, row !! 0 = Some (Some first) → rank first ≠ TWO) →
  lockedPrefix row = [].
Proof.
  intros Hno. destruct row as [|[first|] rest]; try done.
  unfold lockedPrefix. rewrite decide_False; [done|]. by apply Hno.
Qed.

Lemma scanRow_spec (r : nat) (st : ScanState) (row : list GridCell) :
  newGrid st !! r = Some row → length row = cols →
  scanRow r st
  = Some (mkScan (<[r := scannedRow row]> (newGrid st))
                 (cardsToShuffle st ++ omap (λ cell : GridCell, cell) (freeCells row))
                 (positionsToFill st ++ freePositions r row)).
Proof.
  intros Hrow Hlen. unfold scanRow, readCell. rewrite Hrow. cbn [mbind option_bind].
  unfold scannedRow, freeCells, freePositions, breakPoint. unfold cols in *.
  destruct (row !! 0) as [[first|]|] eqn:H0.
  1: destruct (decide (rank first ≠ TWO)) as [Ht|Ht].
  2:{ (* a TWO at column 0: the scan follows the run *)
    assert (Ht' : rank first = TWO) by by destruct (decide (rank first = TWO)).
    destruct row as [|cell0 rest]; [done|]. cbn in H0. injection H0 as ->.
    rewrite lockedPrefix_two by done. cbn [length].
    destruct (scanCols_run 12 r 1 st (Some first :: rest) first) as [b Hb];
      [done | simpl in *; lia | lia | done |].
    cbn [drop] in Hb. rewrite drop_0 in Hb.
    change (scanCols r 0 13 (true, st))
      with (scanCell r 0 (true, st) ≫= scanCols r 1 12).
    cbn [scanCell]. rewrite decide_True by done. cbn [negb mbind option_bind].
    rewrite Hb. cbn [mbind option_bind snd length plus] in *.
    by replace (length rest) with 12 by lia. }
  all: rewrite (scanCols_free 13 r 0 st row) by (done || lia);
    cbn [mbind option_bind snd];
    rewrite lockedPrefix_not_two by (intros ? ?; by simplify_eq);
    cbn [length]; by rewrite Hlen, Nat.sub_0_r.
Qed.

Lemma scanRows_spec (todo done' : Grid) (st : ScanState) :
  newGrid st = done' ++ todo → Forall (λ row, length row = cols) todo →
  scanRows (length done') (length todo) st
  = Some (mkScan (done' ++ (scannedRow <$> todo))
                 (cardsToShuffle st ++ allFreeCards todo)
                 (positionsToFill st ++ allFreePositions (length done') todo)).
Proof.
  revert done' st. induction todo as [|row todo IH]; intros done' st Hg Hall.
  { cbn. rewrite !app_nil_r in *. rewrite <- Hg. by destruct st. }
  apply Forall_cons in Hall as [Hrow Hall]. cbn [length scanRows].
  rewrite (scanRow_spec _ _ row); [|by rewrite Hg, list_lookup_middle|done].
  cbn [mbind option_bind].
  replace (S (length done')) with (length (done' ++ [scannedRow row]))
    by (rewrite length_app; simpl; lia).
  rewrite IH; cbn [newGrid cardsToShuffle positionsToFill]; [|..|done].
  - unfold allFreeCards. rewrite bind_cons, fmap_cons. cbn [allFreePositions].
    rewrite length_app. cbn [length].
    replace (length done' + 1) with (S (length done')) by lia.
    by rewrite <- !app_assoc.
  - rewrite Hg, insert_app_r_alt, Nat.sub_diag by lia. by rewrite <- app_assoc.
Qed.

Lemma collectFree_spec (grid : Grid) :
  validGrid grid →
  collectFree grid
  = Some (mkScan (scannedRow <$> grid) (allFreeCards grid) (allFreePositions 0 grid)).
Proof.
  intros [Hlen Hrows]. unfold collectFree. rewrite list_fmap_id.
  change rows with 4. rewrite <- Hlen.
  exact (scanRows_spec grid [] (mkScan grid [] []) eq_refl Hrows).
Qed.

(** ** Step 4 of the reshuffle *)

Lemma assignBack_app (p1 p2 : list (nat * nat)) (items : list GridCell)
    (idx : nat) (g : Grid) :
  assignBack (p1 ++ p2) items idx g
  = assignBack p1 items idx g ≫= assignBack p2 items (idx + length p1).
Proof.
  revert idx g. induction p1 as [|pos p1 IH]; intros idx g.
  { cbn. by rewrite Nat.add_0_r. }
  cbn [app assignBack length]. destruct (writeCell _ _ _ _) as [g'|]; [|done].
  cbn [mbind option_bind]. rewrite IH. by replace (S idx + length p1) with (idx + S (length p1)) by lia.
Qed.

Lemma assignBack_row (n r c idx : nat) (items row : list GridCell) (g : Grid) :
  g !! r = Some row → c + n = length row → idx + n ≤ length items →
  assignBack ((λ c, (r, c)) <$> seq c n) items idx g
  = Some (<[r := take c row ++ take n (drop idx items)]> g).
Proof.
  revert c idx row g. induction n as [|n IH]; intros c idx row g Hrow Hlen Hidx.
  { cbn. rewrite app_nil_r, take_ge by lia. by rewrite list_insert_id. }
  destruct (lookup_lt_is_Some_2 items idx) as [v Hv]; [lia|].
  cbn [seq fmap list_fmap assignBack fst snd]. unfold writeCell.
  rewrite Hrow, Hv. cbn [mbind option_bind default]. unfold arraySet.
  rewrite decide_True by lia.
  erewrite IH.
  2:{ apply list_lookup_insert_eq. by eapply lookup_lt_Some. }
  2:{ rewrite length_insert. lia. }
  2:{ lia. }
  rewrite list_insert_insert_eq, take_insert_here by lia.
  rewrite (drop_S items v idx) by done. cbn [take]. by rewrite <- app_assoc.
Qed.

Lemma length_freePositions (r : nat) (row : list GridCell) :
  length (freePositions r row) = length row - breakPoint row.
Proof. unfold freePositions. by rewrite length_fmap, length_seq. Qed.

Lemma length_freeCells (row : list GridCell) :
  length (freeCells row) = length row - breakPoint row.
Proof. unfold freeCells. by rewrite length_drop. Qed.

Lemma length_allFreePositions (r : nat) (grid : Grid) :
  length (allFreePositions r grid) = length (grid ≫= freeCells).
Proof.
  revert r. induction grid as [|row rest IH]; intros r; [done|].
  rewrite bind_cons. cbn [allFreePositions].
  by rewrite !length_app, IH, length_freePositions, length_freeCells.
Qed.

Lemma scannedRow_take (row : list GridCell) :
  take (breakPoint row) (scannedRow row) = take (breakPoint row) row.
Proof.
  unfold scannedRow. pose proof (breakPoint_le row).
  rewrite take_app_length'; [done|]. rewrite length_take. lia.
Qed.

Lemma length_scannedRow (row : list GridCell) :
  length (scannedRow row) = length row.
Proof.
  unfold scannedRow. pose proof (breakPoint_le row).
  rewrite length_app, length_take, length_replicate. lia.
Qed.

Lemma assignBack_all (todo done' : Grid) (items : list GridCell) (idx : nat) :
  idx + length (allFreePositions (length done') todo) ≤ length items →
  assignBack (allFreePositions (length done') todo) items idx
             (done' ++ (scannedRow <$> todo))
  = Some (done' ++ refill todo (drop idx items)).
Proof.
  revert done' idx. induction todo as [|row todo IH]; intros done' idx Hidx; [done|].
  cbn [allFreePositions] in *. rewrite length_app, length_freePositions in Hidx.
  rewrite assignBack_app, fmap_cons. unfold freePositions.
  pose proof (breakPoint_le row) as Hbp.
  rewrite (assignBack_row _ _ _ _ _ (scannedRow row));
    [|by apply list_lookup_middle|rewrite length_scannedRow; lia|lia].
  cbn [mbind option_bind]. rewrite scannedRow_take.
  rewrite insert_app_r_alt, Nat.sub_diag by lia. cbn [insert list_insert].
  rewrite length_fmap, length_seq.
  set (row' := take (breakPoint row) row ++ _).
  replace (S (length done')) with (length (done' ++ [row'])) in *
    by (rewrite length_app; simpl; lia).
  replace (done' ++ row' :: (scannedRow <$> todo))
    with ((done' ++ [row']) ++ (scannedRow <$> todo)) by by rewrite <- app_assoc.
  rewrite IH by lia. rewrite <- app_assoc. cbn [refill app]. subst row'.
  by rewrite drop_drop.
Qed.

(** ** The reshuffled grid *)

Lemma length_cards_le (l : list GridCell) :
  length (omap (λ cell : GridCell, cell) l) ≤ length l.
Proof. induction l as [|[card|] l IH]; cbn in *; lia. Qed.

Lemma cells_split (l : list GridCell) :
  (Some <$> omap (λ cell : GridCell, cell) l)
    ++ replicate (length l - length (omap (λ cell : GridCell, cell) l)) None
  ≡ₚ l.
Proof.
  induction l as [|[card|] l IH]; [done| |].
  - cbn. by f_equiv.
  - pose proof (length_cards_le l) as Hle.
    change (omap (λ cell : GridCell, cell) (None :: l))
      with (omap (λ cell : GridCell, cell) l).
    replace (length (None :: l) - length (omap (λ cell : GridCell, cell) l))
      with (S (length l - length (omap (λ cell : GridCell, cell) l)))
      by (cbn [length]; lia).
    cbn [replicate]. rewrite <- Permutation_middle. by f_equiv.
Qed.

Lemma allFreeCards_cells (grid : Grid) :
  allFreeCards grid = omap (λ cell : GridCell, cell) (grid ≫= freeCells).
Proof.
  unfold allFreeCards. induction grid as [|row rest IH]; [done|].
  by rewrite !bind_cons, omap_app, IH.
Qed.

(** On a structurally valid grid [reshuffleBoard] returns; every row of
    the result keeps its locked prefix and takes its free cells from a
    permutation of the free cells of the whole grid. *)
Lemma reshuffleBoard_spec (random : nat → Q) (grid : Grid) (k : nat) :
  validGrid grid →
  ∃ items k', reshuffleBoard random grid k = Some (refill grid items, k')
    ∧ items ≡ₚ grid ≫= freeCells.
Proof.
  intros Hvalid. unfold reshuffleBoard. rewrite collectFree_spec by done.
  cbn [mbind option_bind newGrid cardsToShuffle positionsToFill].
  destruct (fisherYates random (allFreeCards grid) _ k) as [shuffled k1] eqn:H1.
  destruct (fisherYates random (_ ++ _) _ k1) as [items k2] eqn:H2.
  assert (Hsh : shuffled ≡ₚ allFreeCards grid).
  { replace shuffled with (fisherYates random (allFreeCards grid)
      (length (allFreeCards grid) - 1) k).1 by by rewrite H1.
    apply fisherYates_Permutation. }
  assert (Hitems : items ≡ₚ grid ≫= freeCells).
  { match type of H2 with fisherYates _ ?a ?i _ = _ =>
      replace items with (fisherYates random a i k1).1 by by rewrite H2 end.
    rewrite fisherYates_Permutation, length_allFreePositions.
    rewrite (Permutation_length Hsh), Hsh, allFreeCards_cells.
    apply cells_split. }
  pose proof (assignBack_all grid [] items 0) as Hassign.
  cbn [length app] in Hassign. rewrite Hassign.
  - exists items, k2. by rewrite drop_0.
  - by rewrite length_allFreePositions, Hitems.
Qed.

Lemma refill_concat (grid : Grid) (items : list GridCell) :
  concat (refill grid items)
  ≡ₚ (grid ≫= (λ row, take (breakPoint row) row))
       ++ take (length (grid ≫= freeCells)) items.
Proof.
  revert items. induction grid as [|row rest IH]; intros items; [done|].
  cbn [refill concat]. rewrite !bind_cons, IH, length_app, length_freeCells.
  rewrite <- take_take_drop, <- !app_assoc. f_equiv.
  rewrite !app_assoc. f_equiv. apply Permutation_app_comm.
Qed.

Lemma concat_split (grid : Grid) :
  concat grid
  ≡ₚ (grid ≫= (λ row, take (breakPoint row) row)) ++ (grid ≫= freeCells).
Proof.
  induction grid as [|row rest IH]; [done|].
  cbn [concat]. rewrite !bind_cons, IH. unfold freeCells at 2.
  rewrite <- (take_drop (breakPoint row) row) at 1.
  rewrite <- !app_assoc. f_equiv. rewrite !app_assoc. f_equiv.
  apply Permutation_app_comm.
Qed.

Lemma refill_Permutation (grid : Grid) (items : list GridCell) :
  items ≡ₚ grid ≫= freeCells → concat (refill grid items) ≡ₚ concat grid.
Proof.
  intros Hitems. rewrite refill_concat, concat_split.
  rewrite <- (Permutation_length Hitems), firstn_all. by f_equiv.
Qed.

Lemma refill_lookup (grid : Grid) (items : list GridCell) (r : nat)
    (row : list GridCell) :
  grid !! r = Some row →
  ∃ row', refill grid items !! r = Some row'
          ∧ take (breakPoint row) row' = take (breakPoint row) row.
Proof.
  revert items r. induction grid as [|row0 rest IH]; intros items r Hr; [done|].
  destruct r as [|r]; cbn in Hr.
  - injection Hr as ->. eexists. split; [done|].
    pose proof (breakPoint_le row). rewrite take_app_length'; [done|].
    rewrite length_take. lia.
  - by apply IH.
Qed.

Lemma refill_valid (grid : Grid) (items : list GridCell) :
  validGrid grid → length items = length (grid ≫= freeCells) →
  validGrid (refill grid items).
Proof.
  intros [Hlen Hrows] Hitems. split.
  - rewrite <- Hlen. clear. revert items.
    induction grid as [|row rest IH]; intros items; [done|]. cbn. by rewrite IH.
  - clear Hlen. revert items Hitems.
    induction Hrows as [|row rest Hrow Hrows IH]; intros items Hitems; [done|].
    rewrite bind_cons, length_app, length_freeCells in Hitems.
    pose proof (breakPoint_le row). cbn [refill]. constructor.
    + rewrite length_app, !length_take. lia.
    + apply IH. rewrite length_drop. lia.
Qed.

(** ** Locked and free cells *)

Lemma locked_cell (grid : Grid) (r c : nat) (row : list GridCell) :
  grid !! r = Some row → c < breakPoint row →
  ∃ card, row !! c = Some (Some card) ∧ id card ∈ getLockedCards grid.
Proof.
  intros Hr Hc. unfold breakPoint in Hc.
  destruct (lookup_lt_is_Some_2 (lockedPrefix row) c) as [card Hcard]; [done|].
  exists card. split.
  - rewrite <- (lookup_take_lt row (breakPoint row) c) by done.
    by rewrite lockedPrefix_take, list_lookup_fmap, Hcard.
  - rewrite getLockedCards_spec, elem_of_list_to_set.
    apply list_elem_of_fmap_2, list_elem_of_bind. exists row.
    split; [by eapply list_elem_of_lookup_2 | by eapply list_elem_of_lookup_2].
Qed.

Lemma cards_split (grid : Grid) :
  cards grid ≡ₚ (grid ≫= lockedPrefix) ++ allFreeCards grid.
Proof.
  unfold cards. rewrite concat_split, omap_app, <- allFreeCards_cells. f_equiv.
  induction grid as [|row rest IH]; [done|].
  by rewrite !bind_cons, omap_app, IH, lockedPrefix_take, omap_Some.
Qed.

Lemma free_card (grid : Grid) (r c : nat) (row : list GridCell) (card : CardData) :
  grid !! r = Some row → breakPoint row ≤ c → row !! c = Some (Some card) →
  card ∈ allFreeCards grid.
Proof.
  intros Hr Hc Hcard. unfold allFreeCards. apply list_elem_of_bind. exists row.
  split; [|by eapply list_elem_of_lookup_2].
  apply list_elem_of_omap. exists (Some card). split; [|done].
  unfold freeCells. apply list_elem_of_lookup. exists (c - breakPoint row).
  rewrite lookup_drop. by replace (breakPoint row + (c - breakPoint row)) with c by lia.
Qed.

(** With pairwise distinct ids, no free cell holds a card whose id is in
    the locked set. *)
Lemma free_cell_not_locked (grid : Grid) (r c : nat) (row : list GridCell)
    (card : CardData) :
  distinctIds grid →
  grid !! r = Some row → breakPoint row ≤ c → row !! c = Some (Some card) →
  id card ∉ getLockedCards grid.
Proof.
  unfold distinctIds. rewrite cards_split, fmap_app. intros Hnd Hr Hc Hcard.
  apply NoDup_app in Hnd as (_ & Hdisj & _).
  rewrite getLockedCards_spec, elem_of_list_to_set. intros Hin.
  apply (Hdisj _ Hin). apply list_elem_of_fmap_2. by eapply free_card.
Qed.

Lemma unitDraws_sampleDraws : unitDraws sampleDraws.
Proof.
  intros k. unfold sampleDraws.
  pose proof (Nat.mod_upper_bound (k * 5) 7 ltac:(lia)) as Hk.
  unfold Qle, Qlt. simpl. lia.
Qed.

Lemma validGrid_lookup (grid : Grid) (r : nat) (row : list GridCell) :
  validGrid grid → grid !! r = Some row → r < 4 ∧ length row = 13.
Proof.
  intros [Hlen Hrows] Hr. split.
  - rewrite <- Hlen. by eapply lookup_lt_Some.
  - by eapply (Forall_lookup_1 _ _ _ _ Hrows).
Qed.

(** C1. On a structurally valid grid, whatever the draws,
    [reshuffleBoard] returns a structurally valid grid with the same
    cells up to order, hence the same multiset of card ids and the same
    number of holes; every row keeps its locked prefix in place; and when
    the cards carry pairwise distinct ids, every card whose id is in
    [getLockedCards] of the input is at the same (row, col) in the result. *)
Theorem reshuffleBoard_conservation (random : nat → Q) (grid : Grid) (k : nat) :
  validGrid grid → unitDraws random →
  ∃ out k', reshuffleBoard random grid k = Some (out, k')
    ∧ validGrid out
    ∧ concat out ≡ₚ concat grid
    ∧ id <$> cards out ≡ₚ id <$> cards grid
    ∧ gapCount out = gapCount grid
    ∧ (∀ r row, grid !! r = Some row →
         ∃ row', out !! r = Some row'
                 ∧ take (breakPoint row) row' = take (breakPoint row) row)
    ∧ (distinctIds grid →
       ∀ r c card, cellAt grid r c = Some (Some card) →
                   id card ∈ getLockedCards grid →
                   cellAt out r c = Some (Some card)).
Proof.
  intros Hvalid _.
  destruct (reshuffleBoard_spec random grid k Hvalid) as (items & k' & Hout & Hitems).
  pose proof (refill_Permutation grid items Hitems) as Hperm.
  exists (refill grid items), k'. split; [done|]. split; [|split; [done|]].
  { apply refill_valid; [done | by rewrite Hitems]. }
  split; [|split; [|split]].
  - unfold cards. by rewrite Hperm.
  - unfold gapCount. by rewrite Hperm.
  - intros r row Hr. by apply refill_lookup.
  - intros Hnd r c card Hcell Hlocked. unfold cellAt in *.
    destruct (grid !! r) as [row|] eqn:Hr; [|done]. cbn in Hcell.
    destruct (refill_lookup grid items r row Hr) as (row' & -> & Htake). cbn.
    destruct (decide (c < breakPoint row)) as [Hc|Hc].
    + rewrite <- (lookup_take_lt row' (breakPoint row) c) by done.
      by rewrite Htake, lookup_take_lt.
    + exfalso. apply (free_cell_not_locked grid r c row card Hnd Hr); [lia|done..].
Qed.

Lemma reshuffleBoard_conservation_witness :
  ∃ out k', reshuffleBoard sampleDraws dealtGrid 0 = Some (out, k')
    ∧ validGrid out
    ∧ concat out ≡ₚ concat dealtGrid
    ∧ id <$> cards out ≡ₚ id <$> cards dealtGrid
    ∧ gapCount out = gapCount dealtGrid
    ∧ (∀ r row, dealtGrid !! r = Some row →
         ∃ row', out !! r = Some row'
                 ∧ take (breakPoint row) row' = take (breakPoint row) row)
    ∧ (distinctIds dealtGrid →
       ∀ r c card, cellAt dealtGrid r c = Some (Some card) →
                   id card ∈ getLockedCards dealtGrid →
                   cellAt out r c = Some (Some card)).
Proof.
  apply (reshuffleBoard_conservation sampleDraws dealtGrid 0).
  - split; [reflexivity | repeat constructor].
  - intros k. unfold sampleDraws.
    pose proof (Nat.mod_upper_bound (k * 5) 7 ltac:(lia)) as Hk.
    unfold Qle, Qlt. simpl. lia.
Defined.

Lemma elem_of_allFreePositions (r0 : nat) (grid : Grid) (r c : nat) :
  (r, c) ∈ allFreePositions r0 grid ↔
  ∃ row, r0 ≤ r ∧ grid !! (r - r0) = Some row ∧ breakPoint row ≤ c < length row.
Proof.
  revert r0. induction grid as [|row0 rest IH]; intros r0.
  { cbn. split; [by intros ?%elem_of_nil | by intros (? & _ & ? & _)]. }
  cbn [allFreePositions]. rewrite elem_of_app, IH. unfold freePositions.
  rewrite list_elem_of_fmap. setoid_rewrite elem_of_seq. split.
  - intros [(c' & [= -> ->] & Hc) | (row & Hr & Hrow & Hc)].
    + exists row0. rewrite Nat.sub_diag. split; [lia|]. split; [done|lia].
    + exists row. split; [lia|]. split; [|done].
      by replace (r - r0) with (S (r - S r0)) by lia.
  - intros (row & Hr & Hrow & Hc). destruct (decide (r = r0)) as [->|Hne].
    + left. rewrite Nat.sub_diag in Hrow. injection Hrow as ->.
      exists c. split; [done|lia].
    + right. exists row. split; [lia|]. split; [|done].
      by replace (r - r0) with (S (r - S r0)) in Hrow by lia.
Qed.

Lemma elem_of_allFreeCards (grid : Grid) (card : CardData) :
  card ∈ allFreeCards grid ↔
  ∃ r c, (r, c) ∈ allFreePositions 0 grid ∧ cellAt grid r c = Some (Some card).
Proof.
  split.
  - unfold allFreeCards. intros (row & Hcard & Hrow)%list_elem_of_bind.
    apply list_elem_of_omap in Hcard as (cell & Hcell & ->).
    apply list_elem_of_lookup in Hrow as [r Hr].
    apply list_elem_of_lookup in Hcell as [i Hi]. unfold freeCells in Hi.
    rewrite lookup_drop in Hi. exists r, (breakPoint row + i). split.
    + apply elem_of_allFreePositions. exists row. rewrite Nat.sub_0_r.
      split; [lia|]. split; [done|]. apply lookup_lt_Some in Hi. lia.
    + unfold cellAt. by rewrite Hr.
  - intros (r & c & Hpos & Hcell).
    apply elem_of_allFreePositions in Hpos as (row & _ & Hr & Hc).
    rewrite Nat.sub_0_r in Hr. unfold cellAt in Hcell. rewrite Hr in Hcell.
    eapply free_card; [done| |done]. lia.
Qed.

(** C2. On a structurally valid grid whose cards carry
    pairwise distinct ids, the scan of [reshuffleBoard] and
    [getLockedCards] cut every row at the same point: a position of the
    grid is collected exactly when its cell does not hold a card whose id
    is locked; the collected cards are the cards of the collected
    positions; and once a position of a row is collected, so is every
    position to its right, holes included. *)
Theorem collectFree_partition (grid : Grid) :
  validGrid grid → distinctIds grid →
  ∃ st, collectFree grid = Some st
    ∧ (∀ r c, r < 4 → c < 13 →
         ((r, c) ∈ positionsToFill st ↔
          ¬ ∃ card, cellAt grid r c = Some (Some card)
                    ∧ id card ∈ getLockedCards grid))
    ∧ (∀ card, card ∈ cardsToShuffle st ↔
         ∃ r c, (r, c) ∈ positionsToFill st ∧ cellAt grid r c = Some (Some card))
    ∧ (∀ r c c', (r, c) ∈ positionsToFill st → c ≤ c' < 13 →
         (r, c') ∈ positionsToFill st).
Proof.
  intros Hvalid Hnd. eexists. split; [by apply collectFree_spec|].
  cbn [positionsToFill cardsToShuffle]. split; [|split].
  - intros r c Hr Hc.
    destruct (lookup_lt_is_Some_2 grid r) as [row Hrow]; [destruct Hvalid; lia|].
    destruct (validGrid_lookup grid r row Hvalid Hrow) as [_ Hlen].
    rewrite elem_of_allFreePositions, Nat.sub_0_r. unfold cellAt. rewrite Hrow.
    cbn [mbind option_bind]. split.
    + intros (row' & _ & [= <-] & Hbp & _) (card & Hcard & Hlocked).
      by eapply (free_cell_not_locked grid r c row card).
    + intros Hfree. exists row. split; [lia|]. split; [done|]. split; [|lia].
      destruct (decide (breakPoint row ≤ c)) as [|Hlt]; [done|]. exfalso.
      apply Hfree. eapply locked_cell; [done|lia].
  - apply elem_of_allFreeCards.
  - intros r c c' Hpos Hc'. apply elem_of_allFreePositions in Hpos as (row & ? & Hrow & ?).
    apply elem_of_allFreePositions. exists row. split; [done|]. split; [done|].
    rewrite Nat.sub_0_r in Hrow.
    destruct (validGrid_lookup grid r row Hvalid Hrow) as [_ Hlen]. lia.
Qed.

Lemma collectFree_partition_witness :
  ∃ st, collectFree dealtGrid = Some st
    ∧ (∀ r c, r < 4 → c < 13 →
         ((r, c) ∈ positionsToFill st ↔
          ¬ ∃ card, cellAt dealtGrid r c = Some (Some card)
                    ∧ id card ∈ getLockedCards dealtGrid))
    ∧ (∀ card, card ∈ cardsToShuffle st ↔
         ∃ r c, (r, c) ∈ positionsToFill st
                ∧ cellAt dealtGrid r c = Some (Some card))
    ∧ (∀ r c c', (r, c) ∈ positionsToFill st → c ≤ c' < 13 →
         (r, c') ∈ positionsToFill st).
Proof.
  apply (collectFree_partition dealtGrid).
  - split; [reflexivity | repeat constructor].
  - unfold distinctIds. apply (bool_decide_unpack _). by vm_compute.
Defined.

(** C7. In a structurally valid grid, a row whose column 0 is a hole or
    a card that is not a TWO is free as a whole: the scan collects its 13
    positions and every card of it, whatever runs the row holds further
    right, and leaves the row empty for the redistribution. *)
Theorem collectFree_unrooted_row (grid : Grid) (r : nat) (row : list GridCell) :
  validGrid grid → grid !! r = Some row →
  (row !! 0 = Some None ∨ ∃ card, row !! 0 = Some (Some card) ∧ rank card ≠ TWO) →
  ∃ st, collectFree grid = Some st
    ∧ (∀ c, c < 13 → (r, c) ∈ positionsToFill st)
    ∧ (∀ card, Some card ∈ row → card ∈ cardsToShuffle st)
    ∧ newGrid st !! r = Some (replicate 13 None).
Proof.
  intros Hvalid Hr Hfirst.
  destruct (validGrid_lookup grid r row Hvalid Hr) as [_ Hlen].
  assert (Hbp : breakPoint row = 0).
  { unfold breakPoint. rewrite lockedPrefix_not_two; [done|].
    intros first H0. destruct Hfirst as [?|(card & ? & ?)]; by simplify_eq. }
  eexists. split; [by apply collectFree_spec|].
  cbn [positionsToFill cardsToShuffle newGrid]. split; [|split].
  - intros c Hc. apply elem_of_allFreePositions. exists row.
    rewrite Nat.sub_0_r. split; [lia|]. split; [done|lia].
  - intros card [c Hc]%list_elem_of_lookup. eapply free_card; [done| |done]. lia.
  - rewrite list_lookup_fmap, Hr. cbn [fmap option_fmap option_map].
    unfold scannedRow. by rewrite Hbp, Hlen.
Qed.

Lemma collectFree_unrooted_row_witness :
  ∃ st, collectFree dealtGrid = Some st
    ∧ (∀ c, c < 13 → (1, c) ∈ positionsToFill st)
    ∧ (∀ card, Some card ∈ default [] (dealtGrid !! 1) → card ∈ cardsToShuffle st)
    ∧ newGrid st !! 1 = Some (replicate 13 None).
Proof.
  apply (collectFree_unrooted_row dealtGrid 1).
  - split; [reflexivity | repeat constructor].
  - reflexivity.
  - right. eexists. split; [reflexivity | discriminate].
Defined.

(** ** Reshuffling a won board *)

Lemma completeRow_free (row : list GridCell) :
  completeRow row → length row = 13 →
  breakPoint row = 12 ∧ freeCells row = [None]
  ∧ omap (λ cell : GridCell, cell) (freeCells row) = []
  ∧ freePositions 0 row = [(0, 12)].
Proof.
  intros Hrow Hlen. destruct (lockedPrefix_complete row Hrow Hlen) as (_ & _ & Hbp).
  fold (breakPoint row) in Hbp. destruct Hrow as [H12 _].
  assert (Hfree : freeCells row = [None]).
  { unfold freeCells. rewrite Hbp. erewrite drop_S by done.
    by rewrite drop_ge by lia. }
  repeat split; [done..| by rewrite Hfree |].
  unfold freePositions. by rewrite Hbp, Hlen.
Qed.

Lemma refill_won (grid : Grid) :
  Forall (λ row, completeRow row ∧ length row = 13) grid →
  grid ≫= freeCells = replicate (length grid) None
  ∧ refill grid (replicate (length grid) None) = grid.
Proof.
  induction 1 as [|row rest [Hrow Hlen] _ [IH1 IH2]]; [done|].
  destruct (completeRow_free row Hrow Hlen) as (Hbp & Hfree & _).
  split.
  - by rewrite bind_cons, IH1, Hfree.
  - cbn [refill length]. rewrite Hbp, Hlen. cbn [replicate take drop].
    change (13 - 12) with 1. cbn [take drop]. rewrite take_0, drop_0, IH2. f_equal.
    rewrite <- (take_drop 12 row) at 2. f_equal.
    by rewrite <- Hbp.
Qed.

Lemma Permutation_replicate {A} (l : list A) (n : nat) (x : A) :
  l ≡ₚ replicate n x → l = replicate n x.
Proof.
  intros Hperm. symmetry. apply replicate_as_Forall. split.
  - by rewrite Hperm, length_replicate.
  - apply Forall_forall. intros y Hy. rewrite Hperm in Hy.
    by apply elem_of_replicate in Hy as [-> _].
Qed.

(** C10. On a structurally valid grid that [checkWinCondition] accepts,
    [reshuffleBoard] returns the grid itself, whatever the draws: the scan
    locks the 12 cards of every row and collects no card and only the
    four holes of column 12, which are refilled with holes. *)
Theorem reshuffleBoard_won (random : nat → Q) (grid : Grid) (k : nat) :
  validGrid grid → unitDraws random → checkWinCondition grid = true →
  (∃ k', reshuffleBoard random grid k = Some (grid, k'))
  ∧ (∀ r c row, grid !! r = Some row → c < 12 →
       ∃ card, row !! c = Some (Some card) ∧ id card ∈ getLockedCards grid)
  ∧ ∃ st, collectFree grid = Some st
      ∧ cardsToShuffle st = []
      ∧ positionsToFill st = [(0, 12); (1, 12); (2, 12); (3, 12)].
Proof.
  intros Hvalid _ Hwin.
  assert (Hrows : Forall (λ row, completeRow row ∧ length row = 13) grid).
  { apply checkWinCondition_complete in Hwin.
    apply Forall_lookup. intros r row Hr. split.
    - by eapply (Forall_lookup_1 _ _ _ _ Hwin).
    - by apply (validGrid_lookup grid r row Hvalid Hr). }
  destruct (refill_won grid Hrows) as [Hfree Hrefill]. split; [|split].
  - destruct (reshuffleBoard_spec random grid k Hvalid) as (items & k' & Hout & Hitems).
    rewrite Hfree in Hitems. apply Permutation_replicate in Hitems as ->.
    exists k'. by rewrite Hout, Hrefill.
  - intros r c row Hr Hc. eapply locked_cell; [done|].
    destruct (Forall_lookup_1 _ _ _ _ Hrows Hr) as [Hrow Hlen].
    destruct (completeRow_free row Hrow Hlen) as [-> _]. done.
  - eexists. split; [by apply collectFree_spec|].
    cbn [cardsToShuffle positionsToFill]. destruct Hvalid as [Hlen _].
    destruct grid as [|r0 [|r1 [|r2 [|r3 [|]]]]]; try done.
    apply Forall_cons in Hrows as [[H0 L0] Hrows].
    apply Forall_cons in Hrows as [[H1 L1] Hrows].
    apply Forall_cons in Hrows as [[H2 L2] Hrows].
    apply Forall_cons in Hrows as [[H3 L3] _].
    destruct (completeRow_free r0 H0 L0) as (B0 & _ & C0 & _).
    destruct (completeRow_free r1 H1 L1) as (B1 & _ & C1 & _).
    destruct (completeRow_free r2 H2 L2) as (B2 & _ & C2 & _).
    destruct (completeRow_free r3 H3 L3) as (B3 & _ & C3 & _).
    split.
    + unfold allFreeCards. rewrite !bind_cons, C0, C1, C2, C3. done.
    + cbn [allFreePositions]. unfold freePositions.
      rewrite B0, B1, B2, B3, L0, L1, L2, L3. done.
Qed.

Lemma reshuffleBoard_won_witness :
  ∃ k', reshuffleBoard sampleDraws wonGrid 0 = Some (wonGrid, k').
Proof.
  apply (reshuffleBoard_won sampleDraws wonGrid 0).
  - split; [reflexivity | repeat constructor].
  - intros k. unfold sampleDraws.
    pose proof (Nat.mod_upper_bound (k * 5) 7 ltac:(lia)) as Hk.
    unfold Qle, Qlt. simpl. lia.
  - reflexivity.
Defined.

(** ** The engine on the heap *)

(** The locals of the scan, without the grid. *)
Lemma holds_row (h : heap) (grid : loc) (rowRefs : list loc) (G : Grid) (r : nat) :
  holds h grid rowRefs G →
  match G !! r with
  | Some cells => ∃ l, rowRefs !! r = Some l ∧ h !! l = Some (Row cells)
  | None => rowRefs !! r = None
  end.
Proof.
  intros [_ Hrows]. destruct (G !! r) as [cells|] eqn:Hr.
  - destruct (Forall2_lookup_r _ _ _ _ _ Hrows Hr) as (l & ? & ?). by exists l.
  - apply lookup_ge_None. rewrite (Forall2_length _ _ _ Hrows).
    by apply lookup_ge_None.
Qed.

Lemma getCell_holds (h : heap) (grid : loc) (rowRefs : list loc) (G : Grid)
    (r c : nat) :
  holds h grid rowRefs G →
  getCell grid r c h = (λ x, (x, h)) <$> readCell G r c.
Proof.
  intros Hh. pose proof (holds_row h grid rowRefs G r Hh) as Hr.
  destruct Hh as [Hg _]. unfold getCell, hbind, derefOuter, readCell. rewrite Hg.
  destruct (G !! r) as [cells|].
  - destruct Hr as (l & -> & Hl). unfold hbind, derefRow. by rewrite Hl.
  - by rewrite Hr.
Qed.

Lemma canPlaceCardH_holds (h : heap) (grid : loc) (rowRefs : list loc) (G : Grid)
    (card : CardData) (r c : nat) :
  holds h grid rowRefs G →
  canPlaceCardH card r c grid h = (λ b, (b, h)) <$> canPlaceCard card r c G.
Proof.
  intros Hh. unfold canPlaceCardH, canPlaceCard.
  destruct (decide (c = 0)); [done|].
  unfold hbind. rewrite (getCell_holds h grid rowRefs G) by done.
  unfold readCell. destruct (G !! r) as [cells|]; [|done]. cbn.
  destruct (cells !! (c - 1)) as [[left|]|]; try done.
  destruct (decide (rank left = KING)); [done|].
  by destruct (decide (suit card ≠ suit left)).
Qed.

Lemma checkWinRowsH_holds (h : heap) (rowRefs : list loc) (G : Grid) :
  Forall2 (λ l cells, h !! l = Some (Row cells)) rowRefs G →
  checkWinRowsH rowRefs h = Some (checkWinCondition G, h).
Proof.
  induction 1 as [|l cells rowRefs G Hl _ IH]; [done|].
  cbn [checkWinRowsH checkWinCondition]. unfold hbind, derefRow. rewrite Hl.
  by destruct (isRowComplete cells).
Qed.

Lemma scoreRowsH_holds (h : heap) (rowRefs : list loc) (G : Grid) (score : Z) :
  Forall2 (λ l cells, h !! l = Some (Row cells)) rowRefs G →
  scoreRowsH rowRefs score h
  = Some (foldl (λ score row, scoreRow row score) score G, h).
Proof.
  intros HG. revert score. induction HG as [|l cells rowRefs G Hl _ IH];
    intros score; [done|].
  cbn [scoreRowsH foldl]. unfold hbind, derefRow. rewrite Hl. apply IH.
Qed.

Lemma lockedRowsH_holds (h : heap) (rowRefs : list loc) (G : Grid)
    (locked : gset string) :
  Forall2 (λ l cells, h !! l = Some (Row cells)) rowRefs G →
  lockedRowsH rowRefs locked h
  = Some (foldl (λ locked row, lockedRow row locked) locked G, h).
Proof.
  intros HG. revert locked. induction HG as [|l cells rowRefs G Hl _ IH];
    intros locked; [done|].
  cbn [lockedRowsH foldl]. unfold hbind, derefRow. rewrite Hl. apply IH.
Qed.

Lemma copyRows_spec (h0 : heap) (rowRefs : list loc) (G : Grid) (h : heap) :
  Forall2 (λ l cells, h0 !! l = Some (Row cells)) rowRefs G → h0 ⊆ h →
  ∃ newRows h', copyRows rowRefs h = Some (newRows, h')
    ∧ h ⊆ h'
    ∧ Forall2 (λ l cells, h' !! l = Some (Row cells)) newRows G
    ∧ NoDup newRows
    ∧ Forall (λ l, h !! l = None) newRows.
Proof.
  intros HG. revert h. induction HG as [|l cells rowRefs G Hl _ IH]; intros h Hsub.
  { exists [], h. repeat split; [done|constructor..]. }
  cbn [copyRows]. unfold hbind at 1. unfold derefRow.
  rewrite (lookup_weaken _ _ _ _ Hl Hsub). unfold hbind at 1, alloc.
  set (l' := fresh (dom h)). set (h1 := <[l' := Row cells]> h).
  assert (Hfresh : h !! l' = None) by apply not_elem_of_dom, is_fresh.
  assert (Hsub1 : h ⊆ h1) by by apply insert_subseteq.
  destruct (IH h1) as (newRows & h' & Hcopy & Hsub' & Hrows & Hnd & Hnew);
    [by etrans|].
  unfold hbind. rewrite Hcopy. exists (l' :: newRows), h'.
  split; [done|]. split; [by etrans|]. split; [|split].
  - constructor; [|done]. eapply lookup_weaken; [|done]. apply lookup_insert_eq.
  - constructor; [|done]. intros Hin.
    pose proof (proj1 (Forall_forall _ _) Hnew l' Hin) as Hnone.
    unfold h1 in Hnone. by rewrite lookup_insert_eq in Hnone.
  - constructor; [done|]. eapply Forall_impl; [done|]. intros x Hx.
    eapply lookup_weaken_None; [exact Hx | exact Hsub1].
Qed.

Lemma getCell_sim (h0 h : heap) (grid : loc) (rowRefs : list loc) (G : Grid)
    (r c : nat) (x : option GridCell) :
  freshGrid h0 h grid rowRefs G → readCell G r c = Some x →
  getCell grid r c h = Some (x, h).
Proof.
  intros (_ & Hh & _) Hx. rewrite (getCell_holds h grid rowRefs G) by done.
  by rewrite Hx.
Qed.

Lemma setCell_sim (h0 h : heap) (grid : loc) (rowRefs : list loc) (G G' : Grid)
    (r c : nat) (v : GridCell) :
  freshGrid h0 h grid rowRefs G → writeCell G r c v = Some G' →
  ∃ h', setCell grid r c v h = Some (tt, h') ∧ freshGrid h0 h' grid rowRefs G'.
Proof.
  intros (Hsub & Hh & Hnd & Hg & Hg0 & Hnew) Hw. unfold writeCell in Hw.
  pose proof (holds_row h grid rowRefs G r Hh) as Hr.
  destruct (G !! r) as [cells|] eqn:HGr; [|done]. cbn in Hw. injection Hw as <-.
  destruct Hr as (l & Hl & Hcells). destruct Hh as [Hgrid Hrows].
  unfold setCell, hbind, derefOuter, derefRow, store. rewrite Hgrid, Hl, Hcells.
  eexists. split; [done|]. split; [|split; [split|]].
  - apply insert_subseteq_r; [|done].
    eapply (proj1 (Forall_forall _ _) Hnew). by eapply list_elem_of_lookup_2.
  - rewrite lookup_insert_ne; [done|]. intros ->. apply Hg.
    by eapply list_elem_of_lookup_2.
  - apply Forall2_same_length_lookup_2.
    { rewrite length_insert. by eapply Forall2_length. }
    intros i l' cells' Hl' Hi. destruct (decide (i = r)) as [->|Hne].
    + rewrite list_lookup_insert_eq in Hi by by eapply lookup_lt_Some.
      simplify_eq. apply lookup_insert_eq.
    + rewrite list_lookup_insert_ne in Hi by done.
      rewrite lookup_insert_ne; [exact (Forall2_lookup_lr _ _ _ _ _ _ Hrows Hl' Hi)|].
      intros ->. apply Hne. by eapply NoDup_lookup.
  - done.
Qed.

Lemma collectH_sim (h0 h : heap) (grid : loc) (rowRefs : list loc)
    (r c : nat) (cell : option GridCell) (st st' : ScanState) :
  freshGrid h0 h grid rowRefs (newGrid st) → collect r c cell st = Some st' →
  ∃ h', collectH grid r c cell (locals st) h = Some (locals st', h')
        ∧ freshGrid h0 h' grid rowRefs (newGrid st').
Proof.
  intros Hfresh Hc. unfold collect in Hc.
  destruct (writeCell (newGrid st) r c None) as [G'|] eqn:Hw; [|done].
  injection Hc as <-.
  destruct (setCell_sim _ _ _ _ _ _ _ _ _ Hfresh Hw) as (h' & Hset & Hfresh').
  exists h'. split; [|done]. unfold collectH, hbind. by rewrite Hset.
Qed.

Lemma scanCellH_sim (h0 h : heap) (grid : loc) (rowRefs : list loc)
    (r c : nat) (b b' : bool) (st st' : ScanState) :
  freshGrid h0 h grid rowRefs (newGrid st) → scanCell r c (b, st) = Some (b', st') →
  ∃ h', scanCellH grid r c (b, locals st) h = Some ((b', locals st'), h')
        ∧ freshGrid h0 h' grid rowRefs (newGrid st').
Proof.
  intros Hfresh Hs. unfold scanCell in Hs. unfold scanCellH.
  destruct b.
  - destruct (decide (c = 0)).
    { cbn in Hs. injection Hs as <- <-. by exists h. }
    destruct (readCell (newGrid st) r (c - 1)) as [prev|] eqn:Hprev; [|done].
    destruct (readCell (newGrid st) r c) as [curr|] eqn:Hcurr; [|done].
    cbn [mbind option_bind] in Hs. unfold hbind at 1.
    rewrite (getCell_sim _ _ _ _ _ _ _ _ Hfresh Hprev). unfold hbind at 1.
    rewrite (getCell_sim _ _ _ _ _ _ _ _ Hfresh Hcurr).
    destruct (continuesRun prev curr).
    { injection Hs as <- <-. by exists h. }
    destruct (collect r c curr st) as [st1|] eqn:Hc; [|done].
    cbn in Hs. injection Hs as <- <-.
    destruct (collectH_sim _ _ _ _ _ _ _ _ _ Hfresh Hc) as (h' & Hcoll & Hfresh').
    exists h'. split; [|done]. unfold hbind. by rewrite Hcoll.
  - destruct (readCell (newGrid st) r c) as [cell|] eqn:Hcell; [|done].
    cbn [mbind option_bind] in Hs.
    destruct (collect r c cell st) as [st1|] eqn:Hc; [|done].
    cbn in Hs. injection Hs as <- <-.
    destruct (collectH_sim _ _ _ _ _ _ _ _ _ Hfresh Hc) as (h' & Hcoll & Hfresh').
    exists h'. split; [|done]. unfold hbind at 1.
    rewrite (getCell_sim _ _ _ _ _ _ _ _ Hfresh Hcell). unfold hbind. by rewrite Hcoll.
Qed.

Lemma scanColsH_sim (n : nat) (h0 h : heap) (grid : loc) (rowRefs : list loc)
    (r c : nat) (b b' : bool) (st st' : ScanState) :
  freshGrid h0 h grid rowRefs (newGrid st) →
  scanCols r c n (b, st) = Some (b', st') →
  ∃ h', scanColsH grid r c n (b, locals st) h = Some ((b', locals st'), h')
        ∧ freshGrid h0 h' grid rowRefs (newGrid st').
Proof.
  revert h c b st. induction n as [|n IH]; intros h c b st Hfresh Hs.
  { cbn in Hs. injection Hs as <- <-. by exists h. }
  cbn [scanCols] in Hs.
  destruct (scanCell r c (b, st)) as [[b1 st1]|] eqn:Hcell; [|done].
  cbn [mbind option_bind] in Hs.
  destruct (scanCellH_sim _ _ _ _ _ _ _ _ _ _ Hfresh Hcell) as (h1 & Hcell' & Hfresh1).
  destruct (IH _ _ _ _ Hfresh1 Hs) as (h' & Hcols & Hfresh').
  exists h'. split; [|done]. cbn [scanColsH]. unfold hbind. by rewrite Hcell'.
Qed.

Lemma scanRowH_sim (h0 h : heap) (grid : loc) (rowRefs : list loc)
    (r : nat) (st st' : ScanState) :
  freshGrid h0 h grid rowRefs (newGrid st) → scanRow r st = Some st' →
  ∃ h', scanRowH grid r (locals st) h = Some (locals st', h')
        ∧ freshGrid h0 h' grid rowRefs (newGrid st').
Proof.
  intros Hfresh Hs. unfold scanRow in Hs.
  destruct (readCell (newGrid st) r 0) as [first|] eqn:Hfirst; [|done].
  cbn [mbind option_bind] in Hs.
  destruct (scanCols r 0 cols _) as [[b1 st1]|] eqn:Hcols; [|done].
  cbn in Hs. injection Hs as <-.
  destruct (scanColsH_sim _ _ _ _ _ _ _ _ _ _ _ Hfresh Hcols) as (h' & Hcols' & Hfresh').
  exists h'. split; [|done]. unfold scanRowH, hbind at 1.
  rewrite (getCell_sim _ _ _ _ _ _ _ _ Hfresh Hfirst). unfold hbind.
  by rewrite Hcols'.
Qed.

Lemma scanRowsH_sim (n : nat) (h0 h : heap) (grid : loc) (rowRefs : list loc)
    (r : nat) (st st' : ScanState) :
  freshGrid h0 h grid rowRefs (newGrid st) → scanRows r n st = Some st' →
  ∃ h', scanRowsH grid r n (locals st) h = Some (locals st', h')
        ∧ freshGrid h0 h' grid rowRefs (newGrid st').
Proof.
  revert h r st. induction n as [|n IH]; intros h r st Hfresh Hs.
  { cbn in Hs. injection Hs as <-. by exists h. }
  cbn [scanRows] in Hs. destruct (scanRow r st) as [st1|] eqn:Hrow; [|done].
  cbn [mbind option_bind] in Hs.
  destruct (scanRowH_sim _ _ _ _ _ _ _ Hfresh Hrow) as (h1 & Hrow' & Hfresh1).
  destruct (IH _ _ _ Hfresh1 Hs) as (h' & Hrows & Hfresh').
  exists h'. split; [|done]. cbn [scanRowsH]. unfold hbind. by rewrite Hrow'.
Qed.

Lemma assignBackH_sim (positions : list (nat * nat)) (fillItems : list GridCell)
    (idx : nat) (h0 h : heap) (grid : loc) (rowRefs : list loc) (G G' : Grid) :
  freshGrid h0 h grid rowRefs G → assignBack positions fillItems idx G = Some G' →
  ∃ h', assignBackH positions fillItems idx grid h = Some (tt, h')
        ∧ freshGrid h0 h' grid rowRefs G'.
Proof.
  revert idx h G. induction positions as [|pos positions IH]; intros idx h G Hfresh Ha.
  { cbn in Ha. injection Ha as <-. by exists h. }
  cbn [assignBack] in Ha.
  destruct (writeCell G pos.1 pos.2 _) as [G1|] eqn:Hw; [|done].
  cbn [mbind option_bind] in Ha.
  destruct (setCell_sim _ _ _ _ _ _ _ _ _ Hfresh Hw) as (h1 & Hset & Hfresh1).
  destruct (IH _ _ _ Hfresh1 Ha) as (h' & Hrest & Hfresh').
  exists h'. split; [|done]. cbn [assignBackH]. unfold hbind. by rewrite Hset.
Qed.

Lemma reshuffleBoardH_sim (random : nat → Q) (h : heap) (grid : loc)
    (rowRefs : list loc) (G out : Grid) (k k' : nat) :
  holds h grid rowRefs G → reshuffleBoard random G k = Some (out, k') →
  ∃ newGrid newRows h',
    reshuffleBoardH random grid k h = Some ((newGrid, k'), h')
    ∧ freshGrid h h' newGrid newRows out.
Proof.
  intros [Hgrid Hrows] Hpure.
  destruct (copyRows_spec h rowRefs G h Hrows) as (newRows & h1 & Hcopy & Hsub1 & Hrows1 & Hnd & Hnew);
    [done|].
  set (g' := fresh (dom h1)). set (h2 := <[g' := Outer newRows]> h1).
  assert (Hfresh1 : h1 !! g' = None) by apply not_elem_of_dom, is_fresh.
  assert (Hfresh : freshGrid h h2 g' newRows G).
  { assert (Hsub2 : h1 ⊆ h2) by by apply insert_subseteq.
    repeat split.
    - by transitivity h1.
    - apply lookup_insert_eq.
    - eapply Forall2_impl; [done|]. intros l cells Hl.
      exact (lookup_weaken _ _ _ _ Hl Hsub2).
    - done.
    - intros Hin. apply list_elem_of_lookup in Hin as [i Hi].
      destruct (Forall2_lookup_l _ _ _ _ _ Hrows1 Hi) as (cells & _ & Hl). congruence.
    - eapply lookup_weaken_None; [exact Hfresh1 | exact Hsub1].
    - done. }
  unfold reshuffleBoard, collectFree in Hpure. rewrite list_fmap_id in Hpure.
  destruct (scanRows 0 rows (mkScan G [] [])) as [st|] eqn:Hscan; [|done].
  cbn [mbind option_bind] in Hpure.
  destruct (fisherYates random (cardsToShuffle st) _ k) as [cardsToShuffle k1] eqn:H1.
  destruct (fisherYates random (_ ++ _) _ k1) as [fillItems k2] eqn:H2.
  destruct (assignBack (positionsToFill st) fillItems 0 (newGrid st)) as [G'|] eqn:Ha;
    [|done].
  cbn in Hpure. injection Hpure as <- <-.
  destruct (scanRowsH_sim rows h h2 g' newRows 0 (mkScan G [] []) st Hfresh Hscan)
    as (h3 & Hscan' & Hfresh3).
  destruct (assignBackH_sim _ _ _ _ _ _ _ _ _ Hfresh3 Ha) as (h4 & Ha' & Hfresh4).
  exists g', newRows, h4. split; [|done].
  unfold reshuffleBoardH. unfold hbind at 1. unfold derefOuter. rewrite Hgrid.
  unfold hbind at 1. rewrite Hcopy. unfold hbind at 1. unfold alloc.
  fold g'. fold h2. unfold hbind at 1.
  change (@nil CardData, @nil (nat * nat)) with (locals (mkScan G [] [])).
  rewrite Hscan'. unfold locals at 1 2 3 4. cbn [fst snd]. rewrite H1, H2.
  unfold hbind, locals. cbn [fst snd]. by rewrite Ha'.
Qed.

(** C9. The four queries return what they compute on the grid the heap
    holds and leave the heap as it is; [reshuffleBoard] builds its result
    in arrays that did not exist before the call, so that every array of
    the heap it was called on, the rows of its argument among them, is
    unchanged, and the result shares no array with the argument. *)
Theorem engine_frame (h : heap) (grid : loc) (rowRefs : list loc) (G : Grid) :
  holds h grid rowRefs G →
  (∀ card r c,
     canPlaceCardH card r c grid h = (λ b, (b, h)) <$> canPlaceCard card r c G)
  ∧ checkWinConditionH grid h = Some (checkWinCondition G, h)
  ∧ calculateScoreH grid h = Some (calculateScore G, h)
  ∧ getLockedCardsH grid h = Some (getLockedCards G, h)
  ∧ (∀ random k, validGrid G → unitDraws random →
       ∃ newGrid newRows out k' h',
         reshuffleBoardH random grid k h = Some ((newGrid, k'), h')
         ∧ reshuffleBoard random G k = Some (out, k')
         ∧ holds h' newGrid newRows out
         ∧ h ⊆ h'
         ∧ holds h' grid rowRefs G
         ∧ h !! newGrid = None ∧ Forall (λ l, h !! l = None) newRows
         ∧ newGrid ≠ grid ∧ (∀ l, l ∈ newRows → l ∉ rowRefs)
         ∧ NoDup newRows ∧ newGrid ∉ newRows).
Proof.
  intros Hh. pose proof Hh as [Hgrid Hrows]. split; [|split; [|split; [|split]]].
  - intros card r c. by eapply canPlaceCardH_holds.
  - unfold checkWinConditionH, hbind, derefOuter. rewrite Hgrid.
    by apply checkWinRowsH_holds.
  - unfold calculateScoreH, hbind, derefOuter. rewrite Hgrid.
    by apply scoreRowsH_holds.
  - unfold getLockedCardsH, hbind, derefOuter. rewrite Hgrid.
    by apply lockedRowsH_holds.
  - intros random k Hvalid _.
    destruct (reshuffleBoard_spec random G k Hvalid) as (items & k' & Hpure & _).
    destruct (reshuffleBoardH_sim random h grid rowRefs G _ k k' Hh Hpure)
      as (newGrid & newRows & h' & Hrun & Hsub & Hout & Hnd & Hnotin & Hnew & Hnews).
    exists newGrid, newRows, (refill G items), k', h'.
    split; [done|]. split; [done|]. split; [done|]. split; [done|].
    split; [|split; [done|split; [done|split; [|split; [|done]]]]].
    + split; [exact (lookup_weaken _ _ _ _ Hgrid Hsub)|].
      eapply Forall2_impl; [done|]. intros l cells Hl.
      exact (lookup_weaken _ _ _ _ Hl Hsub).
    + intros ->. congruence.
    + intros l Hl Hin. pose proof (proj1 (Forall_forall _ _) Hnews l Hl) as Hnone.
      apply list_elem_of_lookup in Hin as [i Hi].
      destruct (Forall2_lookup_l _ _ _ _ _ Hrows Hi) as (cells & _ & Hcells).
      congruence.
Qed.

Lemma engine_frame_witness :
  checkWinConditionH (layout dealtGrid).1.2 (layout dealtGrid).1.1
  = Some (checkWinCondition dealtGrid, (layout dealtGrid).1.1)
  ∧ calculateScoreH (layout dealtGrid).1.2 (layout dealtGrid).1.1
    = Some (calculateScore dealtGrid, (layout dealtGrid).1.1)
  ∧ getLockedCardsH (layout dealtGrid).1.2 (layout dealtGrid).1.1
    = Some (getLockedCards dealtGrid, (layout dealtGrid).1.1).
Proof.
  destruct (engine_frame (layout dealtGrid).1.1 (layout dealtGrid).1.2
              (layout dealtGrid).2 dealtGrid) as (_ & Hwin & Hscore & Hlocked & _).
  - split; [reflexivity|]. repeat constructor.
  - exact (conj Hwin (conj Hscore Hlocked)).
Defined.

(** * Further properties of the engine *)

(** ** Rank values and legality *)

(** X1. [getRankValue] numbers the ranks 2..14 in the order of [RANKS]:
    the rank at index [i] has value [i + 2], values lie in 2..14, and
    two ranks of the same value are the same rank. *)
Theorem getRankValue_order (r1 r2 : Rank) (i : nat) :
  (2 ≤ getRankValue r1 ≤ 14)%Z
  ∧ (getRankValue r1 = getRankValue r2 → r1 = r2)
  ∧ (RANKS !! i = Some r1 ↔ getRankValue r1 = (Z.of_nat i + 2)%Z)
  ∧ (getRankValue r1 = 2%Z ↔ r1 = TWO)
  ∧ (getRankValue r1 = 13%Z ↔ r1 = KING)
  ∧ (getRankValue r1 = 14%Z ↔ r1 = ACE).
Proof.
  split; [destruct r1; vm_compute; split; discriminate|].
  split; [destruct r1, r2; vm_compute; congruence|].
  split; [|repeat split; destruct r1; vm_compute; congruence].
  pose proof (getRankValue_range r1) as Hrange.
  do 13 (destruct i as [|i];
         [split; intros H; destruct r1; vm_compute in H; try discriminate;
          reflexivity|]).
  split; [by intros [=] | lia].
Qed.

(** X2. No card can be placed to the right of a King: whatever the card,
    [canPlaceCard] answers false for a target whose left neighbour is a
    King. *)
Theorem canPlaceCard_after_king (card king : CardData) (r c : nat) (grid : Grid) :
  0 < c → cellAt grid r (c - 1) = Some (Some king) → rank king = KING →
  canPlaceCard card r c grid = Some false.
Proof.
  intros Hc Hleft Hk. unfold canPlaceCard, cellAt in *.
  rewrite decide_False by lia.
  destruct (grid !! r) as [row|]; [|done]. cbn in *. rewrite Hleft.
  by rewrite decide_True.
Qed.

Lemma canPlaceCard_after_king_witness :
  canPlaceCard (sampleCard HEARTS FOUR) 0 6 dealtGrid = Some false.
Proof.
  apply (canPlaceCard_after_king _ (sampleCard HEARTS KING));
    [lia | reflexivity | reflexivity].
Defined.

(** X3. An Ace is never placeable, and a TWO is placeable at column 0
    only: the answer for an Ace is never true, and the answer for a TWO
    at a column other than 0 is never true. *)
Theorem canPlaceCard_ace_two (card : CardData) (r c : nat) (grid : Grid) :
  (rank card = ACE → canPlaceCard card r c grid ≠ Some true)
  ∧ (rank card = TWO → c ≠ 0 → canPlaceCard card r c grid ≠ Some true)
  ∧ (rank card = TWO → canPlaceCard card r 0 grid = Some true).
Proof.
  unfold canPlaceCard. split; [|split].
  - intros Ha. destruct (decide (c = 0)).
    { rewrite Ha. by intros [=]. }
    destruct (grid !! r) as [row|]; [|done]. cbn.
    destruct (row !! (c - 1)) as [[left|]|]; try done.
    destruct (decide (rank left = KING)) as [|Hk]; [done|].
    destruct (decide (suit card ≠ suit left)); [done|].
    rewrite Ha. intros [= Hv%bool_decide_eq_true]. apply Hk.
    destruct (rank left); vm_compute in Hv; congruence.
  - intros Ht Hc. rewrite decide_False by done.
    destruct (grid !! r) as [row|]; [|done]. cbn.
    destruct (row !! (c - 1)) as [[left|]|]; try done.
    destruct (decide (rank left = KING)) as [|Hk]; [done|].
    destruct (decide (suit card ≠ suit left)); [done|].
    rewrite Ht. intros [= Hv%bool_decide_eq_true].
    destruct (rank left); vm_compute in Hv; congruence.
  - intros Ht. by rewrite Ht.
Qed.

(** X4. At a column other than 0 at most one face fits: two cards that
    [canPlaceCard] accepts at the same target have the same suit and
    rank. *)
Theorem canPlaceCard_unique_face (card1 card2 : CardData) (r c : nat) (grid : Grid) :
  c ≠ 0 →
  canPlaceCard card1 r c grid = Some true →
  canPlaceCard card2 r c grid = Some true →
  face card1 = face card2.
Proof.
  unfold canPlaceCard. intros Hc. destruct (decide (c = 0)); [done|].
  destruct (grid !! r) as [row|]; [|done]. cbn.
  destruct (row !! (c - 1)) as [[left|]|]; try done.
  destruct (decide (rank left = KING)); [done|].
  destruct (decide (suit card1 ≠ suit left)) as [|H1]; [done|].
  destruct (decide (suit card2 ≠ suit left)) as [|H2]; [by intros _ [=]|].
  intros [= Hv1%bool_decide_eq_true] [= Hv2%bool_decide_eq_true].
  unfold face. f_equal.
  - destruct (decide (suit card1 = suit left)), (decide (suit card2 = suit left));
      try done. congruence.
  - apply getRankValue_inj. lia.
Qed.

Lemma canPlaceCard_unique_face_witness :
  face (sampleCard HEARTS FOUR) = face (sampleCard HEARTS FOUR).
Proof.
  apply (canPlaceCard_unique_face _ _ 0 2 dealtGrid); [lia | reflexivity..].
Defined.

(** X5. [canPlaceCard] throws exactly when the target column is not 0
    and the grid has no row [targetRow]; at column 0 it never reads the
    grid. *)
Theorem canPlaceCard_throws (card : CardData) (r c : nat) (grid : Grid) :
  canPlaceCard card r c grid = None ↔ c ≠ 0 ∧ length grid ≤ r.
Proof.
  unfold canPlaceCard. destruct (decide (c = 0)) as [->|Hc].
  { split; [done | by intros [? _]]. }
  destruct (grid !! r) as [row|] eqn:Hr; cbn.
  - apply lookup_lt_Some in Hr. split; [|lia].
    destruct (row !! (c - 1)) as [[left|]|]; try done.
    destruct (decide (rank left = KING)); [done|].
    by destruct (decide (suit card ≠ suit left)).
  - apply lookup_ge_None in Hr. done.
Qed.

(** ** The shuffle and the deal *)

Lemma fisherYates_draws {A} (random : nat → Q) (a : list A) (i k : nat) :
  (fisherYates random a i k).2 = k + i.
Proof.
  revert a k. induction i as [|i IH]; intros a k; cbn [fisherYates]; [cbn; lia|].
  rewrite IH. lia.
Qed.

(** X6. [shuffleDeck] returns a permutation of the deck it is given, of
    the same length, and draws one random number per card but one. *)
Theorem shuffleDeck_permutation (random : nat → Q) (deck : list CardData) (k : nat) :
  unitDraws random →
  (shuffleDeck random deck k).1 ≡ₚ deck
  ∧ length (shuffleDeck random deck k).1 = length deck
  ∧ (NoDup deck → NoDup (shuffleDeck random deck k).1)
  ∧ (shuffleDeck random deck k).2 = k + (length deck - 1).
Proof.
  intros _. unfold shuffleDeck.
  pose proof (fisherYates_Permutation random deck (length deck - 1) k) as Hperm.
  split; [done|]. split; [by rewrite Hperm|]. split; [by rewrite Hperm|].
  apply fisherYates_draws.
Qed.

Lemma shuffleDeck_permutation_witness :
  (shuffleDeck sampleDraws (sampleCard HEARTS <$> RANKS) 0).1
    ≡ₚ sampleCard HEARTS <$> RANKS
  ∧ (shuffleDeck sampleDraws (sampleCard HEARTS <$> RANKS) 0).2 = 12.
Proof.
  destruct (shuffleDeck_permutation sampleDraws (sampleCard HEARTS <$> RANKS) 0)
    as (Hperm & _ & _ & Hdraws).
  - intros k. unfold sampleDraws.
    pose proof (Nat.mod_upper_bound (k * 5) 7 ltac:(lia)) as Hk.
    unfold Qle, Qlt. simpl. lia.
  - exact (conj Hperm Hdraws).
Defined.

Lemma generateDeck_draws (random : nat → Q) (toString36 : Q → string) (k : nat) :
  (generateDeck random toString36 k).2 = k + 52.
Proof. unfold generateDeck. cbn. lia. Qed.

Lemma generateDeck_ids (random : nat → Q) (toString36 : Q → string) (k : nat) :
  NoDup (id <$> (generateDeck random toString36 k).1).
Proof.
  apply (NoDup_fmap_1 idCode). rewrite <- list_fmap_compose.
  apply (bool_decide_unpack _). by vm_compute.
Qed.

(** The cards of a dealt board are the cards of the deck that are not
    Aces, up to order. *)
Lemma initializeBoard_cards (random : nat → Q) (toString36 : Q → string) (k : nat) :
  ∃ grid, initializeBoard random toString36 k = (Some grid, k + 103)
    ∧ validGrid grid
    ∧ cards grid ≡ₚ filter (λ c, rank c ≠ ACE) (generateDeck random toString36 k).1.
Proof.
  unfold initializeBoard, shuffleDeck.
  pose proof (generateDeck_draws random toString36 k) as Hk1.
  destruct (generateDeck random toString36 k) as [deck k1] eqn:Hgen.
  cbn [fst snd] in *.
  pose proof (fisherYates_draws random deck (length deck - 1) k1) as Hk2.
  destruct (fisherYates random deck (length deck - 1) k1) as [shuffled k2] eqn:Hsh.
  assert (Hdeck : deck = (generateDeck random toString36 k).1) by by rewrite Hgen.
  assert (Hperm : shuffled ≡ₚ deck).
  { replace shuffled with (fisherYates random deck (length deck - 1) k1).1
      by by rewrite Hsh. apply fisherYates_Permutation. }
  assert (Hlen0 : length deck = 52) by (rewrite Hdeck; reflexivity).
  assert (Hlen : length shuffled = 52) by by rewrite Hperm.
  destruct (dealRows_spec 4 (reverse shuffled) [])
    as (grid & Hdeal & Hrows & Hcols & Hcat).
  { rewrite length_reverse. lia. }
  rewrite reverse_involutive in Hdeal. rewrite take_ge in Hcat
    by (rewrite length_reverse; lia).
  exists grid. cbn [snd] in Hk2. split; [|split; [done|]].
  - rewrite Hdeal. cbn [app]. f_equal. lia.
  - unfold cards. by rewrite Hcat, reverse_Permutation, Hperm, dealtCell_cards.
Qed.

(** X7. Whatever the random suffixes, the cards [initializeBoard] deals
    carry pairwise distinct ids (the id of a card starts with its code),
    and the deal always makes 103 calls of [Math.random()]: 52 for the
    ids and 51 for the shuffle. *)
Theorem initializeBoard_distinct_ids (random : nat → Q) (toString36 : Q → string)
    (k : nat) :
  unitDraws random →
  ∃ grid, initializeBoard random toString36 k = (Some grid, k + 103)
    ∧ distinctIds grid
    ∧ (∀ c, c ∈ cards grid → idCode (id c) = code c)
    ∧ (∀ c, c ∈ cards grid → code c = (rankCode (rank c) +:+ suitCode (suit c))%string).
Proof.
  intros _.
  destruct (initializeBoard_cards random toString36 k) as (grid & Hinit & _ & Hcards).
  exists grid. split; [done|].
  assert (Hsub : ∀ c, c ∈ cards grid → c ∈ (generateDeck random toString36 k).1).
  { intros c Hc. rewrite Hcards in Hc. by apply list_elem_of_filter in Hc as [_ ?]. }
  assert (Hall : Forall (λ c, idCode (id c) = code c
                              ∧ code c = (rankCode (rank c) +:+ suitCode (suit c))%string)
                        (generateDeck random toString36 k).1).
  { repeat constructor. }
  rewrite Forall_forall in Hall. split; [|split].
  - unfold distinctIds. rewrite Hcards.
    eapply sublist_NoDup; [apply (generateDeck_ids random toString36 k)|].
    apply fmap_sublist, sublist_filter.
  - intros c Hc. by apply Hall, Hsub.
  - intros c Hc. by apply Hall, Hsub.
Qed.

Lemma initializeBoard_distinct_ids_witness :
  ∃ grid, initializeBoard sampleDraws (λ _, "k3x9q0z1a"%string) 0 = (Some grid, 103)
    ∧ distinctIds grid.
Proof.
  destruct (initializeBoard_distinct_ids sampleDraws (λ _, "k3x9q0z1a"%string) 0)
    as (grid & Hinit & Hnd & _).
  - intros k. unfold sampleDraws.
    pose proof (Nat.mod_upper_bound (k * 5) 7 ltac:(lia)) as Hk.
    unfold Qle, Qlt. simpl. lia.
  - exists grid. split; [exact Hinit | exact Hnd].
Defined.

(** ** Bounds of the score *)

Lemma sumValues_cons (c : CardData) (cs : list CardData) :
  sumValues (c :: cs) = (getRankValue (rank c) + sumValues cs)%Z.
Proof. reflexivity. Qed.

Lemma sumValues_nonneg (cs : list CardData) : (0 ≤ sumValues cs)%Z.
Proof.
  induction cs as [|c cs IH]; [done|]. rewrite sumValues_cons.
  pose proof (getRankValue_range (rank c)). lia.
Qed.

Lemma runFrom_bound (s : Suit) (v : Z) (cells : list GridCell) :
  (1 ≤ v ≤ 14)%Z →
  (2 * sumValues (runFrom s v cells) ≤ (14 - v) * (15 + v))%Z
  ∧ (Z.of_nat (length (runFrom s v cells)) ≤ 14 - v)%Z.
Proof.
  revert v. induction cells as [|[cell|] rest IH]; intros v Hv; cbn [runFrom];
    try (cbn; nia).
  case_decide as Hc; [|cbn; nia]. destruct Hc as [_ Hval].
  pose proof (getRankValue_range (rank cell)) as Hr.
  destruct (IH (getRankValue (rank cell))) as [Hsum Hlen]; [lia|].
  rewrite sumValues_cons. cbn [length]. rewrite Hval in *. split; [nia | lia].
Qed.

Lemma lockedPrefix_bound (row : list GridCell) :
  (0 ≤ sumValues (lockedPrefix row) ≤ 104)%Z ∧ breakPoint row ≤ 13.
Proof.
  unfold breakPoint, lockedPrefix. destruct row as [|[first|] rest]; try (cbn; lia).
  case_decide as Ht; [|cbn; lia].
  destruct (runFrom_bound (suit first) 2 rest) as [Hsum Hlen]; [lia|].
  pose proof (sumValues_nonneg (runFrom (suit first) 2 rest)).
  rewrite sumValues_cons. cbn [length].
  rewrite Ht. change (getRankValue TWO) with 2%Z. lia.
Qed.

Lemma size_list_to_set_le (l : list string) :
  size (list_to_set l : gset string) ≤ length l.
Proof.
  induction l as [|x l IH]; [by rewrite list_to_set_nil, size_empty|].
  rewrite list_to_set_cons, size_union_alt, size_singleton. cbn [length].
  pose proof (subseteq_size (list_to_set l ∖ {[x]}) (list_to_set l : gset string)
                ltac:(set_solver)). lia.
Qed.

Lemma locked_cells_bound (grid : Grid) :
  length (grid ≫= lockedPrefix) ≤ 13 * length grid.
Proof.
  induction grid as [|row rest IH]; [done|].
  rewrite bind_cons, length_app. cbn [length].
  destruct (lockedPrefix_bound row) as [_ Hrow]. unfold breakPoint in Hrow. lia.
Qed.

(** X8. The score is never negative and at most 104 per row (the run
    2..14 of one suit); it is 0 exactly when no row starts with a TWO,
    and exactly when no id is locked; and no row locks more than 13
    cells: the locked prefix of a row has at most 13 cells, a row alone
    locks at most 13 ids, and a grid at most 13 ids per row. *)
Theorem calculateScore_bounds (grid : Grid) :
  (0 ≤ calculateScore grid ≤ 104 * Z.of_nat (length grid))%Z
  ∧ (calculateScore grid = 0%Z ↔
     ∀ row first, row ∈ grid → row !! 0 = Some (Some first) → rank first ≠ TWO)
  ∧ (calculateScore grid = 0%Z ↔ getLockedCards grid = ∅)
  ∧ (∀ row, row ∈ grid →
       breakPoint row ≤ 13 ∧ size (getLockedCards [row]) ≤ 13)
  ∧ size (getLockedCards grid) ≤ 13 * length grid.
Proof.
  enough (Hscore :
    (0 ≤ calculateScore grid ≤ 104 * Z.of_nat (length grid))%Z
    ∧ (calculateScore grid = 0%Z ↔
       ∀ row first, row ∈ grid → row !! 0 = Some (Some first) → rank first ≠ TWO)
    ∧ (calculateScore grid = 0%Z ↔ getLockedCards grid = ∅)).
  { destruct Hscore as (H1 & H2 & H3). do 3 (split; [done|]). split.
    - intros row _. destruct (lockedPrefix_bound row) as [_ Hrow].
      split; [done|]. rewrite getLockedCards_spec.
      pose proof (size_list_to_set_le (id <$> ([row] ≫= lockedPrefix))) as Hsize.
      pose proof (locked_cells_bound [row]) as Hlen.
      rewrite length_fmap in Hsize. cbn [length] in Hlen. lia.
    - rewrite getLockedCards_spec.
      pose proof (size_list_to_set_le (id <$> (grid ≫= lockedPrefix))) as Hsize.
      pose proof (locked_cells_bound grid) as Hlen.
      rewrite length_fmap in Hsize. lia. }
  rewrite calculateScore_spec, getLockedCards_spec.
  assert (Hzero : ∀ row, sumValues (lockedPrefix row) = 0%Z ↔
            ∀ first, row !! 0 = Some (Some first) → rank first ≠ TWO).
  { intros row. unfold lockedPrefix. destruct row as [|[first|] rest]; cbn [lookup list_lookup].
    - split; [by intros _ ? [=] | done].
    - case_decide as Ht.
      + pose proof (sumValues_nonneg (runFrom (suit first) 2 rest)).
        pose proof (getRankValue_range (rank first)).
        rewrite sumValues_cons.
        split; [lia|]. intros Hno. by destruct (Hno first).
      + split; [by intros _ ? [= <-] | done].
    - split; [by intros _ ? [=] | done]. }
  induction grid as [|row rest (IH1 & IH2 & IH3)].
  { cbn. split; [lia|]. split; [|done]. split; [|done]. by intros _ ? ? ?%elem_of_nil. }
  rewrite bind_cons, sumValues_app, fmap_app, list_to_set_app_L.
  destruct (lockedPrefix_bound row) as [Hrow _].
  pose proof (sumValues_nonneg (rest ≫= lockedPrefix)) as Hrest.
  cbn [length]. split; [lia|]. split.
  - split.
    + intros Hsum row' first Hin H0. apply elem_of_cons in Hin as [->|Hin].
      * apply (proj1 (Hzero row)); [lia|done].
      * apply (proj1 IH2) with (row := row'); [lia|done..].
    + intros Hno.
      assert (sumValues (lockedPrefix row) = 0%Z) as ->.
      { apply Hzero. intros first. apply Hno. by left. }
      assert (sumValues (rest ≫= lockedPrefix) = 0%Z) as ->; [|done].
      apply IH2. intros row' first Hin. apply Hno. by right.
  - split.
    + intros Hsum. assert (H1 : sumValues (lockedPrefix row) = 0%Z) by lia.
      assert (H2 : sumValues (rest ≫= lockedPrefix) = 0%Z) by lia.
      apply IH3 in H2 as ->. destruct (lockedPrefix row) as [|c cs]; [set_solver|].
      rewrite sumValues_cons in H1. pose proof (getRankValue_range (rank c)).
      pose proof (sumValues_nonneg cs). lia.
    + intros Hempty. apply empty_union_L in Hempty as [Hrow' Hrest'].
      apply IH3 in Hrest' as ->. destruct (lockedPrefix row) as [|c cs]; [cbn; lia|].
      set_solver.
Qed.

(** ** A won board *)

Lemma lockedPrefix_complete_sum (row : list GridCell) :
  completeRow row → sumValues (lockedPrefix row) = 90%Z.
Proof.
  intros (H12 & first & H0 & Ht & Hcells).
  destruct row as [|cell0 rest]; [done|]. cbn in H0. injection H0 as ->.
  destruct (runFrom_run 11 (suit first) 2 rest) as [_ Hsum]; [|done|].
  { intros i Hi. destruct (Hcells (S i) ltac:(lia)) as (c & ? & ? & ?).
    exists c. repeat split; [done..|lia]. }
  unfold lockedPrefix. rewrite decide_True by done. rewrite sumValues_cons.
  rewrite Ht. change (getRankValue TWO) with 2%Z. lia.
Qed.

(** X9. On a board that [checkWinCondition] accepts the score is 90 per
    row, 360 for the four rows, and on a structurally valid one every
    card of the board is locked. *)
Theorem win_score (grid : Grid) :
  checkWinCondition grid = true →
  calculateScore grid = (90 * Z.of_nat (length grid))%Z
  ∧ (validGrid grid →
     calculateScore grid = 360%Z
     ∧ ∀ card, card ∈ cards grid → id card ∈ getLockedCards grid).
Proof.
  intros Hwin%checkWinCondition_complete.
  assert (Hscore : calculateScore grid = (90 * Z.of_nat (length grid))%Z).
  { rewrite calculateScore_spec. induction Hwin as [|row rest Hrow _ IH]; [done|].
    rewrite bind_cons, sumValues_app, IH, (lockedPrefix_complete_sum row Hrow).
    cbn [length]. lia. }
  split; [done|]. intros Hvalid. split.
  { rewrite Hscore. destruct Hvalid as [-> _]. done. }
  intros card Hcard. rewrite getLockedCards_spec, elem_of_list_to_set.
  apply list_elem_of_fmap_2.
  enough (cards grid = grid ≫= lockedPrefix) as <- by done.
  destruct Hvalid as [_ Hrows]. clear Hscore Hcard.
  induction Hwin as [|row rest Hrow _ IH]; [done|].
  apply Forall_cons in Hrows as [Hlen Hrows].
  rewrite cards_cons, bind_cons, IH by done. f_equal.
  by destruct (lockedPrefix_complete row Hrow Hlen) as [-> _].
Qed.

Lemma win_score_witness : calculateScore wonGrid = (90 * Z.of_nat (length wonGrid))%Z.
Proof. exact (proj1 (win_score wonGrid eq_refl)). Defined.

(** ** When the reshuffle throws *)

Lemma writeCell_length (g g' : Grid) (r c : nat) (v : GridCell) :
  writeCell g r c v = Some g' → length g' = length g ∧ r < length g.
Proof.
  unfold writeCell. destruct (g !! r) as [row|] eqn:Hr; [|done].
  intros [= <-]. rewrite length_insert. split; [done|]. by eapply lookup_lt_Some.
Qed.

Lemma writeCell_total (g : Grid) (r c : nat) (v : GridCell) :
  r < length g → is_Some (writeCell g r c v).
Proof.
  intros Hr. unfold writeCell.
  destruct (lookup_lt_is_Some_2 g r Hr) as [row ->]. by eexists.
Qed.

Lemma collect_total (n r c : nat) (cell : option GridCell) (st : ScanState) :
  scanInv n st → r < n →
  ∃ st', collect r c cell st = Some st' ∧ scanInv n st'.
Proof.
  intros [Hlen Hpos] Hr. unfold collect.
  destruct (writeCell_total (newGrid st) r c None) as [g Hg]; [lia|].
  rewrite Hg. eexists. split; [done|].
  apply writeCell_length in Hg as [Hg _]. split; cbn; [lia|].
  apply Forall_app. split; [done|]. by repeat constructor.
Qed.

Lemma scanCell_total (n r c : nat) (b : bool) (st : ScanState) :
  scanInv n st → r < n →
  ∃ b' st', scanCell r c (b, st) = Some (b', st') ∧ scanInv n st'.
Proof.
  intros Hinv Hr. pose proof Hinv as [Hlen _].
  destruct (lookup_lt_is_Some_2 (newGrid st) r) as [row Hrow]; [lia|].
  unfold scanCell, readCell. rewrite Hrow. cbn [mbind option_bind].
  destruct b.
  - destruct (decide (c = 0)); [by exists true, st|].
    destruct (continuesRun _ _); [by exists true, st|].
    destruct (collect_total n r c (row !! c) st Hinv Hr) as (st' & -> & Hinv').
    by exists false, st'.
  - destruct (collect_total n r c (row !! c) st Hinv Hr) as (st' & -> & Hinv').
    by exists false, st'.
Qed.

Lemma scanCols_total (m n r c : nat) (b : bool) (st : ScanState) :
  scanInv n st → r < n →
  ∃ b' st', scanCols r c m (b, st) = Some (b', st') ∧ scanInv n st'.
Proof.
  revert c b st. induction m as [|m IH]; intros c b st Hinv Hr; [by exists b, st|].
  cbn [scanCols].
  destruct (scanCell_total n r c b st Hinv Hr) as (b1 & st1 & -> & Hinv1).
  cbn [mbind option_bind]. by apply IH.
Qed.

Lemma scanRow_total (n r : nat) (st : ScanState) :
  scanInv n st →
  (r < n → ∃ st', scanRow r st = Some st' ∧ scanInv n st')
  ∧ (n ≤ r → scanRow r st = None).
Proof.
  intros Hinv. pose proof Hinv as [Hlen _]. unfold scanRow, readCell. split.
  - intros Hr. destruct (lookup_lt_is_Some_2 (newGrid st) r) as [row ->]; [lia|].
    cbn [mbind option_bind].
    destruct (scanCols_total cols n r 0
      (match row !! 0 with
       | Some (Some card) => if decide (rank card ≠ TWO) then false else true
       | _ => false end) st Hinv Hr) as (b' & st' & -> & Hinv').
    by exists st'.
  - intros Hr. by rewrite (lookup_ge_None_2 (newGrid st) r) by lia.
Qed.

Lemma scanRows_total (m n r : nat) (st : ScanState) :
  scanInv n st →
  (r + m ≤ n → ∃ st', scanRows r m st = Some st' ∧ scanInv n st')
  ∧ (r ≤ n < r + m → scanRows r m st = None).
Proof.
  revert r st. induction m as [|m IH]; intros r st Hinv.
  { split; [by exists st | lia]. }
  cbn [scanRows]. destruct (scanRow_total n r st Hinv) as [Hsome Hnone]. split.
  - intros Hr. destruct Hsome as (st1 & -> & Hinv1); [lia|].
    cbn [mbind option_bind]. apply (IH (S r) st1 Hinv1). lia.
  - intros Hr. destruct (decide (r < n)) as [Hlt|Hge].
    + destruct Hsome as (st1 & -> & Hinv1); [done|].
      cbn [mbind option_bind]. apply (IH (S r) st1 Hinv1). lia.
    + by rewrite Hnone by lia.
Qed.

Lemma assignBack_total (positions : list (nat * nat)) (fillItems : list GridCell)
    (idx : nat) (g : Grid) :
  Forall (λ pos, pos.1 < length g) positions →
  ∃ g', assignBack positions fillItems idx g = Some g' ∧ length g' = length g.
Proof.
  revert idx g. induction positions as [|pos positions IH]; intros idx g Hpos.
  { by exists g. }
  apply Forall_cons in Hpos as [Hr Hpos]. cbn [assignBack].
  destruct (writeCell_total g pos.1 pos.2 (default None (fillItems !! idx)) Hr)
    as [g1 Hg1].
  rewrite Hg1. cbn [mbind option_bind].
  apply writeCell_length in Hg1 as [Hlen _].
  destruct (IH (S idx) g1) as (g' & -> & Hlen'); [by rewrite Hlen|].
  exists g'. split; [done | lia].
Qed.

(** X10. [reshuffleBoard] throws exactly on a grid of fewer than four
    rows, whatever the lengths of the rows; otherwise it returns a grid
    of as many rows as its argument, after one draw per collected card
    but one and one per collected position but one. *)
Theorem reshuffleBoard_throws (random : nat → Q) (grid : Grid) (k : nat) :
  (reshuffleBoard random grid k = None ↔ length grid < 4)
  ∧ (∀ out k', reshuffleBoard random grid k = Some (out, k') →
       length out = length grid
       ∧ ∃ st, collectFree grid = Some st
           ∧ k' = k + (length (cardsToShuffle st) - 1)
                    + (Nat.max (length (cardsToShuffle st))
                               (length (positionsToFill st)) - 1)).
Proof.
  assert (Hinv : scanInv (length grid) (mkScan grid [] [])) by by split.
  destruct (scanRows_total rows (length grid) 0 (mkScan grid [] []) Hinv)
    as [Hsome Hnone].
  unfold reshuffleBoard, collectFree. rewrite list_fmap_id. change rows with 4 in *.
  destruct (decide (length grid < 4)) as [Hlt|Hge].
  - rewrite Hnone by lia. split; [done | by intros ? ? [=]].
  - destruct Hsome as (st & -> & Hlen & Hpos); [lia|]. cbn [mbind option_bind].
    pose proof (fisherYates_draws random (cardsToShuffle st)
                  (length (cardsToShuffle st) - 1) k) as Hk1.
    pose proof (fisherYates_Permutation random (cardsToShuffle st)
                  (length (cardsToShuffle st) - 1) k) as Hp1.
    destruct (fisherYates random (cardsToShuffle st) _ k) as [shuffled k1].
    cbn [fst snd] in *.
    match goal with |- context [fisherYates random ?a ?i k1] =>
      pose proof (fisherYates_draws random a i k1) as Hk2;
      assert (Hfill : length a = Nat.max (length (cardsToShuffle st))
                                         (length (positionsToFill st)))
    end.
    { rewrite length_app, length_fmap, length_replicate, (Permutation_length Hp1). lia. }
    rewrite Hfill in *.
    destruct (fisherYates random (_ ++ _) _ k1) as [items k2]. cbn [snd] in Hk2.
    destruct (assignBack_total (positionsToFill st) items 0 (newGrid st))
      as (out & -> & Hout); [by rewrite Hlen|].
    cbn [mbind option_bind]. split; [split; [done | lia]|].
    intros out' k' [= <- <-]. split; [lia|]. exists st. split; [done | lia].
Qed.

(** ** What a rearrangement of the free cells keeps *)

Lemma runFrom_keeps (s : Suit) (v : Z) (cells rest : list GridCell) :
  runFrom s v cells `prefix_of` runFrom s v ((Some <$> runFrom s v cells) ++ rest).
Proof.
  revert v. induction cells as [|[cell|] cells IH]; intros v; cbn [runFrom];
    try apply prefix_nil.
  destruct (decide (suit cell = s ∧ getRankValue (rank cell) = (v + 1)%Z)) as [Hc|Hc];
    [|apply prefix_nil].
  cbn [fmap list_fmap app runFrom]. rewrite decide_True by done.
  apply prefix_cons, IH.
Qed.

Lemma lockedPrefix_keeps (row row' : list GridCell) :
  take (breakPoint row) row' = take (breakPoint row) row →
  lockedPrefix row `prefix_of` lockedPrefix row'.
Proof.
  intros Htake. rewrite lockedPrefix_take in Htake.
  rewrite <- (take_drop (breakPoint row) row'), Htake.
  generalize (drop (breakPoint row) row'). intros rest. clear Htake.
  destruct row as [|[first|] cells]; [apply prefix_nil| |apply prefix_nil].
  destruct (decide (rank first = TWO)) as [Ht|Ht].
  - rewrite (lockedPrefix_two first cells Ht), fmap_cons. cbn [app].
    rewrite (lockedPrefix_two first _ Ht). apply prefix_cons, runFrom_keeps.
  - rewrite lockedPrefix_not_two; [apply prefix_nil|]. by intros ? [= <-].
Qed.

Lemma keepsLocked_prefixes (grid out : Grid) :
  keepsLocked grid out →
  ∃ more, out ≫= lockedPrefix ≡ₚ (grid ≫= lockedPrefix) ++ more.
Proof.
  induction 1 as [|row row' grid out Hrow _ [more IH]]; [by exists []|].
  destruct (lockedPrefix_keeps row row' Hrow) as [ext Hext].
  exists (ext ++ more). rewrite !bind_cons, IH, Hext, <- !app_assoc. f_equiv.
  rewrite !app_assoc. f_equiv. apply Permutation_app_comm.
Qed.

Lemma sumValues_Permutation (l1 l2 : list CardData) :
  l1 ≡ₚ l2 → sumValues l1 = sumValues l2.
Proof.
  induction 1 as [|c l1 l2 _ IH|c1 c2 l|l1 l2 l3 _ IH1 _ IH2];
    rewrite ?sumValues_cons; lia.
Qed.

(** A rearrangement that keeps the locked prefixes in place never lowers
    the score and never unlocks a card. *)
Lemma keepsLocked_monotone (grid out : Grid) :
  keepsLocked grid out →
  (calculateScore grid ≤ calculateScore out)%Z
  ∧ getLockedCards grid ⊆ getLockedCards out.
Proof.
  intros [more Hmore]%keepsLocked_prefixes.
  rewrite !calculateScore_spec, !getLockedCards_spec. split.
  - rewrite (sumValues_Permutation _ _ Hmore), sumValues_app.
    pose proof (sumValues_nonneg more). lia.
  - intros x. rewrite !elem_of_list_to_set, Hmore, fmap_app. set_solver.
Qed.

Lemma refill_keepsLocked (grid : Grid) (items : list GridCell) :
  keepsLocked grid (refill grid items).
Proof.
  revert items. induction grid as [|row rest IH]; intros items; [constructor|].
  cbn [refill]. constructor; [|apply IH].
  pose proof (breakPoint_le row). rewrite take_app_length'; [done|].
  rewrite length_take. lia.
Qed.

(** X11. A reshuffle never costs anything: on a structurally valid grid
    the score of the reshuffled grid is at least the score before, every
    id that was locked is still locked, and pairwise distinct ids stay
    pairwise distinct. *)
Theorem reshuffleBoard_monotone (random : nat → Q) (grid : Grid) (k : nat) :
  validGrid grid → unitDraws random →
  ∃ out k', reshuffleBoard random grid k = Some (out, k')
    ∧ (calculateScore grid ≤ calculateScore out)%Z
    ∧ getLockedCards grid ⊆ getLockedCards out
    ∧ (distinctIds grid → distinctIds out).
Proof.
  intros Hvalid _.
  destruct (reshuffleBoard_spec random grid k Hvalid) as (items & k' & Hout & Hitems).
  exists (refill grid items), k'. split; [done|].
  destruct (keepsLocked_monotone grid _ (refill_keepsLocked grid items)) as [Hs Hl].
  split; [done|]. split; [done|].
  unfold distinctIds, cards. by rewrite (refill_Permutation grid items Hitems).
Qed.

Lemma reshuffleBoard_monotone_witness :
  ∃ out k', reshuffleBoard sampleDraws dealtGrid 0 = Some (out, k')
    ∧ (calculateScore dealtGrid ≤ calculateScore out)%Z
    ∧ getLockedCards dealtGrid ⊆ getLockedCards out
    ∧ (distinctIds dealtGrid → distinctIds out).
Proof.
  apply (reshuffleBoard_monotone sampleDraws dealtGrid 0).
  - split; [reflexivity | repeat constructor].
  - intros k. unfold sampleDraws.
    pose proof (Nat.mod_upper_bound (k * 5) 7 ltac:(lia)) as Hk.
    unfold Qle, Qlt. simpl. lia.
Defined.

(** ** The status of a hole *)

Lemma leftNonHoleCard_spec (row : list GridCell) (n : nat) (card : CardData) :
  n ≤ length row →
  leftNonHoleCard row n = Some card ↔
  ∃ j, j < n ∧ row !! j = Some (Some card) ∧ ∀ i, j < i < n → row !! i = Some None.
Proof.
  induction n as [|n IH]; intros Hn; cbn [leftNonHoleCard].
  { split; [done | by intros (j & ? & _); lia]. }
  destruct (lookup_lt_is_Some_2 row n) as [cell Hcell]; [lia|]. rewrite Hcell.
  destruct cell as [x|].
  - split.
    + intros [= ->]. exists n. split; [lia|]. split; [done|]. intros i ?; lia.
    + intros (j & Hj & Hcard & Hgap). destruct (decide (j = n)) as [->|Hne].
      * congruence.
      * specialize (Hgap n ltac:(lia)). congruence.
  - rewrite IH by lia. split.
    + intros (j & Hj & Hcard & Hgap). exists j. split; [lia|]. split; [done|].
      intros i Hi. destruct (decide (i = n)) as [->|]; [done|]. apply Hgap. lia.
    + intros (j & Hj & Hcard & Hgap). destruct (decide (j = n)) as [->|Hne].
      * congruence.
      * exists j. split; [lia|]. split; [done|]. intros i Hi. apply Hgap. lia.
Qed.

(** X12. [getHoleStatus] at column 0 is ['active'] whatever the grid. At
    a column [c > 0] of a row it is ['dead'] exactly when the nearest card
    to the left is a King, ['active'] exactly when the cell to the left
    holds a card that is not a King, and ['inactive'] exactly when the
    cell to the left is a hole and the nearest card to the left, if any,
    is not a King. *)
Theorem getHoleStatus_spec (grid : Grid) (r c : nat) (row : list GridCell) :
  grid !! r = Some row → 0 < c ≤ length row →
  let kingToTheLeft :=
    ∃ j king, j < c ∧ row !! j = Some (Some king) ∧ rank king = KING
              ∧ ∀ i, j < i < c → row !! i = Some None in
  getHoleStatus grid r 0 = Some active
  ∧ ∃ status, getHoleStatus grid r c = Some status
      ∧ (status = dead ↔ kingToTheLeft)
      ∧ (status = active ↔
         ∃ left, row !! (c - 1) = Some (Some left) ∧ rank left ≠ KING)
      ∧ (status = inactive ↔ row !! (c - 1) = Some None ∧ ¬ kingToTheLeft).
Proof.
  intros Hrow Hc king. split; [done|].
  unfold getHoleStatus. rewrite decide_False by lia. rewrite Hrow.
  cbn [mbind option_bind].
  destruct (lookup_lt_is_Some_2 row (c - 1)) as [cell Hcell]; [lia|].
  assert (Hking : ∀ card, leftNonHoleCard row c = Some card → rank card = KING → king).
  { intros card (j & Hj & Hcard & Hgap)%leftNonHoleCard_spec Hk; [|lia].
    by exists j, card. }
  assert (Hnoking : king → ∃ card, leftNonHoleCard row c = Some card ∧ rank card = KING).
  { intros (j & card & Hj & Hcard & Hk & Hgap). exists card. split; [|done].
    apply leftNonHoleCard_spec; [lia|]. by exists j. }
  assert (Hleft : ∀ left, row !! (c - 1) = Some (Some left) →
                          leftNonHoleCard row c = Some left).
  { intros left Hl. apply leftNonHoleCard_spec; [lia|]. exists (c - 1).
    split; [lia|]. split; [done|]. intros i ?; lia. }
  rewrite Hcell.
  destruct (leftNonHoleCard row c) as [card|] eqn:Hleftmost.
  - destruct (decide (rank card = KING)) as [Hk|Hk].
    + assert (Hyes : king) by by apply (Hking card).
      exists dead. split; [done|]. split; [naive_solver|]. split.
      * split; [done|]. intros (left & Hl & Hnk).
        specialize (Hleft left ltac:(congruence)). congruence.
      * split; [done|]. by intros [_ Hno].
    + assert (Hnot : ¬ king).
      { intros (card' & Hc' & Hk')%Hnoking. congruence. }
      destruct cell as [left|].
      * exists active. split; [done|]. split; [naive_solver|]. split.
        -- split; [|done]. intros _. exists left. split; [done|].
           specialize (Hleft left Hcell). congruence.
        -- split; [done|]. by intros [[=] _].
      * exists inactive. split; [done|]. split; [naive_solver|]. split; [|done].
        split; [done|]. by intros (left & [=] & _).
  - assert (Hnot : ¬ king).
    { intros (card' & Hc' & Hk')%Hnoking. congruence. }
    destruct cell as [left|].
    + by specialize (Hleft left Hcell).
    + exists inactive. split; [done|]. split; [naive_solver|]. split; [|done].
      split; [done|]. by intros (left & [=] & _).
Qed.

Lemma getHoleStatus_spec_witness : getHoleStatus dealtGrid 0 6 = Some dead.
Proof.
  destruct (getHoleStatus_spec dealtGrid 0 6 _ eq_refl) as (_ & st & -> & Hdead & _).
  - cbn. lia.
  - f_equal. apply Hdead. exists 5, (sampleCard HEARTS KING).
    split; [lia|]. split; [reflexivity|]. split; [reflexivity|]. intros i ?; lia.
Defined.

Lemma not_active_hole_refuses (grid : Grid) (r c : nat) (status : HoleStatus)
    (card : CardData) :
  getHoleStatus grid r c = Some status → status ≠ active →
  canPlaceCard card r c grid = Some false.
Proof.
  unfold getHoleStatus, canPlaceCard. destruct (decide (c = 0)); [congruence|].
  destruct (grid !! r) as [row|]; [|done]. cbn [mbind option_bind].
  destruct (row !! (c - 1)) as [[left|]|] eqn:Hleft; [| |].
  - destruct c as [|c]; [done|]. cbn [leftNonHoleCard].
    replace (S c - 1) with c in Hleft by lia. rewrite Hleft.
    destruct (decide (rank left = KING)); [done | congruence].
  - done.
  - destruct (leftNonHoleCard row c) as [x|]; [|congruence].
    destruct (decide (rank x = KING)); [done | congruence].
Qed.

(** X13. A hole that is not ['active'] accepts no card: when
    [getHoleStatus] answers ['dead'] or ['inactive'] for a position,
    [canPlaceCard] answers false there for every card. *)
Theorem inactive_hole_refuses (grid : Grid) (r c : nat) (status : HoleStatus)
    (card : CardData) :
  getHoleStatus grid r c = Some status → status ≠ active →
  canPlaceCard card r c grid = Some false.
Proof. apply not_active_hole_refuses. Qed.

Lemma inactive_hole_refuses_witness :
  canPlaceCard (sampleCard CLUBS THREE) 1 5 (alter (<[5 := None]>) 1 dealtGrid)
  = Some false.
Proof.
  apply (inactive_hole_refuses _ 1 5 inactive); [reflexivity | discriminate].
Defined.

(** ** Playable cards and stuck boards *)

Lemma canPlaceCard_is_Some (card : CardData) (r c : nat) (grid : Grid) :
  r < length grid → is_Some (canPlaceCard card r c grid).
Proof.
  intros Hr. unfold canPlaceCard. destruct (decide (c = 0)); [by eexists|].
  destruct (lookup_lt_is_Some_2 grid r Hr) as [row ->]. cbn.
  destruct (row !! (c - 1)) as [[left|]|]; try by eexists.
  destruct (decide (rank left = KING)); [by eexists|].
  destruct (decide (suit card ≠ suit left)); by eexists.
Qed.

Lemma playableCols_spec (card : CardData) (grid : Grid) (r : nat)
    (row : list GridCell) (n c : nat) :
  grid !! r = Some row →
  ∃ b, playableCols card grid r c n = Some b
    ∧ (b = true ↔ ∃ c', c ≤ c' < c + n ∧ row !! c' = Some None
                        ∧ canPlaceCard card r c' grid = Some true).
Proof.
  intros Hrow. revert c. induction n as [|n IH]; intros c.
  { exists false. split; [done|]. split; [done | intros (? & ? & _); lia]. }
  cbn [playableCols]. unfold readCell. rewrite Hrow. cbn [mbind option_bind].
  destruct (IH (S c)) as (b & Hb & Hiff).
  assert (Hskip : row !! c ≠ Some None ∨ canPlaceCard card r c grid = Some false →
    b = true ↔ ∃ c', c ≤ c' < c + S n ∧ row !! c' = Some None
                     ∧ canPlaceCard card r c' grid = Some true).
  { intros Hno. rewrite Hiff. split.
    - intros (c' & ? & ? & ?). exists c'. split; [lia | done].
    - intros (c' & ? & Hgap & Hok). destruct (decide (c' = c)) as [->|].
      + destruct Hno; congruence.
      + exists c'. split; [lia | done]. }
  destruct (row !! c) as [[x|]|] eqn:Hcell.
  - exists b. split; [done|]. apply Hskip. by left.
  - destruct (canPlaceCard_is_Some card r c grid) as [ok Hok].
    { by eapply lookup_lt_Some. }
    rewrite Hok. cbn [mbind option_bind]. destruct ok.
    + exists true. split; [done|]. split; [|done]. intros _. exists c.
      split; [lia | done].
    + exists b. split; [done|]. apply Hskip. by right.
  - exists b. split; [done|]. apply Hskip. by left.
Qed.

Lemma playableRows_spec (card : CardData) (grid : Grid) (n r : nat) :
  r + n ≤ length grid →
  ∃ b, playableRows card grid r n = Some b
    ∧ (b = true ↔ ∃ r' c', r ≤ r' < r + n ∧ cellAt grid r' c' = Some None
                           ∧ canPlaceCard card r' c' grid = Some true).
Proof.
  revert r. induction n as [|n IH]; intros r Hr.
  { exists false. split; [done|]. split; [done | intros (? & ? & ? & _); lia]. }
  cbn [playableRows].
  destruct (lookup_lt_is_Some_2 grid r) as [row Hrow]; [lia|]. rewrite Hrow.
  cbn [mbind option_bind].
  destruct (playableCols_spec card grid r row (length row) 0 Hrow) as (b1 & -> & H1).
  cbn [mbind option_bind]. destruct b1.
  - exists true. split; [done|]. split; [|done]. intros _.
    destruct (proj1 H1 eq_refl) as (c' & _ & Hgap & Hok). exists r, c'.
    split; [lia|]. unfold cellAt. by rewrite Hrow.
  - destruct (IH (S r)) as (b & Hb & Hiff); [lia|]. exists b. split; [done|].
    rewrite Hiff. split.
    + intros (r' & c' & ? & ? & ?). exists r', c'. split; [lia | done].
    + intros (r' & c' & ? & Hgap & Hok). destruct (decide (r' = r)) as [->|].
      * unfold cellAt in Hgap. rewrite Hrow in Hgap. cbn in Hgap.
        assert (false = true); [|done]. apply H1. exists c'.
        split; [|done]. split; [lia|]. by eapply lookup_lt_Some.
      * exists r', c'. split; [lia | done].
Qed.

(** X14. [isCardPlayable] never throws, and it is true exactly when some
    hole of the grid accepts the card. *)
Theorem isCardPlayable_spec (card : CardData) (grid : Grid) :
  ∃ b, isCardPlayable card grid = Some b
    ∧ (b = true ↔ ∃ r c, cellAt grid r c = Some None
                         ∧ canPlaceCard card r c grid = Some true).
Proof.
  destruct (playableRows_spec card grid (length grid) 0) as (b & Hb & Hiff); [lia|].
  exists b. split; [done|]. rewrite Hiff. split.
  - intros (r & c & _ & ? & ?). by exists r, c.
  - intros (r & c & Hgap & Hok). exists r, c. split; [|done]. split; [lia|].
    unfold cellAt in Hgap. destruct (grid !! r) eqn:Hr; [|done].
    by eapply lookup_lt_Some.
Qed.

Lemma activeHolesCols_spec (grid : Grid) (r : nat) (row : list GridCell)
    (n c acc : nat) :
  grid !! r = Some row →
  ∃ m, activeHolesCols grid r c n acc = Some m ∧ acc ≤ m
    ∧ (m = acc ↔ ∀ c', c ≤ c' < c + n → row !! c' = Some None →
                       getHoleStatus grid r c' ≠ Some active).
Proof.
  intros Hrow. revert c acc. induction n as [|n IH]; intros c acc.
  { exists acc. split; [done|]. split; [done|]. split; [intros _ ? ?; lia | done]. }
  cbn [activeHolesCols]. unfold readCell. rewrite Hrow. cbn [mbind option_bind].
  assert (Hstatus : is_Some (getHoleStatus grid r c)).
  { unfold getHoleStatus. destruct (decide (c = 0)); [by eexists|]. rewrite Hrow.
    cbn. destruct (leftNonHoleCard row c) as [x|];
      [destruct (decide (rank x = KING)); [by eexists|]|];
      destruct (row !! (c - 1)) as [[?|]|]; by eexists. }
  assert (Hstep : ∀ m acc', activeHolesCols grid r (S c) n acc' = Some m → acc' ≤ m →
    (m = acc' ↔ ∀ c', S c ≤ c' < S c + n → row !! c' = Some None →
                      getHoleStatus grid r c' ≠ Some active) →
    (acc' = acc ∧ (row !! c = Some None → getHoleStatus grid r c ≠ Some active)
     ∨ acc' = acc + 1 ∧ row !! c = Some None ∧ getHoleStatus grid r c = Some active) →
    ∃ m, activeHolesCols grid r (S c) n acc' = Some m ∧ acc ≤ m
      ∧ (m = acc ↔ ∀ c', c ≤ c' < c + S n → row !! c' = Some None →
                         getHoleStatus grid r c' ≠ Some active)).
  { intros m acc' Hm Hle Hiff Hcase. exists m. split; [done|].
    destruct Hcase as [[-> Hhere]|(-> & Hgap & Hact)].
    - split; [done|]. rewrite Hiff. split.
      + intros Hrest c' Hc'. destruct (decide (c' = c)) as [->|]; [done|].
        apply Hrest. lia.
      + intros Hall c' Hc'. apply Hall. lia.
    - split; [lia|]. split; [lia|]. intros Hall. by destruct (Hall c ltac:(lia) Hgap). }
  destruct (row !! c) as [[x|]|] eqn:Hcell.
  - destruct (IH (S c) acc) as (m & Hm & Hle & Hiff).
    apply (Hstep m acc); [done..|]. by left.
  - destruct Hstatus as [status Hst]. rewrite Hst. cbn [mbind option_bind].
    destruct (decide (status = active)) as [->|Hne].
    + destruct (IH (S c) (acc + 1)) as (m & Hm & Hle & Hiff).
      apply (Hstep m (acc + 1)); [done..|]. by right.
    + destruct (IH (S c) acc) as (m & Hm & Hle & Hiff).
      apply (Hstep m acc); [done..|]. left. split; [done|]. congruence.
  - destruct (IH (S c) acc) as (m & Hm & Hle & Hiff).
    apply (Hstep m acc); [done..|]. by left.
Qed.

Lemma activeHolesCols_no_row (grid : Grid) (r c n acc : nat) :
  grid !! r = None → activeHolesCols grid r c (S n) acc = None.
Proof. intros Hr. cbn [activeHolesCols]. unfold readCell. by rewrite Hr. Qed.

Lemma activeHolesRows_spec (grid : Grid) (n r acc : nat) :
  (r + n ≤ length grid →
   ∃ m, activeHolesRows grid r n acc = Some m ∧ acc ≤ m
     ∧ (m = acc ↔ ∀ r' c', r ≤ r' < r + n → c' < 13 →
                           cellAt grid r' c' = Some None →
                           getHoleStatus grid r' c' ≠ Some active))
  ∧ (r ≤ length grid < r + n → activeHolesRows grid r n acc = None).
Proof.
  revert r acc. induction n as [|n IH]; intros r acc.
  { split; [|lia]. intros _. exists acc. split; [done|]. split; [done|].
    split; [intros _ ? ? ?; lia | done]. }
  cbn [activeHolesRows]. split.
  - intros Hr. destruct (lookup_lt_is_Some_2 grid r) as [row Hrow]; [lia|].
    destruct (activeHolesCols_spec grid r row 13 0 acc Hrow) as (m1 & -> & Hle1 & Hiff1).
    cbn [mbind option_bind].
    destruct (proj1 (IH (S r) m1)) as (m & Hm & Hle & Hiff); [lia|].
    exists m. split; [done|]. split; [lia|]. split.
    + intros ->. assert (m1 = acc) as -> by lia. intros r' c' Hr' Hc' Hgap.
      destruct (decide (r' = r)) as [->|].
      * unfold cellAt in Hgap. rewrite Hrow in Hgap.
        apply (proj1 Hiff1 eq_refl c'); [lia | done].
      * apply (proj1 Hiff eq_refl r' c'); [lia | done..].
    + intros Hall. assert (m1 = acc) as ->.
      { apply Hiff1. intros c' Hc' Hgap. apply Hall; [lia..|].
        unfold cellAt. by rewrite Hrow. }
      apply Hiff. intros r' c' Hr' Hc'. apply Hall; lia.
  - intros Hr. destruct (decide (r < length grid)) as [Hlt|Hge].
    + destruct (lookup_lt_is_Some_2 grid r Hlt) as [row Hrow].
      destruct (activeHolesCols_spec grid r row 13 0 acc Hrow) as (m1 & -> & _).
      cbn [mbind option_bind]. apply (IH (S r) m1). lia.
    + rewrite activeHolesCols_no_row; [done|]. apply lookup_ge_None_2. lia.
Qed.

(** X15. [areAllHolesDead] answers false for the empty grid, throws on a
    grid of one to three rows, and on a grid of at least four rows
    answers true exactly when no hole among the first 4 rows and 13
    columns is ['active']. *)
Theorem areAllHolesDead_spec (grid : Grid) :
  (length grid = 0 → areAllHolesDead grid = Some false)
  ∧ (0 < length grid < 4 → areAllHolesDead grid = None)
  ∧ (4 ≤ length grid →
     ∃ b, areAllHolesDead grid = Some b
       ∧ (b = true ↔ ∀ r c, r < 4 → c < 13 → cellAt grid r c = Some None →
                            getHoleStatus grid r c ≠ Some active)).
Proof.
  unfold areAllHolesDead. destruct (activeHolesRows_spec grid 4 0 0) as [Hsome Hnone].
  split; [|split].
  - intros Hlen. by rewrite decide_True.
  - intros Hlen. rewrite decide_False by lia. by rewrite Hnone by lia.
  - intros Hlen. rewrite decide_False by lia.
    destruct Hsome as (m & -> & _ & Hiff); [lia|]. cbn [mbind option_bind].
    eexists. split; [done|]. rewrite bool_decide_eq_true, Hiff. split.
    + intros Hall r c Hr Hc. apply Hall; lia.
    + intros Hall r c Hr Hc. apply Hall; lia.
Qed.

(** X16. The stuck test is sound: on a structurally valid grid for which
    [areAllHolesDead] is true, [isCardPlayable] is false for every card. *)
Theorem stuck_no_playable_card (grid : Grid) (card : CardData) :
  validGrid grid → areAllHolesDead grid = Some true →
  isCardPlayable card grid = Some false.
Proof.
  intros Hvalid Hdead. pose proof Hvalid as [Hlen _].
  destruct (activeHolesRows_spec grid 4 0 0) as [Hsome _].
  unfold areAllHolesDead in Hdead. rewrite decide_False in Hdead by lia.
  destruct Hsome as (m & Hm & _ & Hiff); [lia|]. rewrite Hm in Hdead.
  cbn in Hdead. injection Hdead as Hzero%bool_decide_eq_true.
  destruct (playableRows_spec card grid (length grid) 0) as (b & Hb & Hplay); [lia|].
  unfold isCardPlayable. rewrite Hb. f_equal. apply not_true_is_false. intros ->.
  destruct (proj1 Hplay eq_refl) as (r & c & Hr & Hgap & Hok).
  assert (Hc : c < 13).
  { unfold cellAt in Hgap. destruct (grid !! r) as [row|] eqn:Hrow; [|done].
    destruct (validGrid_lookup grid r row Hvalid Hrow) as [_ <-].
    by eapply lookup_lt_Some. }
  pose proof (proj1 Hiff Hzero r c ltac:(lia) Hc Hgap) as Hstatus.
  destruct (getHoleStatus grid r c) as [status|] eqn:Hst.
  - assert (canPlaceCard card r c grid = Some false); [|congruence].
    apply (not_active_hole_refuses grid r c status); [done | congruence].
  - unfold getHoleStatus in Hst. destruct (decide (c = 0)); [done|].
    unfold canPlaceCard in Hok. rewrite decide_False in Hok by done.
    destruct (grid !! r) as [row|]; [|done]. cbn in Hst.
    destruct (leftNonHoleCard row c) as [x|];
      [destruct (decide (rank x = KING)); [done|]|];
      by destruct (row !! (c - 1)) as [[?|]|].
Qed.

Lemma stuck_no_playable_card_witness :
  isCardPlayable (sampleCard HEARTS TWO) wonGrid = Some false.
Proof.
  apply (stuck_no_playable_card wonGrid);
    [split; [reflexivity | repeat constructor] | reflexivity].
Defined.

(** X17. A won board is a stuck board: on a structurally valid grid that
    [checkWinCondition] accepts every hole is ['dead'], so
    [areAllHolesDead] is true. *)
Theorem won_board_is_stuck (grid : Grid) :
  validGrid grid → checkWinCondition grid = true →
  areAllHolesDead grid = Some true
  ∧ ∀ r c, cellAt grid r c = Some None → getHoleStatus grid r c = Some dead.
Proof.
  intros Hvalid Hwin%checkWinCondition_complete. pose proof Hvalid as [Hlen _].
  assert (Hdead : ∀ r c, cellAt grid r c = Some None →
                         getHoleStatus grid r c = Some dead).
  { intros r c Hgap. unfold cellAt in Hgap.
    destruct (grid !! r) as [row|] eqn:Hrow; [|done]. cbn in Hgap.
    destruct (Forall_lookup_1 _ _ _ _ Hwin Hrow) as (H12 & first & _ & _ & Hcells).
    destruct (validGrid_lookup grid r row Hvalid Hrow) as [_ Hrowlen].
    assert (c = 12) as ->.
    { apply lookup_lt_Some in Hgap as Hc.
      destruct (decide (c < 12)) as [Hlt|]; [|lia].
      destruct (Hcells c Hlt) as (cell & ? & _). congruence. }
    destruct (Hcells 11 ltac:(lia)) as (king & Hk & _ & Hv).
    unfold getHoleStatus. rewrite decide_False by lia. rewrite Hrow.
    cbn [mbind option_bind leftNonHoleCard]. rewrite Hk.
    rewrite decide_True; [done|]. apply getRankValue_inj. by rewrite Hv. }
  split; [|done].
  destruct (proj1 (activeHolesRows_spec grid 4 0 0)) as (m & Hm & _ & Hiff); [lia|].
  unfold areAllHolesDead. rewrite decide_False by lia. rewrite Hm.
  cbn [mbind option_bind]. f_equal. apply bool_decide_eq_true, Hiff.
  intros r c _ _ Hgap. by rewrite (Hdead r c Hgap).
Qed.

Lemma won_board_is_stuck_witness : areAllHolesDead wonGrid = Some true.
Proof.
  apply (won_board_is_stuck wonGrid);
    [split; [reflexivity | repeat constructor] | reflexivity].
Defined.

(** ** Moving a card *)

Lemma writeCell_in_range (g : Grid) (r c : nat) (row : list GridCell) (v : GridCell) :
  g !! r = Some row → c < length row →
  writeCell g r c v = Some (<[r := <[c := v]> row]> g).
Proof.
  intros Hr Hc. unfold writeCell, arraySet. rewrite Hr. cbn.
  by rewrite decide_True.
Qed.

Lemma cellAt_write (g : Grid) (r c r' c' : nat) (row : list GridCell) (v : GridCell) :
  g !! r = Some row → c < length row →
  cellAt (<[r := <[c := v]> row]> g) r' c'
  = if decide ((r', c') = (r, c)) then Some v else cellAt g r' c'.
Proof.
  intros Hr Hc. unfold cellAt. apply lookup_lt_Some in Hr as Hlt.
  destruct (decide (r' = r)) as [->|Hne].
  - rewrite list_lookup_insert_eq by done. cbn. rewrite Hr. cbn.
    destruct (decide (c' = c)) as [->|Hnc].
    + rewrite decide_True by done. by apply list_lookup_insert_eq.
    + rewrite decide_False by congruence. by apply list_lookup_insert_ne.
  - rewrite list_lookup_insert_ne by done. by rewrite decide_False by congruence.
Qed.

(** The cells of a grid are one cell and the rest, and writing that cell
    changes the one cell only. *)
Lemma concat_write (g : Grid) (r c : nat) (row : list GridCell) (x : GridCell) :
  g !! r = Some row → row !! c = Some x →
  ∃ rest, concat g ≡ₚ x :: rest
          ∧ ∀ y, concat (<[r := <[c := y]> row]> g) ≡ₚ y :: rest.
Proof.
  intros Hr Hc.
  exists (concat (take r g) ++ (take c row ++ drop (S c) row) ++ concat (drop (S r) g)).
  assert (Hcells : ∀ y row', row' = take c row ++ y :: drop (S c) row →
    concat (take r g ++ row' :: drop (S r) g)
    ≡ₚ y :: concat (take r g) ++ (take c row ++ drop (S c) row)
              ++ concat (drop (S r) g)).
  { intros y row' ->. rewrite concat_app. cbn [concat].
    rewrite <- !app_assoc. cbn [app]. rewrite <- !Permutation_middle. done. }
  split.
  - rewrite <- (take_drop_middle g r row Hr) at 1. apply Hcells.
    symmetry. by apply take_drop_middle.
  - intros y. rewrite insert_take_drop by by eapply lookup_lt_Some.
    apply Hcells. apply insert_take_drop. by eapply lookup_lt_Some.
Qed.

Lemma validGrid_write (g : Grid) (r c : nat) (row : list GridCell) (v : GridCell) :
  validGrid g → g !! r = Some row → validGrid (<[r := <[c := v]> row]> g).
Proof.
  intros [Hlen Hrows] Hr. split; [by rewrite length_insert|].
  apply Forall_insert; [done|]. rewrite length_insert.
  by eapply (Forall_lookup_1 _ _ _ _ Hrows).
Qed.

(** The grid after a move of [card] from a cell that holds it to a hole. *)
Lemma executeMove_grid (grid : Grid) (moveTimer : Z) (card : CardData)
    (sr sc tr tc : nat) :
  cellAt grid sr sc = Some (Some card) → cellAt grid tr tc = Some None →
  ∃ out rowT rowS,
    executeMove grid moveTimer card sr sc tr tc = Some out
    ∧ grid !! tr = Some rowT ∧ tc < length rowT
    ∧ <[tr := <[tc := Some card]> rowT]> grid !! sr = Some rowS ∧ sc < length rowS
    ∧ movedGrid out
      = <[sr := <[sc := None]> rowS]> (<[tr := <[tc := Some card]> rowT]> grid)
    ∧ isCardLocked out = bool_decide (id card ∈ getLockedCards (movedGrid out))
    ∧ cardPointsGained out
      = (calculateScore (movedGrid out) * 100 - calculateScore grid * 100)%Z
    ∧ won out = checkWinCondition (movedGrid out).
Proof.
  intros Hs Ht. unfold cellAt in Hs, Ht.
  destruct (grid !! tr) as [rowT|] eqn:HrT; [|done]. cbn in Ht.
  destruct (grid !! sr) as [row0|] eqn:HrS; [|done]. cbn in Hs.
  apply lookup_lt_Some in Ht as HcT. apply lookup_lt_Some in Hs as HcS.
  set (g1 := <[tr := <[tc := Some card]> rowT]> grid).
  assert (HrS1 : ∃ rowS, g1 !! sr = Some rowS ∧ sc < length rowS) .
  { unfold g1. destruct (decide (sr = tr)) as [->|Hne].
    - rewrite list_lookup_insert_eq by by eapply lookup_lt_Some.
      eexists. split; [done|]. rewrite length_insert. congruence.
    - rewrite list_lookup_insert_ne by done. by exists row0. }
  destruct HrS1 as (rowS & HrS1 & HcS1).
  unfold executeMove. rewrite list_fmap_id.
  rewrite (writeCell_in_range grid tr tc rowT) by done. cbn [mbind option_bind].
  fold g1. rewrite (writeCell_in_range g1 sr sc rowS) by done.
  cbn [mbind option_bind]. eexists _, rowT, rowS. split; [done|].
  repeat split; done.
Qed.

(** X18. A move of a card from the cell that holds it to a hole swaps the
    two cells and nothing else: the moved grid has the card at the target,
    a hole at the source and every other cell as before; it has the same
    cells up to order, stays structurally valid and keeps pairwise
    distinct ids. *)
Theorem executeMove_conservation (grid : Grid) (moveTimer : Z) (card : CardData)
    (sr sc tr tc : nat) :
  cellAt grid sr sc = Some (Some card) → cellAt grid tr tc = Some None →
  ∃ out, executeMove grid moveTimer card sr sc tr tc = Some out
    ∧ cellAt (movedGrid out) tr tc = Some (Some card)
    ∧ cellAt (movedGrid out) sr sc = Some None
    ∧ (∀ r c, (r, c) ≠ (sr, sc) → (r, c) ≠ (tr, tc) →
              cellAt (movedGrid out) r c = cellAt grid r c)
    ∧ concat (movedGrid out) ≡ₚ concat grid
    ∧ gapCount (movedGrid out) = gapCount grid
    ∧ (validGrid grid → validGrid (movedGrid out))
    ∧ (distinctIds grid → distinctIds (movedGrid out)).
Proof.
  intros Hs Ht.
  destruct (executeMove_grid grid moveTimer card sr sc tr tc Hs Ht)
    as (out & rowT & rowS & Hout & HrT & HcT & HrS & HcS & Hg & _).
  exists out. split; [done|]. rewrite Hg.
  assert (Hne : (sr, sc) ≠ (tr, tc)) by (intros [= -> ->]; congruence).
  assert (Hcell : ∀ r c,
    cellAt (<[sr := <[sc := None]> rowS]> (<[tr := <[tc := Some card]> rowT]> grid)) r c
    = if decide ((r, c) = (sr, sc)) then Some None
      else if decide ((r, c) = (tr, tc)) then Some (Some card) else cellAt grid r c).
  { intros r c. rewrite (cellAt_write _ sr sc r c rowS) by done.
    by rewrite (cellAt_write grid tr tc r c rowT) by done. }
  assert (Hperm :
    concat (<[sr := <[sc := None]> rowS]> (<[tr := <[tc := Some card]> rowT]> grid))
    ≡ₚ concat grid).
  { unfold cellAt in Ht. rewrite HrT in Ht. cbn in Ht.
    destruct (concat_write grid tr tc rowT None HrT Ht) as (restT & HT0 & HT1).
    assert (HsS : rowS !! sc = Some (Some card)).
    { pose proof (Hcell sr sc) as H1. pose proof (cellAt_write grid tr tc sr sc rowT
        (Some card) HrT HcT) as H2. rewrite decide_False in H2 by done.
      unfold cellAt at 1 in H2. rewrite HrS in H2. cbn in H2. by rewrite H2. }
    destruct (concat_write _ sr sc rowS (Some card) HrS HsS) as (restS & HS0 & HS1).
    rewrite HS1, HT0. f_equiv. apply (Permutation_cons_inv (a := Some card)).
    by rewrite <- HS0, HT1. }
  split; [|split; [|split; [|split; [done|split; [|split]]]]].
  - rewrite Hcell, decide_False by congruence. by rewrite decide_True.
  - rewrite Hcell. by rewrite decide_True.
  - intros r c H1 H2. rewrite Hcell. by rewrite !decide_False.
  - unfold gapCount. by rewrite Hperm.
  - intros Hvalid. apply validGrid_write; [|done]. by apply validGrid_write.
  - unfold distinctIds, cards. by rewrite Hperm.
Qed.

Lemma executeMove_conservation_witness :
  ∃ out, executeMove dealtGrid 30 (sampleCard HEARTS FOUR) 0 9 0 3 = Some out
    ∧ cellAt (movedGrid out) 0 3 = Some (Some (sampleCard HEARTS FOUR))
    ∧ cellAt (movedGrid out) 0 9 = Some None.
Proof.
  destruct (executeMove_conservation dealtGrid 30 (sampleCard HEARTS FOUR) 0 9 0 3)
    as (out & Hout & H1 & H2 & _); [reflexivity | reflexivity |].
  exists out. split; [exact Hout|]. split; [exact H1 | exact H2].
Defined.

(** ** What a move does to the locked prefixes *)

Lemma keepsLocked_refl (grid : Grid) : keepsLocked grid grid.
Proof. unfold keepsLocked. by apply Forall_Forall2_diag, Forall_forall. Qed.

(** A write at or after the break point of the original row keeps the
    locked prefixes in place. *)
Lemma keepsLocked_write (grid out : Grid) (r c : nat) (v : GridCell)
    (row0 rowOut : list GridCell) :
  keepsLocked grid out → grid !! r = Some row0 → out !! r = Some rowOut →
  breakPoint row0 ≤ c → keepsLocked grid (<[r := <[c := v]> rowOut]> out).
Proof.
  intros Hkeep Hr Hout Hc. unfold keepsLocked.
  rewrite <- (list_insert_id grid r row0 Hr). apply Forall2_insert; [done|].
  rewrite take_insert_ge by done.
  exact (Forall2_lookup_lr _ _ _ _ _ _ Hkeep Hr Hout).
Qed.

(** A card whose id is not locked sits at or after the break point of
    its row, and so does every hole. *)
Lemma unlocked_cell_free (grid : Grid) (r c : nat) (row : list GridCell)
    (card : CardData) :
  grid !! r = Some row → row !! c = Some (Some card) →
  id card ∉ getLockedCards grid → breakPoint row ≤ c.
Proof.
  intros Hr Hc Hfree. destruct (decide (breakPoint row ≤ c)) as [|Hlt]; [done|].
  destruct (locked_cell grid r c row Hr ltac:(lia)) as (card' & Hc' & Hin).
  by simplify_eq.
Qed.

Lemma hole_free (row : list GridCell) (c : nat) :
  row !! c = Some None → breakPoint row ≤ c.
Proof.
  intros Hc. destruct (decide (breakPoint row ≤ c)) as [|Hlt]; [done|].
  rewrite <- (lookup_take_lt row (breakPoint row) c) in Hc by lia.
  rewrite lockedPrefix_take, list_lookup_fmap in Hc.
  by destruct (lockedPrefix row !! c).
Qed.

(** A move from a free cell to a hole keeps the locked prefixes in
    place. *)
Lemma executeMove_keepsLocked_at (grid : Grid) (moveTimer : Z) (card : CardData)
    (sr sc tr tc : nat) (row0 : list GridCell) (out : MoveOutcome) :
  cellAt grid sr sc = Some (Some card) → cellAt grid tr tc = Some None →
  grid !! sr = Some row0 → breakPoint row0 ≤ sc →
  executeMove grid moveTimer card sr sc tr tc = Some out →
  keepsLocked grid (movedGrid out).
Proof.
  intros Hs Ht Hr0 Hfree Hout.
  destruct (executeMove_grid grid moveTimer card sr sc tr tc Hs Ht)
    as (out' & rowT & rowS & Hout' & HrT & HcT & HrS & HcS & Hg & _).
  assert (out' = out) as -> by congruence. rewrite Hg.
  unfold cellAt in Ht. rewrite HrT in Ht. cbn in Ht.
  eapply keepsLocked_write; [|exact Hr0|exact HrS|done].
  eapply keepsLocked_write; [apply keepsLocked_refl|exact HrT|exact HrT|].
  by apply hole_free.
Qed.

Lemma executeMove_keepsLocked (grid : Grid) (moveTimer : Z) (card : CardData)
    (sr sc tr tc : nat) (out : MoveOutcome) :
  cellAt grid sr sc = Some (Some card) → cellAt grid tr tc = Some None →
  id card ∉ getLockedCards grid →
  executeMove grid moveTimer card sr sc tr tc = Some out →
  keepsLocked grid (movedGrid out).
Proof.
  intros Hs Ht Hfree Hout. pose proof Hs as Hs'. unfold cellAt in Hs'.
  destruct (grid !! sr) as [row0|] eqn:Hr0; [|done]. cbn in Hs'.
  eapply executeMove_keepsLocked_at; [done..|by eapply unlocked_cell_free|done].
Qed.

(** X19. A move never costs anything: when a card whose id is not locked
    moves from its cell to a hole, the card points gained are not
    negative and every id that was locked is still locked. *)
Theorem executeMove_monotone (grid : Grid) (moveTimer : Z) (card : CardData)
    (sr sc tr tc : nat) :
  cellAt grid sr sc = Some (Some card) → cellAt grid tr tc = Some None →
  id card ∉ getLockedCards grid →
  ∃ out, executeMove grid moveTimer card sr sc tr tc = Some out
    ∧ (0 ≤ cardPointsGained out)%Z
    ∧ (calculateScore grid ≤ calculateScore (movedGrid out))%Z
    ∧ getLockedCards grid ⊆ getLockedCards (movedGrid out).
Proof.
  intros Hs Ht Hfree.
  destruct (executeMove_grid grid moveTimer card sr sc tr tc Hs Ht)
    as (out & rowT & rowS & Hout & _ & _ & _ & _ & _ & _ & Hgain & _).
  exists out. split; [done|].
  pose proof (executeMove_keepsLocked grid moveTimer card sr sc tr tc out
                Hs Ht Hfree Hout) as Hkeep.
  destruct (keepsLocked_monotone grid _ Hkeep) as [Hscore Hlocked].
  rewrite Hgain. split; [lia|]. by split.
Qed.

Lemma executeMove_monotone_witness :
  ∃ out, executeMove dealtGrid 30 (sampleCard HEARTS FOUR) 0 9 0 3 = Some out
    ∧ (0 ≤ cardPointsGained out)%Z
    ∧ (calculateScore dealtGrid ≤ calculateScore (movedGrid out))%Z
    ∧ getLockedCards dealtGrid ⊆ getLockedCards (movedGrid out).
Proof.
  apply (executeMove_monotone dealtGrid 30 (sampleCard HEARTS FOUR) 0 9 0 3);
    [reflexivity | reflexivity |].
  vm_compute. set_solver.
Defined.

(** ** Which moves lock the moved card *)

(** What [canPlaceCard] has checked when it answers [true]. *)
Lemma canPlaceCard_true (card : CardData) (r c : nat) (grid : Grid)
    (row : list GridCell) :
  grid !! r = Some row → canPlaceCard card r c grid = Some true →
  match c with
  | 0 => rank card = TWO
  | S c' => ∃ left, row !! c' = Some (Some left) ∧ rank left ≠ KING
                    ∧ suit card = suit left
                    ∧ getRankValue (rank card) = (getRankValue (rank left) + 1)%Z
  end.
Proof.
  intros Hr. unfold canPlaceCard. destruct c as [|c'].
  - rewrite decide_True by done. intros [= H]. by apply bool_decide_eq_true in H.
  - rewrite decide_False by done. rewrite Hr. cbn [mbind option_bind].
    replace (S c' - 0) with (S c') by lia. replace (S c' - 1) with c' by lia.
    destruct (row !! c') as [[left|]|]; [|done..].
    destruct (decide (rank left = KING)); [done|].
    destruct (decide (suit card ≠ suit left)) as [|Hs]; [done|].
    intros [= H]. apply bool_decide_eq_true in H. exists left.
    repeat split; try done. by destruct (decide (suit card = suit left)).
Qed.

(** A write at or after the end of a run, which is a hole if it is at
    the end, leaves the run as it is. *)
Lemma runFrom_insert (s : Suit) (v : Z) (cells : list GridCell) (c : nat)
    (x : GridCell) :
  length (runFrom s v cells) ≤ c → (length (runFrom s v cells) = c → x = None) →
  runFrom s v (<[c := x]> cells) = runFrom s v cells.
Proof.
  revert v c. induction cells as [|[cell|] cells IH]; intros v c; [done| |].
  - cbn [runFrom].
    destruct (decide (suit cell = s ∧ getRankValue (rank cell) = (v + 1)%Z)) as [Hc|Hc].
    + cbn [length]. intros Hle Hx. destruct c as [|c]; [lia|].
      cbn [insert list_insert runFrom]. rewrite decide_True by done. f_equal.
      apply IH; [lia|]. intros; apply Hx; lia.
    + cbn [length]. intros _ Hx. destruct c as [|c].
      * by rewrite (Hx eq_refl).
      * cbn [insert list_insert runFrom]. by rewrite decide_False.
  - cbn [runFrom length]. intros _ Hx. destruct c as [|c]; [|done].
    by rewrite (Hx eq_refl).
Qed.

Lemma lockedPrefix_insert (row : list GridCell) (c : nat) (x : GridCell) :
  breakPoint row ≤ c → (breakPoint row = c → x = None) →
  lockedPrefix (<[c := x]> row) = lockedPrefix row.
Proof.
  unfold breakPoint. destruct row as [|[first|] rest]; [done| |].
  - destruct (decide (rank first = TWO)) as [Ht|Ht].
    + rewrite (lockedPrefix_two first rest Ht). cbn [length]. intros Hle Hx.
      destruct c as [|c]; [lia|]. cbn [insert list_insert].
      rewrite (lockedPrefix_two first _ Ht). f_equal.
      apply runFrom_insert; [lia|]. intros; apply Hx; lia.
    + rewrite (lockedPrefix_not_two (Some first :: rest))
        by (by intros ? [= <-]).
      cbn [length]. intros _ Hx. destruct c as [|c].
      * by rewrite (Hx eq_refl).
      * cbn [insert list_insert]. apply lockedPrefix_not_two. by intros ? [= <-].
  - cbn [lockedPrefix length]. intros _ Hx. destruct c as [|c]; [|done].
    by rewrite (Hx eq_refl).
Qed.

(** A card written at the end of a run that it continues extends the
    run. *)
Lemma runFrom_extend (s : Suit) (v : Z) (cells : list GridCell) (c : nat)
    (card : CardData) :
  length (runFrom s v cells) = c → c < length cells →
  match c with
  | 0 => suit card = s ∧ getRankValue (rank card) = (v + 1)%Z
  | S c' => ∃ left, cells !! c' = Some (Some left) ∧ suit card = suit left
                    ∧ getRankValue (rank card) = (getRankValue (rank left) + 1)%Z
  end →
  (runFrom s v cells ++ [card]) `prefix_of` runFrom s v (<[c := Some card]> cells).
Proof.
  revert v c. induction cells as [|cell0 cells IH]; intros v c Hlen Hc Hcont;
    [cbn in Hc; lia|].
  destruct c as [|c].
  - apply nil_length_inv in Hlen. rewrite Hlen.
    cbn [insert list_insert runFrom app]. rewrite decide_True by done.
    apply prefix_cons, prefix_nil.
  - destruct cell0 as [cell|]; [|done]. cbn [runFrom] in Hlen |- *.
    destruct (decide (suit cell = s ∧ getRankValue (rank cell) = (v + 1)%Z))
      as [[Hs Hv]|]; [|done].
    cbn [insert list_insert runFrom app]. rewrite decide_True by done.
    apply prefix_cons, IH; [by injection Hlen | cbn in Hc; lia |].
    destruct c as [|c'].
    + destruct Hcont as (left & [= <-] & Hsuit & Hval). split; congruence.
    + exact Hcont.
Qed.

Lemma lockedPrefix_extend (row : list GridCell) (c : nat) (card : CardData) :
  breakPoint row = c → c < length row →
  match c with
  | 0 => rank card = TWO
  | S c' => ∃ left, row !! c' = Some (Some left) ∧ suit card = suit left
                    ∧ getRankValue (rank card) = (getRankValue (rank left) + 1)%Z
  end →
  (lockedPrefix row ++ [card]) `prefix_of` lockedPrefix (<[c := Some card]> row).
Proof.
  unfold breakPoint. intros Hlen Hc Hcont. destruct c as [|c].
  - apply nil_length_inv in Hlen. rewrite Hlen.
    destruct row as [|cell0 rest]; [cbn in Hc; lia|].
    cbn [insert list_insert app]. rewrite (lockedPrefix_two card rest Hcont).
    apply prefix_cons, prefix_nil.
  - destruct row as [|[first|] rest]; [done| |done].
    destruct (decide (rank first = TWO)) as [Ht|Ht].
    + rewrite (lockedPrefix_two first rest Ht) in Hlen |- *.
      cbn [insert list_insert app]. rewrite (lockedPrefix_two first _ Ht).
      apply prefix_cons, runFrom_extend; [by injection Hlen | cbn in Hc; lia |].
      destruct c as [|c']; [|exact Hcont].
      destruct Hcont as (left & [= <-] & Hsuit & Hval). split; congruence.
    + rewrite (lockedPrefix_not_two (Some first :: rest)) in Hlen
        by (by intros ? [= <-]). done.
Qed.

(** The cards of a run ascend one by one. *)
Lemma runFrom_values (s : Suit) (v : Z) (cells : list GridCell) (i : nat)
    (c : CardData) :
  runFrom s v cells !! i = Some c →
  suit c = s ∧ getRankValue (rank c) = (v + 1 + Z.of_nat i)%Z.
Proof.
  revert v i. induction cells as [|[cell|] cells IH]; intros v i; cbn [runFrom];
    [done| |done].
  destruct (decide (suit cell = s ∧ getRankValue (rank cell) = (v + 1)%Z))
    as [[Hs Hv]|]; [|done].
  destruct i as [|i]; cbn [lookup list_lookup].
  - intros [= <-]. split; [done|lia].
  - intros [Hs' Hv']%IH. split; [done|lia].
Qed.

(** The locked card at column [i] has value [i + 2] and the suit of the
    card at column 0. *)
Lemma lockedPrefix_values (row : list GridCell) (i : nat) (c : CardData) :
  lockedPrefix row !! i = Some c →
  getRankValue (rank c) = (Z.of_nat i + 2)%Z
  ∧ ∃ first, row !! 0 = Some (Some first) ∧ rank first = TWO ∧ suit c = suit first.
Proof.
  destruct row as [|[first|] rest]; [done| |done].
  destruct (decide (rank first = TWO)) as [Ht|Ht].
  - rewrite (lockedPrefix_two first rest Ht). destruct i as [|i]; cbn [lookup list_lookup].
    + intros [= <-]. rewrite Ht. split; [done|]. by exists first.
    + intros [Hs Hv]%runFrom_values. rewrite Ht in Hv.
      change (getRankValue TWO) with 2%Z in Hv. split; [lia|]. by exists first.
  - rewrite lockedPrefix_not_two; [done|]. by intros ? [= <-].
Qed.

Lemma locked_column (row : list GridCell) (c : nat) (card : CardData) :
  row !! c = Some (Some card) → c < breakPoint row →
  getRankValue (rank card) = (Z.of_nat c + 2)%Z.
Proof.
  intros Hc Hlt. rewrite <- (lookup_take_lt row (breakPoint row) c) in Hc by done.
  rewrite lockedPrefix_take, list_lookup_fmap in Hc.
  destruct (lockedPrefix row !! c) as [card'|] eqn:Hl; [|done].
  injection Hc as ->. by apply lockedPrefix_values in Hl as [? _].
Qed.

(** The locked cards of a grid around one row. *)
Lemma bind_insert {A B} (f : list A → list B) (g : list (list A)) (r : nat)
    (row : list A) :
  g !! r = Some row →
  ∃ before after, g ≫= f = before ++ f row ++ after
    ∧ ∀ row', <[r := row']> g ≫= f = before ++ f row' ++ after.
Proof.
  intros Hr. exists (take r g ≫= f), (drop (S r) g ≫= f). split.
  - rewrite <- (take_drop_middle g r row Hr) at 1. by rewrite bind_app, bind_cons.
  - intros row'. rewrite insert_take_drop by by eapply lookup_lt_Some.
    by rewrite bind_app, bind_cons.
Qed.

(** Taking a card away from a free cell changes no locked prefix. *)
Lemma remove_free (g : Grid) (r c : nat) (row : list GridCell) :
  g !! r = Some row → breakPoint row ≤ c →
  <[r := <[c := None]> row]> g ≫= lockedPrefix = g ≫= lockedPrefix.
Proof.
  intros Hr Hc. destruct (bind_insert lockedPrefix g r row Hr)
    as (before & after & Hg & Hg').
  by rewrite Hg', Hg, lockedPrefix_insert.
Qed.

(** The locked cards after a move are those of the grid with the card
    written to the target. *)
Lemma executeMove_locked (grid : Grid) (moveTimer : Z) (card : CardData)
    (sr sc tr tc : nat) (rowT : list GridCell) (out : MoveOutcome) :
  cellAt grid sr sc = Some (Some card) → cellAt grid tr tc = Some None →
  id card ∉ getLockedCards grid → grid !! tr = Some rowT →
  executeMove grid moveTimer card sr sc tr tc = Some out →
  movedGrid out ≫= lockedPrefix
  = <[tr := <[tc := Some card]> rowT]> grid ≫= lockedPrefix.
Proof.
  intros Hs Ht Hfree HrT Hout.
  destruct (executeMove_grid grid moveTimer card sr sc tr tc Hs Ht)
    as (out' & rowT' & rowS & Hout' & HrT' & HcT & HrS & HcS & Hg & _).
  assert (out' = out) as -> by congruence.
  assert (rowT' = rowT) as -> by congruence. rewrite Hg.
  apply remove_free; [done|].
  unfold cellAt in Hs, Ht. rewrite HrT in Ht. cbn in Ht.
  destruct (grid !! sr) as [row0|] eqn:Hr0; [|done]. cbn in Hs.
  pose proof (unlocked_cell_free grid sr sc row0 card Hr0 Hs Hfree) as HbS.
  destruct (decide (sr = tr)) as [->|Hne].
  - rewrite list_lookup_insert_eq in HrS by by eapply lookup_lt_Some.
    injection HrS as <-. assert (row0 = rowT) as -> by congruence.
    assert (Hne : sc ≠ tc) by (intros ->; congruence).
    pose proof (hole_free rowT tc Ht) as HbT.
    destruct (decide (breakPoint (<[tc := Some card]> rowT) ≤ sc)) as [|Hlt]; [done|].
    exfalso.
    pose proof (locked_column (<[tc := Some card]> rowT) sc card) as H1.
    pose proof (locked_column (<[tc := Some card]> rowT) tc card) as H2.
    rewrite list_lookup_insert_ne in H1 by done.
    rewrite list_lookup_insert_eq in H2 by done.
    destruct (decide (tc < breakPoint (<[tc := Some card]> rowT))) as [Htc|Htc].
    + specialize (H1 Hs ltac:(lia)). specialize (H2 eq_refl Htc). lia.
    + assert (Hsame : lockedPrefix (<[tc := Some card]> rowT) = lockedPrefix rowT)
        by (apply lockedPrefix_insert; lia).
      unfold breakPoint in *. rewrite Hsame in Hlt. lia.
  - rewrite list_lookup_insert_ne in HrS by done. congruence.
Qed.

(** X20. Which legal moves lock the card: when a card whose id is not
    locked moves to a hole that [canPlaceCard] accepts, the moved card is
    locked exactly when the hole is at the break point of its row (right
    after the locked prefix, or column 0); then the card points gained
    are at least 100 times the value of the card, and otherwise the move
    gains nothing and the locked set stays as it was. *)
Theorem executeMove_locks (grid : Grid) (moveTimer : Z) (card : CardData)
    (sr sc tr tc : nat) (rowT : list GridCell) :
  cellAt grid sr sc = Some (Some card) → cellAt grid tr tc = Some None →
  id card ∉ getLockedCards grid → grid !! tr = Some rowT →
  canPlaceCard card tr tc grid = Some true →
  ∃ out, executeMove grid moveTimer card sr sc tr tc = Some out
    ∧ isCardLocked out = bool_decide (tc = breakPoint rowT)
    ∧ (tc = breakPoint rowT →
       (100 * getRankValue (rank card) ≤ cardPointsGained out)%Z)
    ∧ (tc ≠ breakPoint rowT →
       cardPointsGained out = 0%Z
       ∧ getLockedCards (movedGrid out) = getLockedCards grid).
Proof.
  intros Hs Ht Hfree HrT Hlegal.
  destruct (executeMove_grid grid moveTimer card sr sc tr tc Hs Ht)
    as (out & rowT' & rowS & Hout & _ & _ & _ & _ & _ & Hlock & Hgain & _).
  exists out. split; [done|].
  pose proof (executeMove_locked grid moveTimer card sr sc tr tc rowT out
                Hs Ht Hfree HrT Hout) as Hmoved.
  destruct (bind_insert lockedPrefix grid tr rowT HrT)
    as (before & after & Hg & Hg').
  rewrite Hg' in Hmoved. rewrite Hlock, Hgain, !calculateScore_spec.
  set (g' := movedGrid out) in *.
  unfold cellAt in Ht. rewrite HrT in Ht. cbn in Ht.
  pose proof (hole_free rowT tc Ht) as HbT.
  pose proof (canPlaceCard_true card tr tc grid rowT HrT Hlegal) as Hcont.
  destruct (decide (tc = breakPoint rowT)) as [Heq|Hneq].
  - assert (Hext : (lockedPrefix rowT ++ [card])
                   `prefix_of` lockedPrefix (<[tc := Some card]> rowT)).
    { apply lockedPrefix_extend; [done|by eapply lookup_lt_Some|].
      destruct tc as [|c']; [exact Hcont|].
      destruct Hcont as (left & ? & _ & ? & ?). by exists left. }
    destruct Hext as [more Hext]. rewrite Hext in Hmoved.
    split; [|split; [|done]].
    + rewrite (bool_decide_eq_true_2 (tc = breakPoint rowT)) by done.
      apply bool_decide_eq_true_2.
      rewrite getLockedCards_spec, elem_of_list_to_set, Hmoved.
      apply list_elem_of_fmap_2. set_solver.
    + intros _. rewrite Hmoved, Hg, !sumValues_app, sumValues_cons.
      pose proof (sumValues_nonneg more). cbn [sumValues foldr]. lia.
  - assert (Hsame : lockedPrefix (<[tc := Some card]> rowT) = lockedPrefix rowT)
      by (apply lockedPrefix_insert; lia).
    rewrite Hsame, <- Hg in Hmoved.
    assert (Hset : getLockedCards g' = getLockedCards grid)
      by by rewrite !getLockedCards_spec, Hmoved.
    split; [|split; [done|]].
    + rewrite (bool_decide_eq_false_2 (tc = breakPoint rowT)) by done.
      apply bool_decide_eq_false_2.
      by rewrite Hset.
    + intros _. split; [rewrite Hmoved; lia | done].
Qed.

Lemma executeMove_locks_witness :
  ∃ out, executeMove dealtGrid 30 (sampleCard DIAMONDS FOUR) 2 8 3 2 = Some out
    ∧ isCardLocked out = true
    ∧ (400 ≤ cardPointsGained out)%Z.
Proof.
  destruct (executeMove_locks dealtGrid 30 (sampleCard DIAMONDS FOUR) 2 8 3 2
              [Some (sampleCard DIAMONDS TWO); Some (sampleCard DIAMONDS THREE); None;
               Some (sampleCard SPADES SEVEN); Some (sampleCard HEARTS JACK);
               Some (sampleCard CLUBS TEN); Some (sampleCard DIAMONDS EIGHT);
               Some (sampleCard SPADES EIGHT); Some (sampleCard HEARTS QUEEN);
               Some (sampleCard CLUBS JACK); Some (sampleCard DIAMONDS QUEEN);
               Some (sampleCard SPADES JACK); Some (sampleCard CLUBS QUEEN)])
    as (out & Hout & Hlock & Hgain & _);
    [reflexivity | reflexivity | vm_compute; set_solver | reflexivity
    | reflexivity |].
  exists out. split; [exact Hout|]. split; [exact Hlock|].
  exact (Hgain eq_refl).
Defined.

(** ** Searching the board *)

Lemma searchCols_spec {A} (visit : nat → nat → option (option A)) (r n c : nat) :
  (∀ c', c ≤ c' < c + n → is_Some (visit r c')) →
  ∃ found, searchCols visit r c n = Some found
    ∧ match found with
      | Some a => ∃ c', c ≤ c' < c + n ∧ visit r c' = Some (Some a)
                        ∧ ∀ c'', c ≤ c'' < c' → visit r c'' = Some None
      | None => ∀ c', c ≤ c' < c + n → visit r c' = Some None
      end.
Proof.
  revert c. induction n as [|n IH]; intros c Htotal.
  { exists None. split; [done|]. intros; lia. }
  cbn [searchCols]. destruct (Htotal c ltac:(lia)) as [[a|] Hv]; rewrite Hv;
    cbn [mbind option_bind].
  - exists (Some a). split; [done|]. exists c. split; [lia|]. split; [done|].
    intros; lia.
  - destruct (IH (S c)) as (found & Hfound & Hspec).
    { intros c' ?. apply Htotal. lia. }
    exists found. split; [done|]. destruct found as [a|].
    + destruct Hspec as (c' & ? & ? & Hbefore). exists c'. split; [lia|].
      split; [done|]. intros c'' ?. destruct (decide (c'' = c)) as [->|]; [done|].
      apply Hbefore. lia.
    + intros c' ?. destruct (decide (c' = c)) as [->|]; [done|]. apply Hspec. lia.
Qed.

Lemma searchRows_spec {A} (width : nat → option nat)
    (visit : nat → nat → option (option A)) (n r : nat) :
  (∀ r', r ≤ r' < r + n → ∃ w, width r' = Some w
                               ∧ ∀ c, c < w → is_Some (visit r' c)) →
  ∃ found, searchRows width visit r n = Some found
    ∧ match found with
      | Some a =>
          ∃ r' w c, r ≤ r' < r + n ∧ width r' = Some w ∧ c < w
            ∧ visit r' c = Some (Some a)
            ∧ (∀ c', c' < c → visit r' c' = Some None)
            ∧ (∀ r'' w'' c'', r ≤ r'' < r' → width r'' = Some w'' → c'' < w'' →
                              visit r'' c'' = Some None)
      | None => ∀ r' w c, r ≤ r' < r + n → width r' = Some w → c < w →
                          visit r' c = Some None
      end.
Proof.
  revert r. induction n as [|n IH]; intros r Htotal.
  { exists None. split; [done|]. intros; lia. }
  cbn [searchRows]. destruct (Htotal r ltac:(lia)) as (w & Hw & Hvisit).
  rewrite Hw. cbn [mbind option_bind].
  destruct (searchCols_spec visit r w 0) as (found & -> & Hcols).
  { intros c' ?. apply Hvisit. lia. }
  cbn [mbind option_bind]. destruct found as [a|].
  - exists (Some a). split; [done|]. destruct Hcols as (c & ? & ? & Hbefore).
    exists r, w, c. split; [lia|]. split; [done|]. split; [lia|]. split; [done|].
    split; [intros; apply Hbefore; lia | intros; lia].
  - destruct (IH (S r)) as (found & Hfound & Hspec).
    { intros r' ?. apply Htotal. lia. }
    exists found. split; [done|].
    assert (Hrow : ∀ w'' c'', width r = Some w'' → c'' < w'' →
                              visit r c'' = Some None).
    { intros w'' c'' Hw'' ?. apply Hcols. assert (w'' = w) by congruence. lia. }
    destruct found as [a|].
    + destruct Hspec as (r' & w' & c & ? & ? & ? & ? & ? & Hbefore).
      exists r', w', c. split; [lia|]. do 4 (split; [done|]).
      intros r'' w'' c'' ? ? ?. destruct (decide (r'' = r)) as [->|].
      * by eapply Hrow.
      * eapply Hbefore; [lia|done..].
    + intros r' w' c ? ? ?. destruct (decide (r' = r)) as [->|].
      * by eapply Hrow.
      * eapply Hspec; [lia|done..].
Qed.

(** ** Cards and their cells *)

Lemma elem_of_concat {A} (x : A) (ls : list (list A)) :
  x ∈ concat ls ↔ ∃ l, x ∈ l ∧ l ∈ ls.
Proof.
  induction ls as [|l ls IH]; cbn [concat]; [set_solver|].
  rewrite elem_of_app, IH. set_solver.
Qed.

Lemma card_in_row (row : list GridCell) (c : nat) (card : CardData) :
  row !! c = Some (Some card) → card ∈ omap (λ cell : GridCell, cell) row.
Proof.
  intros Hc. apply list_elem_of_omap. exists (Some card).
  split; [by eapply list_elem_of_lookup_2 | done].
Qed.

Lemma card_in_grid (grid : Grid) (r c : nat) (card : CardData) :
  cellAt grid r c = Some (Some card) → card ∈ cards grid.
Proof.
  unfold cellAt, cards. intros Hc. destruct (grid !! r) as [row|] eqn:Hr; [|done].
  apply list_elem_of_omap. exists (Some card). split; [|done].
  apply elem_of_concat. exists row.
  split; [by eapply list_elem_of_lookup_2 | by eapply list_elem_of_lookup_2].
Qed.

Lemma card_of_grid (grid : Grid) (card : CardData) :
  card ∈ cards grid → ∃ r c, cellAt grid r c = Some (Some card).
Proof.
  unfold cards. intros (cell & Hin & ->)%list_elem_of_omap.
  apply elem_of_concat in Hin as (row & Hcell & Hrow).
  apply list_elem_of_lookup in Hrow as [r Hr].
  apply list_elem_of_lookup in Hcell as [c Hc].
  exists r, c. unfold cellAt. by rewrite Hr.
Qed.

(** Where a property of the cards tells all cards of a row apart, two
    cells with the same property are one cell. *)
Lemma distinct_column {B} (f : CardData → B) (row : list GridCell)
    (c1 c2 : nat) (a b : CardData) :
  NoDup (f <$> omap (λ cell : GridCell, cell) row) →
  row !! c1 = Some (Some a) → row !! c2 = Some (Some b) → f a = f b → c1 = c2.
Proof.
  revert c1 c2. induction row as [|cell row IH]; intros c1 c2 Hnd H1 H2 Hf; [done|].
  destruct cell as [x|]; cbn [omap list_omap] in Hnd.
  - rewrite fmap_cons in Hnd. apply NoDup_cons in Hnd as [Hx Hnd].
    destruct c1 as [|c1], c2 as [|c2]; cbn [lookup list_lookup] in H1, H2.
    + done.
    + injection H1 as ->. exfalso. apply Hx. rewrite Hf.
      apply list_elem_of_fmap_2. exact (card_in_row row c2 b H2).
    + injection H2 as ->. exfalso. apply Hx. rewrite <- Hf.
      apply list_elem_of_fmap_2. exact (card_in_row row c1 a H1).
    + f_equal. by apply IH.
  - destruct c1 as [|c1], c2 as [|c2]; cbn [lookup list_lookup] in H1, H2;
      [done..|]. f_equal. by apply IH.
Qed.

Lemma distinct_position {B} (f : CardData → B) (grid : Grid)
    (r1 c1 r2 c2 : nat) (a b : CardData) :
  NoDup (f <$> cards grid) →
  cellAt grid r1 c1 = Some (Some a) → cellAt grid r2 c2 = Some (Some b) →
  f a = f b → r1 = r2 ∧ c1 = c2.
Proof.
  revert r1 r2. induction grid as [|row grid IH]; intros r1 r2 Hnd H1 H2 Hf; [done|].
  rewrite cards_cons, fmap_app in Hnd. apply NoDup_app in Hnd as (Hrow & Hdisj & Hrest).
  destruct r1 as [|r1], r2 as [|r2]; unfold cellAt in H1, H2;
    cbn [lookup list_lookup mbind option_bind] in H1, H2.
  - split; [done|]. exact (distinct_column f row c1 c2 a b Hrow H1 H2 Hf).
  - exfalso. apply (Hdisj (f a)).
    + apply list_elem_of_fmap_2. exact (card_in_row row c1 a H1).
    + rewrite Hf. apply list_elem_of_fmap_2. exact (card_in_grid grid r2 c2 b H2).
  - exfalso. apply (Hdisj (f b)).
    + apply list_elem_of_fmap_2. exact (card_in_row row c2 b H2).
    + rewrite <- Hf. apply list_elem_of_fmap_2. exact (card_in_grid grid r1 c1 a H1).
  - destruct (IH r1 r2 Hrest H1 H2 Hf) as [-> ->]. done.
Qed.

(** ** The source of a clicked card *)

Lemma sourceCols_last (card : CardData) (r : nat) (row : list GridCell)
    (c : nat) (source : option (nat * nat)) :
  (sourceCols card r c row source = source
   ∧ ∀ i cell, row !! i = Some (Some cell) → id cell ≠ id card)
  ∨ (∃ i cell, sourceCols card r c row source = Some (r, c + i)
       ∧ row !! i = Some (Some cell) ∧ id cell = id card
       ∧ ∀ j cell', row !! j = Some (Some cell') → id cell' = id card → j ≤ i).
Proof.
  revert c source. induction row as [|cell0 row IH]; intros c source.
  { left. by split. }
  cbn [sourceCols].
  destruct (IH (S c) match cell0 with
                     | Some cell' =>
                         if decide (id cell' = id card) then Some (r, c) else source
                     | None => source
                     end) as [[Hres Hno]|(i & cell & Hres & Hcell & Hid & Hlast)].
  - destruct cell0 as [cell'|]; [destruct (decide (id cell' = id card)) as [Hid|Hid]|].
    + right. exists 0, cell'. rewrite Hres. replace (c + 0) with c by lia.
      do 3 (split; [done|]). intros [|j] cell'' Hj Hid''; [lia|].
      by destruct (Hno j cell'' Hj).
    + left. split; [done|]. intros [|j] cell'' Hj; [by injection Hj as <-|].
      by apply (Hno j).
    + left. split; [done|]. intros [|j] cell'' Hj; [done|]. by apply (Hno j).
  - right. exists (S i), cell. rewrite Hres. replace (c + S i) with (S c + i) by lia.
    do 3 (split; [done|]). intros [|j] cell'' Hj Hid''; [lia|].
    specialize (Hlast j cell'' Hj Hid''). lia.
Qed.

Lemma sourceRows_last (card : CardData) (grid : Grid) (r : nat)
    (source : option (nat * nat)) :
  (sourceRows card r grid source = source
   ∧ ∀ i c cell, cellAt grid i c = Some (Some cell) → id cell ≠ id card)
  ∨ (∃ i c cell, sourceRows card r grid source = Some (r + i, c)
       ∧ cellAt grid i c = Some (Some cell) ∧ id cell = id card
       ∧ ∀ i' c' cell', cellAt grid i' c' = Some (Some cell') →
                        id cell' = id card → i' < i ∨ (i' = i ∧ c' ≤ c)).
Proof.
  revert r source. induction grid as [|row grid IH]; intros r source.
  { left. by split. }
  cbn [sourceRows].
  destruct (IH (S r) (sourceCols card r 0 row source))
    as [[Hres Hno]|(i & c & cell & Hres & Hcell & Hid & Hlast)].
  - destruct (sourceCols_last card r row 0 source)
      as [[Hrow Hnone]|(c & cell & Hrow & Hcell & Hid & Hlast)].
    + left. split; [congruence|]. intros [|i] c cell Hc.
      * by apply (Hnone c).
      * by apply (Hno i c).
    + right. exists 0, c, cell. rewrite Hres, Hrow. replace (r + 0) with r by lia.
      do 3 (split; [done|]). intros [|i'] c' cell' Hc' Hid'.
      * right. split; [done|]. by apply (Hlast c' cell').
      * by destruct (Hno i' c' cell' Hc').
  - right. exists (S i), c, cell. rewrite Hres.
    replace (r + S i) with (S r + i) by lia. do 3 (split; [done|]).
    intros [|i'] c' cell' Hc' Hid'; [left; lia|].
    destruct (Hlast i' c' cell' Hc' Hid') as [|[-> ?]]; [left; lia | by right].
Qed.

(** X21. The search for the clicked card finds a cell that holds a card
    with the id of the clicked card, the last one in reading order; it
    finds none exactly when no card of the grid has that id; and where
    the ids are pairwise distinct it finds the cell of the card. *)
Theorem sourceRows_spec (card : CardData) (grid : Grid) :
  match sourceRows card 0 grid None with
  | Some (sourceRow, sourceCol) =>
      (∃ cell, cellAt grid sourceRow sourceCol = Some (Some cell)
               ∧ id cell = id card)
      ∧ ∀ r c cell, cellAt grid r c = Some (Some cell) → id cell = id card →
                    r < sourceRow ∨ (r = sourceRow ∧ c ≤ sourceCol)
  | None => id card ∉ id <$> cards grid
  end
  ∧ (distinctIds grid →
     ∀ r c, cellAt grid r c = Some (Some card) →
            sourceRows card 0 grid None = Some (r, c)).
Proof.
  destruct (sourceRows_last card grid 0 None)
    as [[Hres Hno]|(i & c & cell & Hres & Hcell & Hid & Hlast)]; rewrite Hres.
  - split.
    + intros (cell & Hid & Hin)%list_elem_of_fmap.
      apply card_of_grid in Hin as (r & c & Hc). by destruct (Hno r c cell Hc).
    + intros _ r c Hc. by destruct (Hno r c card Hc).
  - cbn [Nat.add]. split; [split; [by exists cell | done]|].
    intros Hnd r c' Hc.
    by destruct (distinct_position id grid r c' i c card cell Hnd Hc Hcell) as [-> ->].
Qed.

(** ** Clicking a card *)

Lemma targetVisit_total (card : CardData) (grid : Grid) (r c : nat) :
  r < length grid → is_Some (targetVisit card grid r c).
Proof.
  intros Hr. unfold targetVisit, readCell.
  destruct (lookup_lt_is_Some_2 grid r Hr) as [row ->]. cbn [mbind option_bind].
  destruct (row !! c) as [[x|]|]; [by eexists| |by eexists].
  destruct (canPlaceCard_is_Some card r c grid Hr) as [[|] ->]; by eexists.
Qed.

Lemma targetVisit_found (card : CardData) (grid : Grid) (r c : nat)
    (a : nat * nat) :
  targetVisit card grid r c = Some (Some a)
  ↔ a = (r, c) ∧ cellAt grid r c = Some None
    ∧ canPlaceCard card r c grid = Some true.
Proof.
  unfold targetVisit, readCell, cellAt.
  destruct (grid !! r) as [row|]; cbn [mbind option_bind]; [|naive_solver].
  destruct (row !! c) as [[x|]|]; [naive_solver| |naive_solver].
  destruct (canPlaceCard card r c grid) as [[|]|]; cbn [mbind option_bind];
    naive_solver.
Qed.

Lemma cellAt_in_range (grid : Grid) (r c : nat) (cell : GridCell) :
  cellAt grid r c = Some cell →
  ∃ row, grid !! r = Some row ∧ row !! c = Some cell
         ∧ r < length grid ∧ c < length row.
Proof.
  unfold cellAt. intros Hc. destruct (grid !! r) as [row|] eqn:Hr; [|done].
  exists row. repeat split; [done|by eapply lookup_lt_Some..].
Qed.

(** What the target search of [handleCardClick] finds. *)
Lemma target_search (card : CardData) (grid : Grid) :
  ∃ target,
    searchRows (λ r, length <$> grid !! r) (targetVisit card grid) 0 (length grid)
    = Some target
    ∧ match target with
      | Some (tr, tc) =>
          cellAt grid tr tc = Some None ∧ canPlaceCard card tr tc grid = Some true
          ∧ ∀ r c, cellAt grid r c = Some None →
                   canPlaceCard card r c grid = Some true →
                   tr < r ∨ (tr = r ∧ tc ≤ c)
      | None => ∀ r c, cellAt grid r c = Some None →
                       canPlaceCard card r c grid ≠ Some true
      end.
Proof.
  destruct (searchRows_spec (λ r, length <$> grid !! r) (targetVisit card grid)
              (length grid) 0) as (target & Htarget & Hspec).
  { intros r' Hr'. destruct (lookup_lt_is_Some_2 grid r') as [row Hrow]; [lia|].
    exists (length row). rewrite Hrow. split; [done|].
    intros c _. apply targetVisit_total. lia. }
  exists target. split; [done|].
  assert (Hhole : ∀ r c, cellAt grid r c = Some None →
            canPlaceCard card r c grid = Some true →
            targetVisit card grid r c = Some (Some (r, c))
            ∧ ∃ w, length <$> grid !! r = Some w ∧ c < w ∧ r < length grid).
  { intros r c Hc Hok. split; [by apply targetVisit_found|].
    apply cellAt_in_range in Hc as (row & Hrow & _ & ? & ?).
    exists (length row). by rewrite Hrow. }
  destruct target as [[tr tc]|].
  - destruct Hspec as (r' & w & c & _ & _ & _ & Hfound & Hcols & Hrows).
    apply targetVisit_found in Hfound as ([= <- <-] & Hgap & Hok).
    split; [done|]. split; [done|]. intros r c Hc Hok'.
    destruct (Hhole r c Hc Hok') as (Hvisit & w' & Hw' & ? & ?).
    destruct (decide (r < tr)) as [Hlt|].
    { specialize (Hrows r w' c ltac:(lia) Hw' ltac:(lia)). congruence. }
    destruct (decide (r = tr)) as [->|]; [|left; lia].
    destruct (decide (c < tc)) as [Hlt|]; [|right; lia].
    specialize (Hcols c Hlt). congruence.
  - intros r c Hc Hok.
    destruct (Hhole r c Hc Hok) as (Hvisit & w' & Hw' & ? & ?).
    specialize (Hspec r w' c ltac:(lia) Hw' ltac:(lia)). congruence.
Qed.

(** X22. A click on a card of a grid with pairwise distinct ids never
    throws; it moves the card exactly when the card is not locked and
    [isCardPlayable] holds; and it moves it from its own cell to the first
    hole, in reading order, that [canPlaceCard] accepts. *)
Theorem handleCardClick_spec (grid : Grid) (moveTimer : Z) (card : CardData)
    (sr sc : nat) :
  distinctIds grid → cellAt grid sr sc = Some (Some card) →
  ∃ res, handleCardClick false grid moveTimer card = Some res
    ∧ (is_Some res ↔ (id card ∉ getLockedCards grid)
                     ∧ isCardPlayable card grid = Some true)
    ∧ ∀ out, res = Some out →
        ∃ tr tc, cellAt grid tr tc = Some None
          ∧ canPlaceCard card tr tc grid = Some true
          ∧ (∀ r c, cellAt grid r c = Some None →
                    canPlaceCard card r c grid = Some true →
                    tr < r ∨ (tr = r ∧ tc ≤ c))
          ∧ executeMove grid moveTimer card sr sc tr tc = Some out.
Proof.
  intros Hnd Hs. unfold handleCardClick.
  destruct (decide (id card ∈ getLockedCards grid)) as [Hlocked|Hfree].
  { exists None. split; [done|]. split; [|done].
    split; [by intros [? [=]] | by intros [? _]]. }
  assert (Hsource : sourceRows card 0 grid None = Some (sr, sc)).
  { destruct (sourceRows_last card grid 0 None)
      as [[_ Hno]|(i & c & cell & Hres & Hcell & Hid & _)].
    - by destruct (Hno sr sc card Hs).
    - rewrite Hres. cbn [Nat.add].
      by destruct (distinct_position id grid sr sc i c card cell Hnd Hs Hcell)
        as [-> ->]. }
  rewrite Hsource.
  destruct (target_search card grid) as (target & -> & Htarget).
  cbn [mbind option_bind].
  destruct (playableRows_spec card grid (length grid) 0) as (b & Hb & Hiff); [lia|].
  unfold isCardPlayable. rewrite Hb.
  destruct target as [[tr tc]|].
  - destruct Htarget as (Hgap & Hok & Hfirst).
    destruct (executeMove_grid grid moveTimer card sr sc tr tc Hs Hgap)
      as (out & _ & _ & Hout & _). rewrite Hout. exists (Some out).
    split; [done|]. split.
    + split; [|by eexists]. intros _. split; [done|]. f_equal. apply Hiff.
      exists tr, tc. split; [|done]. split; [lia|].
      by apply cellAt_in_range in Hgap as (? & _ & _ & ? & _).
    + intros out' [= <-]. by exists tr, tc.
  - exists None. split; [done|]. split; [|done]. split; [by intros [? [=]]|].
    intros [_ [= ->]]. destruct (proj1 Hiff eq_refl) as (r & c & _ & Hgap & Hok).
    by destruct (Htarget r c Hgap).
Qed.

Lemma handleCardClick_spec_witness :
  ∃ res, handleCardClick false dealtGrid 30 (sampleCard DIAMONDS FOUR) = Some res
    ∧ is_Some res.
Proof.
  destruct (handleCardClick_spec dealtGrid 30 (sampleCard DIAMONDS FOUR) 2 8)
    as (res & Hres & Hiff & _).
  - unfold distinctIds. vm_compute. repeat constructor; set_solver.
  - reflexivity.
  - exists res. split; [exact Hres|]. apply Hiff. split.
    + vm_compute. set_solver.
    + reflexivity.
Defined.

(** ** Clicking a hole *)

Lemma cardVisit_total (test : CardData → nat → bool) (grid : Grid) (r c : nat) :
  r < length grid → is_Some (cardVisit test grid r c).
Proof.
  intros Hr. unfold cardVisit, readCell.
  destruct (lookup_lt_is_Some_2 grid r Hr) as [row ->]. cbn [mbind option_bind].
  destruct (row !! c) as [[x|]|]; [|by eexists..].
  destruct (test x c); by eexists.
Qed.

Lemma cardVisit_found (test : CardData → nat → bool) (grid : Grid) (r c : nat)
    (a : CardData * nat * nat) :
  cardVisit test grid r c = Some (Some a)
  ↔ ∃ card, a = (card, r, c) ∧ cellAt grid r c = Some (Some card)
            ∧ test card c = true.
Proof.
  unfold cardVisit, readCell, cellAt.
  destruct (grid !! r) as [row|]; cbn [mbind option_bind];
    [|split; [done | by intros (? & _ & ? & _)]].
  destruct (row !! c) as [[x|]|];
    [|split; [done | by intros (? & _ & ? & _)]..].
  destruct (test x c) eqn:Htest; split.
  - intros [= <-]. by exists x.
  - by intros (card & -> & [= <-] & _).
  - done.
  - intros (card & -> & [= <-] & ?). congruence.
Qed.

(** What a search of [handleHoleClick] finds on a 4x13 grid: the first
    card, in reading order, that passes the test. *)
Lemma card_search (test : CardData → nat → bool) (grid : Grid) :
  validGrid grid →
  ∃ candidate,
    searchRows (λ _, Some 13) (cardVisit test grid) 0 4 = Some candidate
    ∧ match candidate with
      | Some (card, sr, sc) =>
          cellAt grid sr sc = Some (Some card) ∧ test card sc = true
          ∧ ∀ r c card', cellAt grid r c = Some (Some card') →
                         test card' c = true → sr < r ∨ (sr = r ∧ sc ≤ c)
      | None => ∀ r c card', cellAt grid r c = Some (Some card') →
                             test card' c = false
      end.
Proof.
  intros Hvalid. pose proof Hvalid as [Hlen _].
  destruct (searchRows_spec (λ _, Some 13) (cardVisit test grid) 4 0)
    as (candidate & Hcand & Hspec).
  { intros r' Hr'. exists 13. split; [done|]. intros c _.
    apply cardVisit_total. lia. }
  exists candidate. split; [done|].
  assert (Hcard : ∀ r c card', cellAt grid r c = Some (Some card') →
            test card' c = true →
            cardVisit test grid r c = Some (Some (card', r, c)) ∧ r < 4 ∧ c < 13).
  { intros r c card' Hc Htest. split; [apply cardVisit_found; by exists card'|].
    apply cellAt_in_range in Hc as (row & Hrow & _ & ? & ?).
    destruct (validGrid_lookup grid r row Hvalid Hrow). lia. }
  destruct candidate as [[[card sr] sc]|].
  - destruct Hspec as (r' & w & c & _ & [= <-] & _ & Hfound & Hcols & Hrows).
    apply cardVisit_found in Hfound as (card0 & [= <- <- <-] & Hcell & Htest).
    split; [done|]. split; [done|]. intros r c card' Hc Htest'.
    destruct (Hcard r c card' Hc Htest') as (Hvisit & ? & ?).
    destruct (decide (r < sr)) as [Hlt|].
    { specialize (Hrows r 13 c ltac:(lia) eq_refl ltac:(lia)). congruence. }
    destruct (decide (r = sr)) as [->|]; [|left; lia].
    destruct (decide (c < sc)) as [Hlt|]; [|right; lia].
    specialize (Hcols c Hlt). congruence.
  - intros r c card' Hc. destruct (test card' c) eqn:Htest; [|done].
    destruct (Hcard r c card' Hc Htest) as (Hvisit & ? & ?).
    specialize (Hspec r 13 c ltac:(lia) eq_refl ltac:(lia)). congruence.
Qed.

(** The tests of the hole click against [canPlaceCard]. *)
Lemma canPlaceCard_column0 (card : CardData) (r : nat) (grid : Grid) (sc : nat) :
  isMovableTwo card sc = true
  ↔ canPlaceCard card r 0 grid = Some true ∧ sc ≠ 0.
Proof.
  unfold isMovableTwo, canPlaceCard. rewrite decide_True by done.
  rewrite andb_true_iff, !bool_decide_eq_true. split.
  - intros [Ht Hs]. split; [|done]. f_equal. by apply bool_decide_eq_true.
  - intros [[= Ht%bool_decide_eq_true] Hs]. done.
Qed.

Lemma canPlaceCard_needed (card leftNeighbor : CardData) (r c : nat) (grid : Grid)
    (row : list GridCell) (sc : nat) :
  c ≠ 0 → grid !! r = Some row → row !! (c - 1) = Some (Some leftNeighbor) →
  rank leftNeighbor ≠ KING →
  canPlaceCard card r c grid
  = Some (isNeeded (suit leftNeighbor) (getRankValue (rank leftNeighbor) + 1)
                   card sc).
Proof.
  intros Hc Hrow Hleft Hking. unfold canPlaceCard, isNeeded.
  rewrite decide_False by done. rewrite Hrow. cbn [mbind option_bind].
  rewrite Hleft. destruct (decide (rank leftNeighbor = KING)); [done|].
  destruct (decide (suit card ≠ suit leftNeighbor)) as [Hs|Hs].
  - by rewrite (bool_decide_eq_false_2 (suit card = suit leftNeighbor)).
  - rewrite (bool_decide_eq_true_2 (suit card = suit leftNeighbor)); [done|].
    by destruct (decide (suit card = suit leftNeighbor)).
Qed.

Lemma canPlaceCard_no_left (card : CardData) (r c : nat) (grid : Grid)
    (row : list GridCell) :
  c ≠ 0 → grid !! r = Some row →
  (∀ leftNeighbor, row !! (c - 1) = Some (Some leftNeighbor) →
                   rank leftNeighbor = KING) →
  canPlaceCard card r c grid = Some false.
Proof.
  intros Hc Hrow Hleft. unfold canPlaceCard.
  rewrite decide_False by done. rewrite Hrow. cbn [mbind option_bind].
  destruct (row !! (c - 1)) as [[leftNeighbor|]|] eqn:Hl; [|done..].
  destruct (decide (rank leftNeighbor = KING)) as [|Hking]; [done|].
  by destruct Hking, (Hleft leftNeighbor).
Qed.

(** The card a click on the hole at [(r, c)] picks: the first card, in
    reading order, that [canPlaceCard] accepts for the hole, a TWO in
    column 0 left aside. *)
Lemma holeCandidate_spec (grid : Grid) (r c : nat) :
  validGrid grid → cellAt grid r c = Some None →
  ∃ candidate, holeCandidate grid r c = Some candidate
    ∧ match candidate with
      | Some (card, sr, sc) =>
          cellAt grid sr sc = Some (Some card)
          ∧ canPlaceCard card r c grid = Some true ∧ (c = 0 → sc ≠ 0)
          ∧ ∀ r' c' card', cellAt grid r' c' = Some (Some card') →
                           canPlaceCard card' r c grid = Some true →
                           (c = 0 → c' ≠ 0) → sr < r' ∨ (sr = r' ∧ sc ≤ c')
      | None => ∀ sr sc card, cellAt grid sr sc = Some (Some card) →
                              canPlaceCard card r c grid = Some true →
                              c = 0 ∧ sc = 0
      end.
Proof.
  intros Hvalid Hhole. unfold holeCandidate.
  apply cellAt_in_range in Hhole as (row & Hrow & Hcell & Hr & Hc).
  destruct (decide (c = 0)) as [->|Hc0].
  - destruct (card_search isMovableTwo grid Hvalid) as (candidate & -> & Hspec).
    exists candidate. split; [done|]. destruct candidate as [[[card sr] sc]|].
    + destruct Hspec as (Hs & Htest & Hfirst).
      apply (canPlaceCard_column0 card r grid) in Htest as [Hok Hsc].
      do 3 (split; [done|]). intros r' c' card' Hc' Hok' Hc0.
      apply (Hfirst r' c' card' Hc'). apply (canPlaceCard_column0 card' r grid).
      split; [done | by apply Hc0].
    + intros sr sc card Hs Hok. split; [done|].
      destruct (decide (sc = 0)) as [|Hsc]; [done|].
      assert (isMovableTwo card sc = true) as Htest
        by by apply (canPlaceCard_column0 card r grid).
      by rewrite (Hspec sr sc card Hs) in Htest.
  - unfold readCell. rewrite Hrow. cbn [mbind option_bind].
    destruct (row !! (c - 1)) as [[leftNeighbor|]|] eqn:Hleft.
    + destruct (decide (rank leftNeighbor ≠ KING)) as [Hking|Hking].
      * destruct (card_search (isNeeded (suit leftNeighbor)
                     (getRankValue (rank leftNeighbor) + 1)) grid Hvalid)
          as (candidate & -> & Hspec).
        exists candidate. split; [done|]. destruct candidate as [[[card sr] sc]|].
        -- destruct Hspec as (Hs & Htest & Hfirst).
           split; [done|]. split.
           { rewrite (canPlaceCard_needed card leftNeighbor r c grid row sc) by done.
             by rewrite Htest. }
           split; [done|]. intros r' c' card' Hc' Hok' _.
           apply (Hfirst r' c' card' Hc').
           rewrite (canPlaceCard_needed card' leftNeighbor r c grid row c') in Hok'
             by done. by injection Hok'.
        -- intros sr sc card Hs Hok.
           rewrite (canPlaceCard_needed card leftNeighbor r c grid row sc) in Hok
             by done. injection Hok as Hok.
           by rewrite (Hspec sr sc card Hs) in Hok.
      * exists None. split; [done|]. intros sr sc card _ Hok.
        rewrite (canPlaceCard_no_left card r c grid row) in Hok; [done..|].
        intros left' Hl. rewrite Hleft in Hl. injection Hl as <-.
        by destruct (decide (rank leftNeighbor = KING)).
    + exists None. split; [done|]. intros sr sc card _ Hok.
      rewrite (canPlaceCard_no_left card r c grid row) in Hok; [done..|].
      intros left' Hl. by rewrite Hleft in Hl.
    + exists None. split; [done|]. intros sr sc card _ Hok.
      rewrite (canPlaceCard_no_left card r c grid row) in Hok; [done..|].
      intros left' Hl. by rewrite Hleft in Hl.
Qed.

(** X23. A click on a hole of a 4x13 grid never throws. When it moves a
    card, that card is the first one of the grid, in reading order, that
    [canPlaceCard] accepts for the hole (for a hole in column 0, the first
    TWO outside column 0), and it moves from its own cell; when it moves
    nothing, [canPlaceCard] accepts no card of the grid for the hole, the
    TWOs in column 0 left aside. *)
Theorem handleHoleClick_spec (grid : Grid) (moveTimer : Z) (r c : nat) :
  validGrid grid → cellAt grid r c = Some None →
  ∃ res, handleHoleClick false grid moveTimer r c = Some res
    ∧ match res with
      | Some out =>
          ∃ card sr sc, cellAt grid sr sc = Some (Some card)
            ∧ canPlaceCard card r c grid = Some true ∧ (c = 0 → sc ≠ 0)
            ∧ (∀ r' c' card', cellAt grid r' c' = Some (Some card') →
                              canPlaceCard card' r c grid = Some true →
                              (c = 0 → c' ≠ 0) → sr < r' ∨ (sr = r' ∧ sc ≤ c'))
            ∧ executeMove grid moveTimer card sr sc r c = Some out
      | None => ∀ sr sc card, cellAt grid sr sc = Some (Some card) →
                              canPlaceCard card r c grid = Some true →
                              c = 0 ∧ sc = 0
      end.
Proof.
  intros Hvalid Hhole. unfold handleHoleClick.
  destruct (holeCandidate_spec grid r c Hvalid Hhole) as (candidate & -> & Hspec).
  pose proof Hhole as Hcell. unfold cellAt in Hcell. unfold readCell.
  destruct (grid !! r) as [row|]; [|done]. cbn [mbind option_bind] in Hcell |- *.
  rewrite Hcell. rewrite decide_False by (by intros []).
  destruct candidate as [[[card sr] sc]|].
  - destruct Hspec as (Hs & Hok & Hsc & Hfirst).
    destruct (executeMove_grid grid moveTimer card sr sc r c Hs Hhole)
      as (out & _ & _ & Hout & _). rewrite Hout. exists (Some out).
    split; [done|]. by exists card, sr, sc.
  - by exists None.
Qed.

Lemma handleHoleClick_spec_witness :
  ∃ out, handleHoleClick false dealtGrid 30 3 2 = Some (Some out)
    ∧ executeMove dealtGrid 30 (sampleCard DIAMONDS FOUR) 2 8 3 2 = Some out.
Proof.
  destruct (handleHoleClick_spec dealtGrid 30 3 2) as (res & Hres & Hspec).
  - split; [reflexivity | repeat constructor].
  - reflexivity.
  - vm_compute in Hres. injection Hres as <-. eexists. split; reflexivity.
Defined.

Lemma locked_suit (row : list GridCell) (c : nat) (card : CardData) :
  row !! c = Some (Some card) → c < breakPoint row →
  ∃ first, row !! 0 = Some (Some first) ∧ suit card = suit first.
Proof.
  intros Hc Hlt. rewrite <- (lookup_take_lt row (breakPoint row) c) in Hc by done.
  rewrite lockedPrefix_take, list_lookup_fmap in Hc.
  destruct (lockedPrefix row !! c) as [card'|] eqn:Hl; [|done].
  injection Hc as ->. apply lockedPrefix_values in Hl as (_ & first & ? & _ & ?).
  by exists first.
Qed.

(** On a grid whose cards have pairwise distinct faces, the card a hole
    click picks is not in the locked prefix of its row. *)
Lemma holeCandidate_free (grid : Grid) (r c : nat) (card : CardData)
    (sr sc : nat) (row0 : list GridCell) :
  validGrid grid → NoDup (face <$> cards grid) → cellAt grid r c = Some None →
  holeCandidate grid r c = Some (Some (card, sr, sc)) →
  grid !! sr = Some row0 → breakPoint row0 ≤ sc.
Proof.
  intros Hvalid Hnd Hhole Hcand Hr0.
  destruct (holeCandidate_spec grid r c Hvalid Hhole) as (candidate & Hc & Hspec).
  assert (candidate = Some (card, sr, sc)) as -> by congruence.
  destruct Hspec as (Hs & Hok & Hsc & _).
  destruct (decide (breakPoint row0 ≤ sc)) as [|Hlt]; [done|]. exfalso.
  pose proof Hs as Hs'. unfold cellAt in Hs'. rewrite Hr0 in Hs'. cbn in Hs'.
  pose proof (locked_column row0 sc card Hs' ltac:(lia)) as Hval.
  apply cellAt_in_range in Hhole as Hin. destruct Hin as (row & Hrow & Hcell & _ & _).
  pose proof (canPlaceCard_true card r c grid row Hrow Hok) as Hcont.
  destruct c as [|c'].
  - rewrite Hcont in Hval. change (getRankValue TWO) with 2%Z in Hval.
    apply Hsc; [done | lia].
  - destruct Hcont as (left & Hleft & _ & Hsuit & Hnext).
    pose proof (getRankValue_range (rank left)).
    destruct sc as [|sc']; [lia|].
    destruct (locked_cell grid sr sc' row0 Hr0 ltac:(lia)) as (card2 & Hc2 & _).
    pose proof (locked_column row0 sc' card2 Hc2 ltac:(lia)) as Hval2.
    destruct (locked_suit row0 (S sc') card Hs' ltac:(lia)) as (first & Hf & Hs1).
    destruct (locked_suit row0 sc' card2 Hc2 ltac:(lia)) as (first2 & Hf2 & Hs2).
    assert (first2 = first) as -> by congruence.
    assert (Hface : face card2 = face left).
    { unfold face. f_equal; [congruence|]. apply getRankValue_inj. lia. }
    assert (Hcell2 : cellAt grid sr sc' = Some (Some card2))
      by (unfold cellAt; by rewrite Hr0).
    assert (HcellL : cellAt grid r c' = Some (Some left))
      by (unfold cellAt; by rewrite Hrow).
    destruct (distinct_position face grid sr sc' r c' card2 left Hnd Hcell2 HcellL Hface)
      as [-> ->].
    congruence.
Qed.

(** X24. On a 4x13 grid whose cards have pairwise distinct faces, a click
    on a hole never moves a card out of a locked prefix: the move it makes
    gains card points that are not negative, and every id that was locked
    is still locked. *)
Theorem handleHoleClick_monotone (grid : Grid) (moveTimer : Z) (r c : nat)
    (out : MoveOutcome) :
  validGrid grid → NoDup (face <$> cards grid) → cellAt grid r c = Some None →
  handleHoleClick false grid moveTimer r c = Some (Some out) →
  (0 ≤ cardPointsGained out)%Z
  ∧ (calculateScore grid ≤ calculateScore (movedGrid out))%Z
  ∧ getLockedCards grid ⊆ getLockedCards (movedGrid out).
Proof.
  intros Hvalid Hnd Hhole Hclick. unfold handleHoleClick in Hclick.
  destruct (holeCandidate_spec grid r c Hvalid Hhole) as (candidate & Hcand & Hspec).
  rewrite Hcand in Hclick.
  pose proof Hhole as Hcell. unfold cellAt in Hcell. unfold readCell in Hclick.
  destruct (grid !! r) as [row|] eqn:Hrow; [|done].
  cbn [mbind option_bind] in Hcell, Hclick. rewrite Hcell in Hclick.
  rewrite decide_False in Hclick by (by intros []).
  destruct candidate as [[[card sr] sc]|]; [|done].
  destruct Hspec as (Hs & _).
  destruct (executeMove_grid grid moveTimer card sr sc r c Hs Hhole)
    as (out' & _ & _ & Hout & _ & _ & _ & _ & _ & _ & Hgain & _).
  rewrite Hout in Hclick. injection Hclick as ->.
  apply cellAt_in_range in Hs as Hin. destruct Hin as (row0 & Hr0 & _).
  pose proof (holeCandidate_free grid r c card sr sc row0 Hvalid Hnd Hhole Hcand Hr0)
    as Hfree.
  pose proof (executeMove_keepsLocked_at grid moveTimer card sr sc r c row0 out
                Hs Hhole Hr0 Hfree Hout) as Hkeep.
  destruct (keepsLocked_monotone grid _ Hkeep) as [Hscore Hlocked].
  rewrite Hgain. split; [lia|]. by split.
Qed.

Lemma handleHoleClick_monotone_witness :
  ∃ out, handleHoleClick false dealtGrid 30 3 2 = Some (Some out)
    ∧ (0 ≤ cardPointsGained out)%Z.
Proof.
  eexists. split; [reflexivity|].
  refine (proj1 (handleHoleClick_monotone dealtGrid 30 3 2 _ _ _ _ _)).
  - split; [reflexivity | repeat constructor].
  - refine (@bool_decide_unpack _ (NoDup_dec _) _). vm_compute. exact I.
  - reflexivity.
  - reflexivity.
Defined.

(** ** Hints *)

Lemma idsOf_spec (test : CardData → nat → bool) (grid : Grid) (x : string) :
  x ∈ idsOf test grid
  ↔ ∃ card sr sc, cellAt grid sr sc = Some (Some card) ∧ id card = x
                  ∧ test card sc = true.
Proof.
  unfold idsOf. rewrite elem_of_list_to_set, list_elem_of_bind. split.
  - intros (row & Hx & Hrow). apply list_elem_of_lookup in Hrow as [sr Hsr].
    apply list_elem_of_omap in Hx as ([sc cell] & Hin & Hx).
    apply list_elem_of_lookup in Hin as [i Hi].
    rewrite list_lookup_imap in Hi.
    destruct (row !! i) as [cell'|] eqn:Hcell; [|done]. injection Hi as <- <-.
    destruct cell' as [card|]; [|done].
    destruct (test card i) eqn:Htest; [|done]. injection Hx as <-.
    exists card, sr, i. unfold cellAt. by rewrite Hsr.
  - intros (card & sr & sc & Hc & <- & Htest).
    apply cellAt_in_range in Hc as (row & Hrow & Hcell & _).
    exists row. split; [|by eapply list_elem_of_lookup_2].
    apply list_elem_of_omap. exists (sc, Some card). split.
    + apply list_elem_of_lookup. exists sc. by rewrite list_lookup_imap, Hcell.
    + by rewrite Htest.
Qed.

Lemma hintCols_spec (grid : Grid) (r : nat) (row : list GridCell)
    (n c : nat) (ids : gset string) :
  grid !! r = Some row →
  ∃ ids', hintCols grid r c n ids = Some ids'
    ∧ ∀ x, x ∈ ids' ↔ x ∈ ids ∨ ∃ c', c ≤ c' < c + n ∧ row !! c' = Some None
                                      ∧ hintedFor grid r c' x.
Proof.
  intros Hrow. revert c ids. induction n as [|n IH]; intros c ids.
  { exists ids. split; [done|]. intros x. split; [by left|].
    intros [|(? & ? & _)]; [done|lia]. }
  cbn [hintCols]. unfold readCell. rewrite Hrow. cbn [mbind option_bind].
  assert (Hskip : ∀ ids0 : gset string,
    (∀ x, x ∈ ids0 ↔ x ∈ ids ∨ (row !! c = Some None ∧ hintedFor grid r c x)) →
    ∃ ids', hintCols grid r (S c) n ids0 = Some ids'
      ∧ ∀ x, x ∈ ids' ↔ x ∈ ids ∨ ∃ c', c ≤ c' < c + S n ∧ row !! c' = Some None
                                        ∧ hintedFor grid r c' x).
  { intros ids0 Hids0. destruct (IH (S c) ids0) as (ids' & Hres & Hiff).
    exists ids'. split; [done|]. intros x. rewrite Hiff, Hids0. split.
    - intros [[|[? ?]]|(c' & ? & ? & ?)]; [by left|right..].
      + exists c. split; [lia|done].
      + exists c'. split; [lia|done].
    - intros [|(c' & ? & Hgap & Hhint)]; [by left; left|].
      destruct (decide (c' = c)) as [->|].
      + left. right. done.
      + right. exists c'. split; [lia|done]. }
  assert (Hsame : (row !! c = Some None → ∀ x, ¬ hintedFor grid r c x) →
    ∀ x, x ∈ ids ↔ x ∈ ids ∨ (row !! c = Some None ∧ hintedFor grid r c x)).
  { intros Hno x. split; [by left|]. intros [|[Hgap Hhint]]; [done|].
    by destruct (Hno Hgap x). }
  destruct (row !! c) as [[card0|]|] eqn:Hcell;
    [apply Hskip, Hsame; by intros [=]| |apply Hskip, Hsame; by intros [=]].
  destruct (decide (c = 0)) as [->|Hc0].
  - apply Hskip. intros x. rewrite elem_of_union, idsOf_spec. unfold hintedFor.
    split; (intros [|Hx]; [by left|right]).
    + destruct Hx as (card & sr & sc & Hc & Hid & Htest).
      apply (canPlaceCard_column0 card r grid) in Htest as [Hok Hsc].
      split; [done|]. by exists card, sr, sc.
    + destruct Hx as (_ & card & sr & sc & Hc & Hid & Hok & Hsc).
      exists card, sr, sc. do 2 (split; [done|]).
      apply (canPlaceCard_column0 card r grid). split; [done | by apply Hsc].
  - destruct (row !! (c - 1)) as [[leftNeighbor|]|] eqn:Hleft;
      cbn [mbind option_bind].
    + destruct (decide (rank leftNeighbor ≠ KING)) as [Hking|Hking].
      * apply Hskip. intros x. rewrite elem_of_union, idsOf_spec. unfold hintedFor.
        split; (intros [|Hx]; [by left|right]).
        -- destruct Hx as (card & sr & sc & Hc & Hid & Htest).
           split; [done|]. exists card, sr, sc. do 2 (split; [done|]).
           rewrite (canPlaceCard_needed card leftNeighbor r c grid row sc) by done.
           by rewrite Htest.
        -- destruct Hx as (_ & card & sr & sc & Hc & Hid & Hok & _).
           exists card, sr, sc. do 2 (split; [done|]).
           rewrite (canPlaceCard_needed card leftNeighbor r c grid row sc) in Hok
             by done. by injection Hok.
      * apply Hskip, Hsame. intros _ x (card & sr & sc & _ & _ & Hok & _).
        rewrite (canPlaceCard_no_left card r c grid row) in Hok; [done..|].
        intros left' Hl. rewrite Hleft in Hl. injection Hl as <-.
        by destruct (decide (rank leftNeighbor = KING)).
    + apply Hskip, Hsame. intros _ x (card & sr & sc & _ & _ & Hok & _).
      rewrite (canPlaceCard_no_left card r c grid row) in Hok; [done..|].
      intros left' Hl. by rewrite Hleft in Hl.
    + apply Hskip, Hsame. intros _ x (card & sr & sc & _ & _ & Hok & _).
      rewrite (canPlaceCard_no_left card r c grid row) in Hok; [done..|].
      intros left' Hl. by rewrite Hleft in Hl.
Qed.

Lemma hintRows_spec (grid : Grid) (n r : nat) (ids : gset string) :
  r + n ≤ length grid →
  ∃ ids', hintRows grid r n ids = Some ids'
    ∧ ∀ x, x ∈ ids' ↔ x ∈ ids ∨ ∃ r' c', r ≤ r' < r + n ∧ c' < 13
                                         ∧ cellAt grid r' c' = Some None
                                         ∧ hintedFor grid r' c' x.
Proof.
  revert r ids. induction n as [|n IH]; intros r ids Hr.
  { exists ids. split; [done|]. intros x. split; [by left|].
    intros [|(? & ? & ? & _)]; [done|lia]. }
  cbn [hintRows]. destruct (lookup_lt_is_Some_2 grid r) as [row Hrow]; [lia|].
  destruct (hintCols_spec grid r row 13 0 ids Hrow) as (ids1 & -> & H1).
  cbn [mbind option_bind].
  destruct (IH (S r) ids1) as (ids' & Hres & Hiff); [lia|].
  exists ids'. split; [done|]. intros x. rewrite Hiff, H1. split.
  - intros [[|(c' & ? & Hgap & ?)]|(r' & c' & ? & ? & ? & ?)]; [by left|right..].
    + exists r, c'. split; [lia|]. split; [lia|]. split; [|done].
      unfold cellAt. by rewrite Hrow.
    + exists r', c'. split; [lia|done].
  - intros [|(r' & c' & ? & ? & Hgap & ?)]; [by left; left|].
    destruct (decide (r' = r)) as [->|].
    + left. right. exists c'. split; [lia|]. split; [|done].
      unfold cellAt in Hgap. by rewrite Hrow in Hgap.
    + right. exists r', c'. split; [lia|done].
Qed.

(** X25. On a 4x13 grid [startHint] never throws, and it hints exactly
    the ids of the cards that [canPlaceCard] accepts for some hole, a card
    in column 0 left aside for the holes of column 0; it hints nothing
    exactly when a click on a hole would move no card, whatever the
    hole. *)
Theorem startHint_spec (grid : Grid) :
  validGrid grid →
  ∃ ids, startHint grid = Some ids
    ∧ (∀ x, x ∈ ids ↔ ∃ r c, cellAt grid r c = Some None ∧ hintedFor grid r c x)
    ∧ (ids = ∅ ↔ ∀ r c, cellAt grid r c = Some None →
                         holeCandidate grid r c = Some None).
Proof.
  intros Hvalid. pose proof Hvalid as [Hlen _]. unfold startHint.
  destruct (hintRows_spec grid 4 0 ∅) as (ids & Hres & Hiff); [lia|].
  exists ids. split; [done|].
  assert (Hids : ∀ x, x ∈ ids ↔
            ∃ r c, cellAt grid r c = Some None ∧ hintedFor grid r c x).
  { intros x. rewrite Hiff. split.
    - intros [Hx|(r & c & _ & _ & ? & ?)]; [by apply elem_of_empty in Hx|].
      by exists r, c.
    - intros (r & c & Hgap & Hhint). right. exists r, c.
      apply cellAt_in_range in Hgap as Hin. destruct Hin as (row & Hrow & _ & ? & ?).
      destruct (validGrid_lookup grid r row Hvalid Hrow). split; [lia|].
      split; [lia|done]. }
  split; [done|]. split.
  - intros -> r c Hgap.
    destruct (holeCandidate_spec grid r c Hvalid Hgap) as (candidate & -> & Hspec).
    destruct candidate as [[[card sr] sc]|]; [|done].
    destruct Hspec as (Hs & Hok & Hsc & _).
    assert (id card ∈ (∅ : gset string)) as Hx; [|by apply elem_of_empty in Hx].
    apply Hids. exists r, c. split; [done|]. by exists card, sr, sc.
  - intros Hno. apply set_eq. intros x. rewrite Hids.
    split; [|by intros Hx%elem_of_empty].
    intros (r & c & Hgap & card & sr & sc & Hs & _ & Hok & Hsc).
    destruct (holeCandidate_spec grid r c Hvalid Hgap) as (candidate & Hc & Hspec).
    rewrite (Hno r c Hgap) in Hc. injection Hc as <-.
    destruct (Hspec sr sc card Hs Hok) as [-> ->]. by destruct Hsc.
Qed.

Lemma startHint_spec_witness :
  ∃ ids, startHint dealtGrid = Some ids
    ∧ id (sampleCard DIAMONDS FOUR) ∈ ids.
Proof.
  destruct (startHint_spec dealtGrid) as (ids & Hres & Hiff & _).
  - split; [reflexivity | repeat constructor].
  - exists ids. split; [exact Hres|]. apply Hiff. exists 3, 2.
    split; [reflexivity|]. exists (sampleCard DIAMONDS FOUR), 2, 8.
    do 3 (split; [reflexivity|]). discriminate.
Defined.

(** ** A move on the heap *)

Lemma calculateScoreH_holds (h : heap) (grid : loc) (rowRefs : list loc) (G : Grid) :
  holds h grid rowRefs G → calculateScoreH grid h = Some (calculateScore G, h).
Proof.
  intros [Hgrid Hrows]. unfold calculateScoreH, hbind, derefOuter. rewrite Hgrid.
  by apply scoreRowsH_holds.
Qed.

Lemma getLockedCardsH_holds (h : heap) (grid : loc) (rowRefs : list loc) (G : Grid) :
  holds h grid rowRefs G → getLockedCardsH grid h = Some (getLockedCards G, h).
Proof.
  intros [Hgrid Hrows]. unfold getLockedCardsH, hbind, derefOuter. rewrite Hgrid.
  by apply lockedRowsH_holds.
Qed.

Lemma checkWinConditionH_holds (h : heap) (grid : loc) (rowRefs : list loc)
    (G : Grid) :
  holds h grid rowRefs G → checkWinConditionH grid h = Some (checkWinCondition G, h).
Proof.
  intros [Hgrid Hrows]. unfold checkWinConditionH, hbind, derefOuter. rewrite Hgrid.
  by apply checkWinRowsH_holds.
Qed.

Lemma holds_weaken (h h' : heap) (grid : loc) (rowRefs : list loc) (G : Grid) :
  holds h grid rowRefs G → h ⊆ h' → holds h' grid rowRefs G.
Proof.
  intros [Hgrid Hrows] Hsub. split; [exact (lookup_weaken _ _ _ _ Hgrid Hsub)|].
  eapply Forall2_impl; [done|]. intros l cells Hl.
  exact (lookup_weaken _ _ _ _ Hl Hsub).
Qed.

(** [grid.map(row => [...row])] builds a grid of fresh arrays. *)
Lemma copyGrid_fresh (h : heap) (grid : loc) (rowRefs : list loc) (G : Grid) :
  holds h grid rowRefs G →
  ∃ newRows h1, copyRows rowRefs h = Some (newRows, h1)
    ∧ freshGrid h (<[fresh (dom h1) := Outer newRows]> h1) (fresh (dom h1))
                newRows G.
Proof.
  intros [Hgrid Hrows].
  destruct (copyRows_spec h rowRefs G h Hrows)
    as (newRows & h1 & Hcopy & Hsub1 & Hrows1 & Hnd & Hnew); [done|].
  exists newRows, h1. split; [done|].
  set (g' := fresh (dom h1)). set (h2 := <[g' := Outer newRows]> h1).
  assert (Hfresh1 : h1 !! g' = None) by apply not_elem_of_dom, is_fresh.
  assert (Hsub2 : h1 ⊆ h2) by by apply insert_subseteq.
  repeat split.
  - by transitivity h1.
  - apply lookup_insert_eq.
  - eapply Forall2_impl; [done|]. intros l cells Hl.
    exact (lookup_weaken _ _ _ _ Hl Hsub2).
  - done.
  - intros Hin. apply list_elem_of_lookup in Hin as [i Hi].
    destruct (Forall2_lookup_l _ _ _ _ _ Hrows1 Hi) as (cells & _ & Hl). congruence.
  - eapply lookup_weaken_None; [exact Hfresh1 | exact Hsub1].
  - done.
Qed.

(** X26. A move does not write to the grid it is given: where the pure
    [executeMove] succeeds, the move on the heap computes the same
    outcome in arrays that did not exist before, every array of the heap
    it was called on is unchanged, and the reference it was given,
    which the history keeps for undo, still holds the grid before the
    move. *)
Theorem executeMove_frame (h : heap) (grid : loc) (rowRefs : list loc) (G : Grid)
    (moveTimer : Z) (card : CardData) (sr sc tr tc : nat) (out : MoveOutcome) :
  holds h grid rowRefs G → executeMove G moveTimer card sr sc tr tc = Some out →
  ∃ newGrid newRows h',
    executeMoveH grid moveTimer card sr sc tr tc h
    = Some ((newGrid, speedBonus out, isCardLocked out, cardPointsGained out,
             won out), h')
    ∧ freshGrid h h' newGrid newRows (movedGrid out)
    ∧ holds h' grid rowRefs G
    ∧ newGrid ≠ grid ∧ (∀ l, l ∈ newRows → l ∉ rowRefs).
Proof.
  intros Hh Hpure. pose proof Hh as [Hgrid Hrows].
  destruct (copyGrid_fresh h grid rowRefs G Hh) as (newRows & h1 & Hcopy & Hfresh).
  set (g' := fresh (dom h1)) in *. set (h2 := <[g' := Outer newRows]> h1) in *.
  unfold executeMove in Hpure. rewrite list_fmap_id in Hpure.
  destruct (writeCell G tr tc (Some card)) as [G1|] eqn:Hw1; [|done].
  cbn [mbind option_bind] in Hpure.
  destruct (writeCell G1 sr sc None) as [G2|] eqn:Hw2; [|done].
  cbn [mbind option_bind] in Hpure. injection Hpure as <-.
  cbn [movedGrid speedBonus isCardLocked cardPointsGained won].
  destruct (setCell_sim h h2 g' newRows G G1 tr tc (Some card) Hfresh Hw1)
    as (h3 & Hset1 & Hfresh3).
  destruct (setCell_sim h h3 g' newRows G1 G2 sr sc None Hfresh3 Hw2)
    as (h4 & Hset2 & Hfresh4).
  pose proof Hfresh4 as (Hsub & Hh4 & _ & _ & Hnew & Hnews).
  exists g', newRows, h4. split; [|split; [done|split; [|split]]].
  - unfold executeMoveH. unfold hbind at 1.
    rewrite (calculateScoreH_holds h grid rowRefs G Hh).
    unfold hbind at 1. unfold derefOuter. rewrite Hgrid.
    unfold hbind at 1. rewrite Hcopy. unfold hbind at 1. unfold alloc.
    fold g'. fold h2. unfold hbind at 1. rewrite Hset1.
    unfold hbind at 1. rewrite Hset2.
    unfold hbind at 1. rewrite (getLockedCardsH_holds h4 g' newRows G2 Hh4).
    unfold hbind at 1. rewrite (calculateScoreH_holds h4 g' newRows G2 Hh4).
    unfold hbind at 1. rewrite (checkWinConditionH_holds h4 g' newRows G2 Hh4).
    done.
  - by eapply holds_weaken.
  - intros ->. congruence.
  - intros l Hl Hin. pose proof (proj1 (Forall_forall _ _) Hnews l Hl) as Hnone.
    apply list_elem_of_lookup in Hin as [i Hi].
    destruct (Forall2_lookup_l _ _ _ _ _ Hrows Hi) as (cells & _ & Hcells).
    congruence.
Qed.

Lemma executeMove_frame_witness :
  ∃ out newGrid newRows h',
    executeMove dealtGrid 30 (sampleCard DIAMONDS FOUR) 2 8 3 2 = Some out
    ∧ executeMoveH (layout dealtGrid).1.2 30 (sampleCard DIAMONDS FOUR) 2 8 3 2
                   (layout dealtGrid).1.1
      = Some ((newGrid, speedBonus out, isCardLocked out, cardPointsGained out,
               won out), h')
    ∧ holds h' (layout dealtGrid).1.2 (layout dealtGrid).2 dealtGrid
    ∧ holds h' newGrid newRows (movedGrid out).
Proof.
  destruct (executeMove_grid dealtGrid 30 (sampleCard DIAMONDS FOUR) 2 8 3 2
              eq_refl eq_refl) as (out & _ & _ & Hout & _).
  destruct (executeMove_frame (layout dealtGrid).1.1 (layout dealtGrid).1.2
              (layout dealtGrid).2 dealtGrid 30 (sampleCard DIAMONDS FOUR) 2 8 3 2 out)
    as (newGrid & newRows & h' & Hrun & Hfresh & Hold & _).
  - split; [reflexivity|]. repeat constructor.
  - exact Hout.
  - exists out, newGrid, newRows, h'. split; [exact Hout|]. split; [exact Hrun|].
    split; [exact Hold|]. exact (proj1 (proj2 Hfresh)).
Defined.

(** ** Dropping a card *)

(** X27. A drop of a card dragged from its cell throws exactly when the
    card is not locked and the target row is not a row of the grid; on a
    row of the grid it moves the card exactly when the card is not locked,
    the target is a hole (a column outside the row is none) and
    [canPlaceCard] accepts it, so a drop never overwrites a card; and the
    move it makes gains card points that are not negative and unlocks
    nothing. *)
Theorem handleDrop_spec (grid : Grid) (moveTimer : Z) (card : CardData)
    (sr sc tr tc : nat) :
  cellAt grid sr sc = Some (Some card) →
  (handleDrop false grid moveTimer (Some (card, sr, sc)) tr tc = None
   ↔ (id card ∉ getLockedCards grid) ∧ length grid ≤ tr)
  ∧ ∀ res, handleDrop false grid moveTimer (Some (card, sr, sc)) tr tc = Some res →
      (is_Some res ↔ (id card ∉ getLockedCards grid)
                     ∧ cellAt grid tr tc = Some None
                     ∧ canPlaceCard card tr tc grid = Some true)
      ∧ ∀ out, res = Some out →
          executeMove grid moveTimer card sr sc tr tc = Some out
          ∧ (0 ≤ cardPointsGained out)%Z
          ∧ getLockedCards grid ⊆ getLockedCards (movedGrid out).
Proof.
  intros Hs. unfold handleDrop.
  destruct (decide (id card ∈ getLockedCards grid)) as [Hlocked|Hfree].
  { split; [split; [done | by intros [? _]]|]. intros res [= <-].
    split; [|done]. split; [by intros [? [=]] | by intros [? _]]. }
  unfold readCell, cellAt.
  destruct (grid !! tr) as [row|] eqn:Hrow; cbn [mbind option_bind].
  2: { split; [|done]. split; [|done]. intros _. split; [done|].
       by apply lookup_ge_None. }
  apply lookup_lt_Some in Hrow as Hlt.
  assert (Hnone : ∀ m : option (option MoveOutcome),
            is_Some m → m = None ↔ (id card ∉ getLockedCards grid) ∧ length grid ≤ tr).
  { intros m [x ->]. split; [done | intros [_ ?]; lia]. }
  destruct (decide (row !! tc ≠ Some None)) as [Hcell|Hcell].
  { split; [by apply Hnone|]. intros res [= <-]. split; [|done].
    split; [by intros [? [=]] | by intros (_ & ? & _)]. }
  assert (Hgap : row !! tc = Some None) by by destruct (decide (row !! tc = Some None)).
  assert (Hhole : cellAt grid tr tc = Some None) by (unfold cellAt; by rewrite Hrow).
  destruct (canPlaceCard_is_Some card tr tc grid Hlt) as [ok Hok]. rewrite Hok.
  cbn [mbind option_bind]. destruct ok.
  - destruct (executeMove_grid grid moveTimer card sr sc tr tc Hs Hhole)
      as (out & _ & _ & Hout & _ & _ & _ & _ & _ & _ & Hgain & _).
    rewrite Hout. cbn [fmap option_fmap option_map].
    split; [by apply Hnone|]. intros res [= <-]. split; [by split|].
    intros out' [= <-]. split; [done|].
    pose proof (executeMove_keepsLocked grid moveTimer card sr sc tr tc out
                  Hs Hhole Hfree Hout) as Hkeep.
    destruct (keepsLocked_monotone grid _ Hkeep) as [Hscore Hlocked].
    rewrite Hgain. split; [lia | done].
  - split; [by apply Hnone|]. intros res [= <-]. split; [|done].
    split; [by intros [? [=]] | by intros (_ & _ & ?)].
Qed.

Lemma handleDrop_spec_witness :
  ∃ out, handleDrop false dealtGrid 30 (Some (sampleCard DIAMONDS FOUR, 2, 8)) 3 2
         = Some (Some out)
    ∧ (0 ≤ cardPointsGained out)%Z.
Proof.
  eexists. split; [reflexivity|].
  refine (proj1 (proj2 (proj2 (proj2 (handleDrop_spec dealtGrid 30
            (sampleCard DIAMONDS FOUR) 2 8 3 2 _) _ _) _ _))); reflexivity.
Defined.
